(** * A pointer-level model of the [tree] package (binary search tree)

    The Go package keeps its nodes on the heap and links them with three
    pointers per node ([parent], [left], [right]).  The model below keeps
    that representation: a heap is a finite map from addresses to node
    records, a pointer is an optional address ([None] is Go's [nil]), and
    every method reads and writes the heap the way the Go statement does.

    Loops and recursive walks over the heap take their fuel from the number
    of allocated cells.  A loop of the package whose state is one pointer
    can only run for more iterations than there are cells by visiting a
    cell twice, and from then on it repeats for ever; such a run is reported
    as [Diverge].  A nil or dangling dereference, an index out of range and
    an out-of-range [Truncate] are reported as [Panic]. *)

From Stdlib Require Import ZArith Lia String Ascii.
From stdpp Require Import gmap list sorting pretty.

Open Scope Z_scope.

#[local] Set Warnings "-clear-no-such-hyp".

(** ** Results of running Go code *)

Inductive result (A : Type) : Type :=
  | Ok (a : A)
  | Panic
  | Diverge.
Arguments Ok {A} a.
Arguments Panic {A}.
Arguments Diverge {A}.

#[global] Instance result_ret : MRet result := fun _ a => Ok a.
#[global] Instance result_bind : MBind result := fun _ _ f m =>
  match m with
  | Ok a => f a
  | Panic => Panic
  | Diverge => Diverge
  end.
#[global] Instance result_fmap : FMap result := fun _ _ f m =>
  match m with
  | Ok a => Ok (f a)
  | Panic => Panic
  | Diverge => Diverge
  end.

(** ** Go's [int] (64 bits, two's complement) *)

Definition int_min : Z := - 2 ^ 63.
Definition int_max : Z := 2 ^ 63 - 1.

Definition int_wrap (z : Z) : Z := (z + 2 ^ 63) mod 2 ^ 64 - 2 ^ 63.

Definition int_add (a b : Z) : Z := int_wrap (a + b).
Definition int_sub (a b : Z) : Z := int_wrap (a - b).

(** [maxInt] of tree.go. *)
Definition maxInt (a b : Z) : Z := if a <? b then b else a.

(** ** Addresses and pointers *)

Definition loc := positive.
Abbreviation ptr := (option loc).

(** ** bytes.Buffer, as far as [String] uses it *)

(** [Truncate n] keeps the first [n] bytes and panics when [n] is negative
    or larger than the length. *)
Definition Truncate (buf : string) (n : Z) : result string :=
  if (n <? 0) || (Z.of_nat (String.length buf) <? n)
  then Panic
  else Ok (substring 0 (Z.to_nat n) buf).

Section Tree.

Context {Value : Type}.

(** ** Data model *)

Record Node : Type := mkNode {
  n_val : Value;
  n_parent : ptr;
  n_left : ptr;
  n_right : ptr;
  n_lessFn : Value -> Value -> bool
}.

Record Tree : Type := mkTree {
  t_root : ptr;
  t_size : Z;
  t_lessFn : Value -> Value -> bool
}.

(** The state a method runs in: the heap of nodes and the one [Tree]
    struct the method receives. *)
Record state : Type := mkState {
  heap : gmap loc Node;
  tree : Tree
}.

Definition set_parent (n : Node) (p : ptr) : Node :=
  mkNode (n_val n) p (n_left n) (n_right n) (n_lessFn n).
Definition set_left (n : Node) (p : ptr) : Node :=
  mkNode (n_val n) (n_parent n) p (n_right n) (n_lessFn n).
Definition set_right (n : Node) (p : ptr) : Node :=
  mkNode (n_val n) (n_parent n) (n_left n) p (n_lessFn n).

(** Dereferencing a pointer. *)
Definition load (h : gmap loc Node) (p : ptr) : result Node :=
  match p with
  | None => Panic
  | Some a => match h !! a with Some n => Ok n | None => Panic end
  end.

(** ** Node: queries *)

(** [Val]. *)
Definition Val (h : gmap loc Node) (n : ptr) : result Value :=
  n_val <$> load h n.

(** The loop [for t.left != nil { t = t.left }] started at a non-nil [t]. *)
Fixpoint min_loop (fuel : nat) (h : gmap loc Node) (t : loc) : result loc :=
  match fuel with
  | O => Diverge
  | S f =>
      n ← load h (Some t);
      match n_left n with
      | Some l => min_loop f h l
      | None => Ok t
      end
  end.

Fixpoint max_loop (fuel : nat) (h : gmap loc Node) (t : loc) : result loc :=
  match fuel with
  | O => Diverge
  | S f =>
      n ← load h (Some t);
      match n_right n with
      | Some r => max_loop f h r
      | None => Ok t
      end
  end.

Definition Min (h : gmap loc Node) (t : ptr) : result ptr :=
  match t with
  | None => Ok None
  | Some a => Some <$> min_loop (size h) h a
  end.

Definition Max (h : gmap loc Node) (t : ptr) : result ptr :=
  match t with
  | None => Ok None
  | Some a => Some <$> max_loop (size h) h a
  end.

(** The loop [for p != nil && n == p.right { n = p; p = p.parent }],
    returning the final [p]. *)
Fixpoint next_loop (fuel : nat) (h : gmap loc Node) (n : loc) (p : ptr)
  : result ptr :=
  match p with
  | None => Ok None
  | Some pa =>
      match fuel with
      | O => Diverge
      | S f =>
          pn ← load h p;
          if decide (Some n = n_right pn)
          then next_loop f h pa (n_parent pn)
          else Ok p
      end
  end.

Fixpoint prev_loop (fuel : nat) (h : gmap loc Node) (n : loc) (p : ptr)
  : result ptr :=
  match p with
  | None => Ok None
  | Some pa =>
      match fuel with
      | O => Diverge
      | S f =>
          pn ← load h p;
          if decide (Some n = n_left pn)
          then prev_loop f h pa (n_parent pn)
          else Ok p
      end
  end.

Definition Next (h : gmap loc Node) (n : ptr) : result ptr :=
  nd ← load h n;
  match n_right nd with
  | Some r => Min h (Some r)
  | None =>
      match n with
      | Some a => next_loop (size h) h a (n_parent nd)
      | None => Panic
      end
  end.

Definition Prev (h : gmap loc Node) (n : ptr) : result ptr :=
  nd ← load h n;
  match n_left nd with
  | Some l => Max h (Some l)
  | None =>
      match n with
      | Some a => prev_loop (size h) h a (n_parent nd)
      | None => Panic
      end
  end.

(** [Find]: the comparator is the one stored in the node at hand. *)
Fixpoint find_loop (fuel : nat) (h : gmap loc Node) (t : ptr) (v : Value)
  : result ptr :=
  match t with
  | None => Ok None
  | Some _ =>
      match fuel with
      | O => Diverge
      | S f =>
          n ← load h t;
          if n_lessFn n v (n_val n) then find_loop f h (n_left n) v
          else if n_lessFn n (n_val n) v then find_loop f h (n_right n) v
          else Ok t
      end
  end.

Definition Find (h : gmap loc Node) (t : ptr) (v : Value) : result ptr :=
  find_loop (size h) h t v.

Definition Contains (h : gmap loc Node) (t : ptr) (v : Value) : result bool :=
  n ← Find h t v;
  Ok (bool_decide (n ≠ None)).

(** [Height]: recursion on the two children. *)
Fixpoint height_rec (fuel : nat) (h : gmap loc Node) (t : ptr) : result Z :=
  match t with
  | None => Ok 0
  | Some _ =>
      match fuel with
      | O => Diverge
      | S f =>
          n ← load h t;
          l ← height_rec f h (n_left n);
          r ← height_rec f h (n_right n);
          Ok (int_add 1 (maxInt l r))
      end
  end.

Definition Height (h : gmap loc Node) (t : ptr) : result Z :=
  height_rec (size h) h t.

(** ** Node: String *)

(** How [fmt] renders a value under the verb [%v]. *)
Context (fmtv : Value -> string).

(** The closure [walk] of [String]; the buffer is threaded through. *)
Fixpoint walk (fuel : nat) (h : gmap loc Node) (n : ptr) (buf : string)
  : result string :=
  match n with
  | None => Ok buf
  | Some _ =>
      match fuel with
      | O => Diverge
      | S f =>
          nd ← load h n;
          buf1 ← walk f h (n_left nd) buf;
          walk f h (n_right nd) (buf1 ++ (fmtv (n_val nd) ++ " "))%string
      end
  end.

Definition Node_String (h : gmap loc Node) (t : ptr) : result string :=
  let buf := "["%string in
  buf1 ← match t with
         | None => Ok buf
         | Some _ =>
             b ← walk (size h) h t buf;
             Truncate b (Z.of_nat (String.length b) - 1)
         end;
  Ok (buf1 ++ "]")%string.

(** ** The state-and-error monad of the mutating methods *)

Definition M (A : Type) : Type := state -> result (A * state).

#[global] Instance M_ret : MRet M := fun _ a s => Ok (a, s).
#[global] Instance M_bind : MBind M := fun _ _ f m s =>
  match m s with
  | Ok (a, s') => f a s'
  | Panic => Panic
  | Diverge => Diverge
  end.

Definition panic {A : Type} : M A := fun _ => Panic.

(** Running a query on the current heap. *)
Definition lift {A : Type} (f : gmap loc Node -> result A) : M A :=
  fun s => match f (heap s) with
           | Ok a => Ok (a, s)
           | Panic => Panic
           | Diverge => Diverge
           end.

Definition get_tree : M Tree := fun s => Ok (tree s, s).

(** [*p], as an rvalue. *)
Definition deref (p : ptr) : M Node := lift (fun h => load h p).

(** [p.field = ...]: [f] sets the field. *)
Definition store (p : ptr) (f : Node -> Node) : M unit := fun s =>
  match p with
  | None => Panic
  | Some a =>
      match heap s !! a with
      | None => Panic
      | Some n => Ok (tt, mkState (<[a := f n]> (heap s)) (tree s))
      end
  end.

(** [t.root = p] and [t.size = z]. *)
Definition set_root (p : ptr) : M unit := fun s =>
  Ok (tt, mkState (heap s)
            (mkTree p (t_size (tree s)) (t_lessFn (tree s)))).
Definition set_size (z : Z) : M unit := fun s =>
  Ok (tt, mkState (heap s)
            (mkTree (t_root (tree s)) z (t_lessFn (tree s)))).

(** [&Node{...}]: a cell at an address not in use. *)
Definition alloc (n : Node) : M ptr := fun s =>
  let a := fresh (dom (heap s)) in
  Ok (Some a, mkState (<[a := n]> (heap s)) (tree s)).

(** ** Tree: construction and queries *)

Definition New (lessFn : Value -> Value -> bool) : Tree :=
  mkTree None 0 lessFn.

Definition Len (s : state) : Z := t_size (tree s).
Definition Root (s : state) : ptr := t_root (tree s).

(** [Slice].  The array is [make([]Value, t.Len())]: its cells start as
    nil ([None]), [make] panics on a negative length, and [array[i] = ...]
    panics when [i] is out of range.  The closure [slice] threads [i] and
    the array through. *)
Fixpoint slice_rec (fuel : nat) (h : gmap loc Node) (n : ptr) (i : Z)
    (array : list (option Value)) : result (Z * list (option Value)) :=
  match n with
  | None => Ok (i, array)
  | Some _ =>
      match fuel with
      | O => Diverge
      | S f =>
          nd ← load h n;
          '(i1, a1) ← match n_left nd with
                      | Some _ => slice_rec f h (n_left nd) i array
                      | None => Ok (i, array)
                      end;
          if (i1 <? 0) || (Z.of_nat (length a1) <=? i1) then Panic
          else
            let a2 := <[Z.to_nat i1 := Some (n_val nd)]> a1 in
            let i2 := int_add i1 1 in
            match n_right nd with
            | Some _ => slice_rec f h (n_right nd) i2 a2
            | None => Ok (i2, a2)
            end
      end
  end.

Definition Slice (s : state) : result (list (option Value)) :=
  if Len s <? 0 then Panic
  else
    '(_, array) ← slice_rec (size (heap s)) (heap s) (t_root (tree s)) 0
                    (replicate (Z.to_nat (Len s)) None);
    Ok array.

Definition Tree_String (s : state) : result string :=
  Node_String (heap s) (t_root (tree s)).
Definition Tree_Find (s : state) (v : Value) : result ptr :=
  Find (heap s) (t_root (tree s)) v.
Definition Tree_Contains (s : state) (v : Value) : result bool :=
  n ← Find (heap s) (t_root (tree s)) v;
  Ok (bool_decide (n ≠ None)).
Definition Tree_Max (s : state) : result ptr := Max (heap s) (t_root (tree s)).
Definition Tree_Min (s : state) : result ptr := Min (heap s) (t_root (tree s)).
Definition Tree_Height (s : state) : result Z :=
  Height (heap s) (t_root (tree s)).

(** ** Tree: Insert *)

(** How the descent of [Insert] ends: on a node equal to [v], or off the
    tree below the last node visited. *)
Inductive descent : Type :=
  | Found (x : ptr)
  | Fell (n : ptr).

Fixpoint insert_loop (fuel : nat) (lessFn : Value -> Value -> bool)
    (h : gmap loc Node) (v : Value) (x n : ptr) : result descent :=
  match x with
  | None => Ok (Fell n)
  | Some _ =>
      match fuel with
      | O => Diverge
      | S f =>
          xn ← load h x;
          if lessFn v (n_val xn) then insert_loop f lessFn h v (n_left xn) x
          else if lessFn (n_val xn) v
               then insert_loop f lessFn h v (n_right xn) x
               else Ok (Found x)
      end
  end.

Definition Insert (v : Value) : M ptr :=
  t ← get_tree;
  d ← lift (fun h => insert_loop (size h) (t_lessFn t) h v (t_root t) None);
  match d with
  | Found x => mret x
  | Fell n =>
      z ← alloc (mkNode v n None None (t_lessFn t));
      match n with
      | None => set_root z
      | Some _ =>
          nn ← deref n;
          if t_lessFn t v (n_val nn)
          then store n (fun x => set_left x z)
          else store n (fun x => set_right x z)
      end;;
      t' ← get_tree;
      set_size (int_add (t_size t') 1);;
      mret z
  end.

(** ** Tree: Delete *)

Definition transplant (u v : ptr) : M unit :=
  un ← deref u;
  match n_parent un with
  | None => set_root v
  | Some _ =>
      pn ← deref (n_parent un);
      if decide (u = n_left pn)
      then store (n_parent un) (fun x => set_left x v)
      else store (n_parent un) (fun x => set_right x v)
  end;;
  match v with
  | None => mret tt
  | Some _ =>
      un' ← deref u;
      store v (fun x => set_parent x (n_parent un'))
  end.

Definition removeNode (n : ptr) : M unit :=
  nn ← deref n;
  (if decide (n_left nn = None) then transplant n (n_right nn)
   else if decide (n_right nn = None) then transplant n (n_left nn)
   else
     s ← lift (fun h =>
                 match n_right nn with
                 | None => Panic
                 | Some r => Some <$> min_loop (size h) h r
                 end);
     sn ← deref s;
     (if decide (n_parent sn ≠ n)
      then
        transplant s (n_right sn);;
        nn1 ← deref n;
        store s (fun x => set_right x (n_right nn1));;
        sn1 ← deref s;
        store (n_right sn1) (fun x => set_parent x s)
      else mret tt);;
     transplant n s;;
     nn2 ← deref n;
     store s (fun x => set_left x (n_left nn2));;
     sn2 ← deref s;
     store (n_left sn2) (fun x => set_parent x s));;
  t ← get_tree;
  set_size (int_sub (t_size t) 1).

Definition Delete (v : Value) : M bool :=
  t ← get_tree;
  n ← lift (fun h => Find h (t_root t) v);
  match n with
  | Some _ => removeNode n;; mret true
  | None => mret false
  end.

(** ** Tree: Init and RandInit *)

Fixpoint Init (vs : list Value) : M unit :=
  match vs with
  | [] => mret tt
  | v :: vs' => Insert v;; Init vs'
  end.

(** The second loop of [RandInit], [k] being [i + 1].  [rnd i] is what
    [rand.Intn(i + 1)] returns at step [i]. *)
Fixpoint randinit_loop (rnd : nat -> nat) (vs : list Value) (idx : list nat)
    (k : nat) : M unit :=
  match k with
  | O => mret tt
  | S i =>
      let r := rnd i in
      match idx !! r with
      | None => panic
      | Some j =>
          match vs !! j with
          | None => panic
          | Some v =>
              Insert v;;
              match idx !! i with
              | None => panic
              | Some ji => randinit_loop rnd vs (<[i := j]> (<[r := ji]> idx)) i
              end
          end
      end
  end.

Definition RandInit (rnd : nat -> nat) (vs : list Value) : M unit :=
  randinit_loop rnd vs (seq 0 (length vs)) (length vs).

End Tree.

Arguments Node : clear implicits.
Arguments Tree : clear implicits.
Arguments state : clear implicits.
Arguments M : clear implicits.

(** * Reading a heap as a tree

    The properties of the package are stated on the heap where they can be
    (reachability, the three invariants, the in-order walk) and proved
    through the tree a well-formed heap represents. *)

Section Spec.

Context {Value : Type}.
Implicit Types (h : gmap loc (Node Value)) (p par : ptr) (a b c z : loc).

(** ** On the heap *)

(** [reach h p a]: the cell [a] is in the subtree [p] points to. *)
Inductive reach h : ptr -> loc -> Prop :=
  | reach_here a n :
      h !! a = Some n -> reach h (Some a) a
  | reach_left a n b :
      h !! a = Some n -> reach h (n_left n) b -> reach h (Some a) b
  | reach_right a n b :
      h !! a = Some n -> reach h (n_right n) b -> reach h (Some a) b.

(** In-order walk over the subtree at [p], collecting the addresses. *)
Fixpoint nodes_rec (fuel : nat) h p : result (list loc) :=
  match p with
  | None => Ok []
  | Some a =>
      match fuel with
      | O => Diverge
      | S f =>
          n ← load h p;
          l ← nodes_rec f h (n_left n);
          r ← nodes_rec f h (n_right n);
          Ok (l ++ a :: r)
      end
  end.

Definition nodes h p : result (list loc) := nodes_rec (size h) h p.

(** The values stored at a list of addresses. *)
Fixpoint vals_at h (ls : list loc) : result (list Value) :=
  match ls with
  | [] => Ok []
  | a :: ls' =>
      n ← load h (Some a);
      vs ← vals_at h ls';
      Ok (n_val n :: vs)
  end.

(** The in-order value sequence of the subtree at [p]. *)
Definition inorder h p : result (list Value) :=
  ls ← nodes h p;
  vals_at h ls.

(** Starting at [p] and calling [Next] until it yields nil; the addresses
    visited, in order. *)
Fixpoint walk_next (fuel : nat) h p : result (list loc) :=
  match p with
  | None => Ok []
  | Some a =>
      match fuel with
      | O => Diverge
      | S f =>
          q ← Next h p;
          rest ← walk_next f h q;
          Ok (a :: rest)
      end
  end.

Fixpoint walk_prev (fuel : nat) h p : result (list loc) :=
  match p with
  | None => Ok []
  | Some a =>
      match fuel with
      | O => Diverge
      | S f =>
          q ← Prev h p;
          rest ← walk_prev f h q;
          Ok (a :: rest)
      end
  end.

(** From [Min()] upwards with [Next], from [Max()] downwards with [Prev]. *)
Definition ascend (s : state Value) : result (list loc) :=
  m ← Tree_Min s;
  walk_next (size (heap s)) (heap s) m.

Definition descend (s : state Value) : result (list loc) :=
  m ← Tree_Max s;
  walk_prev (size (heap s)) (heap s) m.

(** [array] with the cells from index [i] on overwritten by [ws]. *)
Definition splice {A : Type} (array : list A) (i : nat) (ws : list A)
  : list A :=
  take i array ++ ws ++ drop (i + length ws) array.

(** The format of [String]: the values between brackets, separated by
    single spaces. *)
Definition bracketed (fmtv : Value -> string) (vs : list Value) : string :=
  ("[" ++ String.concat " " (map fmtv vs) ++ "]")%string.

(** What the closure [walk] of [String] writes: every value followed by a
    space. *)
Fixpoint spaced (fmtv : Value -> string) (vs : list Value) : string :=
  match vs with
  | [] => ""
  | v :: vs' => (fmtv v ++ " " ++ spaced fmtv vs')%string
  end.

(** The nodes the loop of [Find] visits. *)
Fixpoint find_path (fuel : nat) h p (v : Value) : result (list loc) :=
  match p with
  | None => Ok []
  | Some a =>
      match fuel with
      | O => Diverge
      | S f =>
          n ← load h p;
          if n_lessFn n v (n_val n)
          then (a ::.) <$> find_path f h (n_left n) v
          else if n_lessFn n (n_val n) v
               then (a ::.) <$> find_path f h (n_right n) v
               else Ok [a]
      end
  end.

(** The indices [RandInit] picks, in the order it picks them: its second
    loop, without the insertions. *)
Fixpoint shuffle_order (rnd : nat -> nat) (idx : list nat) (k : nat)
  : list nat :=
  match k with
  | O => []
  | S i =>
      match idx !! rnd i, idx !! i with
      | Some j, Some ji =>
          j :: shuffle_order rnd (<[i := j]> (<[rnd i := ji]> idx)) i
      | _, _ => []
      end
  end.

(** The values [RandInit] inserts, in order. *)
Definition shuffled (rnd : nat -> nat) (vs : list Value) : list Value :=
  omap (fun j => vs !! j) (shuffle_order rnd (seq 0 (length vs)) (length vs)).

Section Invariants.

Context (less : Value -> Value -> bool).

(** The comparator as a relation. *)
Definition lessR (x y : Value) : Prop := less x y = true.

(** The comparator's notion of equality. *)
Definition equal (x y : Value) : Prop := less x y = false ∧ less y x = false.

(** Invariant (1), the search-tree property. *)
Definition bst_heap h p : Prop :=
  ∀ a n, reach h p a -> h !! a = Some n ->
    (∀ b m, reach h (n_left n) b -> h !! b = Some m ->
            less (n_val m) (n_val n) = true) ∧
    (∀ b m, reach h (n_right n) b -> h !! b = Some m ->
            less (n_val n) (n_val m) = true).

(** Invariant (2), parent consistency. *)
Definition parent_heap h p : Prop :=
  (∀ a n, p = Some a -> h !! a = Some n -> n_parent n = None) ∧
  (∀ a n, reach h p a -> h !! a = Some n ->
     (∀ c, n_left n = Some c ->
           ∃ m, h !! c = Some m ∧ n_parent m = Some a) ∧
     (∀ c, n_right n = Some c ->
           ∃ m, h !! c = Some m ∧ n_parent m = Some a)).

(** Invariant (3): [size] is the number of cells reachable from the root,
    as an [int]. *)
Definition size_heap (s : state Value) : Prop :=
  ∃ ls, nodes (heap s) (t_root (tree s)) = Ok ls ∧
        NoDup ls ∧
        (∀ a, a ∈ ls ↔ reach (heap s) (t_root (tree s)) a) ∧
        t_size (tree s) = int_wrap (Z.of_nat (length ls)) ∧
        (Z.of_nat (length ls) <= int_max ->
         t_size (tree s) = Z.of_nat (length ls)).

(** The tree contains a node whose value the comparator equates with [v]. *)
Definition contains_equal (s : state Value) (v : Value) : Prop :=
  ∃ a n, reach (heap s) (t_root (tree s)) a ∧ heap s !! a = Some n ∧
         equal v (n_val n).

(** ** The tree a heap represents *)

Inductive btree : Type :=
  | Leaf
  | Br (l : btree) (a : loc) (v : Value) (r : btree).

Definition root_of (t : btree) : ptr :=
  match t with
  | Leaf => None
  | Br _ a _ _ => Some a
  end.

Fixpoint locs (t : btree) : list loc :=
  match t with
  | Leaf => []
  | Br l a _ r => locs l ++ a :: locs r
  end.

Fixpoint vals (t : btree) : list Value :=
  match t with
  | Leaf => []
  | Br l _ v r => vals l ++ v :: vals r
  end.

Fixpoint depth (t : btree) : nat :=
  match t with
  | Leaf => O
  | Br l _ _ r => S (Nat.max (depth l) (depth r))
  end.

(** [shape h par t]: the cells of [t] are in [h], linked as [t] says, each
    with the comparator [less], and the root's parent pointer is [par]. *)
Fixpoint shape h par (t : btree) : Prop :=
  match t with
  | Leaf => True
  | Br l a v r =>
      h !! a = Some (mkNode v par (root_of l) (root_of r) less) ∧
      shape h (Some a) l ∧ shape h (Some a) r
  end.

Fixpoint bst (t : btree) : Prop :=
  match t with
  | Leaf => True
  | Br l _ v r =>
      bst l ∧ bst r ∧
      Forall (fun x => less x v = true) (vals l) ∧
      Forall (fun x => less v x = true) (vals r)
  end.

(** The invariant of a [Tree]: its heap is a search tree without sharing,
    the root has no parent, and [size] counts the nodes. *)
Definition tree_repr (s : state Value) (t : btree) : Prop :=
  t_lessFn (tree s) = less ∧
  t_root (tree s) = root_of t ∧
  shape (heap s) None t ∧
  NoDup (locs t) ∧
  bst t ∧
  t_size (tree s) = int_wrap (Z.of_nat (length (locs t))).

Definition tree_inv (s : state Value) : Prop := ∃ t, tree_repr s t.

(** The states a program can get a [Tree] into: [New], then any sequence
    of [Insert], [Delete], [Init] and [RandInit], the random source
    answering [rand.Intn(i + 1)] with a number from 0 to [i]. *)
Inductive reachable : state Value -> Prop :=
  | reachable_New h0 :
      reachable (mkState h0 (New less))
  | reachable_Insert s v q s' :
      reachable s -> Insert v s = Ok (q, s') -> reachable s'
  | reachable_Delete s v (found : bool) s' :
      reachable s -> Delete v s = Ok (found, s') -> reachable s'
  | reachable_Init s vs s' :
      reachable s -> Init vs s = Ok (tt, s') -> reachable s'
  | reachable_RandInit s rnd vs s' :
      reachable s -> (∀ i, (rnd i <= i)%nat) ->
      RandInit rnd vs s = Ok (tt, s') -> reachable s'.

(** ** The methods, on the represented tree *)

Fixpoint find_abs (t : btree) (v : Value) : ptr :=
  match t with
  | Leaf => None
  | Br l a x r =>
      if less v x then find_abs l v
      else if less x v then find_abs r v
      else Some a
  end.

Fixpoint descend_abs (t : btree) (v : Value) (n : ptr) : descent :=
  match t with
  | Leaf => Fell n
  | Br l a x r =>
      if less v x then descend_abs l v (Some a)
      else if less x v then descend_abs r v (Some a)
      else Found (Some a)
  end.

Fixpoint ins (z : loc) (v : Value) (t : btree) : btree :=
  match t with
  | Leaf => Br Leaf z v Leaf
  | Br l a x r =>
      if less v x then Br (ins z v l) a x r
      else if less x v then Br l a x (ins z v r)
      else t
  end.

Fixpoint leftmost (t : btree) (d : loc) : loc :=
  match t with
  | Leaf => d
  | Br l a _ _ => leftmost l a
  end.

Fixpoint rightmost (t : btree) (d : loc) : loc :=
  match t with
  | Leaf => d
  | Br _ a _ r => rightmost r a
  end.

(** The tree without its leftmost node ([Leaf] stays [Leaf]). *)
Fixpoint drop_min (t : btree) : btree :=
  match t with
  | Leaf => Leaf
  | Br Leaf _ _ r => r
  | Br l a v r => Br (drop_min l) a v r
  end.

Fixpoint min_val (t : btree) (d : Value) : Value :=
  match t with
  | Leaf => d
  | Br l _ v _ => min_val l v
  end.

(** What [removeNode] leaves in place of the subtree [Br l a v r]. *)
Definition del_root (l : btree) (a : loc) (v : Value) (r : btree) : btree :=
  match l, r with
  | Leaf, _ => r
  | _, Leaf => l
  | _, Br rl ra rv rr =>
      Br l (leftmost rl ra) (min_val rl rv) (drop_min r)
  end.

Fixpoint remove_at (n : loc) (t : btree) : btree :=
  match t with
  | Leaf => Leaf
  | Br l a v r =>
      if decide (a = n) then del_root l a v r
      else if decide (n ∈ locs l) then Br (remove_at n l) a v r
      else Br l a v (remove_at n r)
  end.

(** The heap after [Insert] has hung a new cell [z] holding [v] below
    [par], the last node its descent visited. *)
Definition attach h par z (v : Value) : gmap loc (Node Value) :=
  let h1 := <[z := mkNode v par None None less]> h in
  match par with
  | None => h1
  | Some pa =>
      match h !! pa with
      | Some pn =>
          <[pa := if less v (n_val pn) then set_left pn (Some z)
                  else set_right pn (Some z)]> h1
      | None => h1
      end
  end.

(** [transplant u v] on the cell of [u]'s parent: the child pointer that
    held [u] now holds [v]. *)
Definition redirect (pn : Node Value) (u v : ptr) : Node Value :=
  if decide (u = n_left pn) then set_left pn v else set_right pn v.

(** The [Tree] struct after a node below [par] was replaced by [q] and one
    node was taken out. *)
Definition tree_after (T : Tree Value) (par q : ptr) : Tree Value :=
  mkTree (match par with None => q | Some _ => t_root T end)
    (int_sub (t_size T) 1) (t_lessFn T).

(** The nodes a descent for [v] visits, in order. *)
Fixpoint path_abs (t : btree) (v : Value) : list loc :=
  match t with
  | Leaf => []
  | Br l a x r =>
      a :: (if less v x then path_abs l v
            else if less x v then path_abs r v
            else [])
  end.

(** A tree that only ever branches to the right. *)
Fixpoint right_chain (t : btree) : Prop :=
  match t with
  | Leaf => True
  | Br l _ _ r => l = Leaf ∧ right_chain r
  end.

(** The value stored at address [a] of the tree. *)
Fixpoint val_of (t : btree) (a : loc) : option Value :=
  match t with
  | Leaf => None
  | Br l c x r =>
      if decide (a = c) then Some x
      else match val_of l a with
           | Some y => Some y
           | None => val_of r a
           end
  end.

Fixpoint height_abs (t : btree) : Z :=
  match t with
  | Leaf => 0
  | Br l _ _ r => int_add 1 (maxInt (height_abs l) (height_abs r))
  end.

End Invariants.

End Spec.

(** * A tree of integers

    The trees of the package's tests hold integers under [<]; the one
    below has a node with two children whose successor lies deeper than its
    right child (5, with successor 6 below 8). *)

Definition ex_empty : state Z := mkState ∅ (New Z.ltb).

Definition state_of {A : Type} (r : result (A * state Z)) : state Z :=
  match r with
  | Ok (_, s) => s
  | _ => ex_empty
  end.

Definition ex_vs : list Z := [5; 2; 8; 6; 9; 7; 1].

Definition ex_state : state Z :=
  Eval vm_compute in state_of (Init ex_vs ex_empty).

(** The same values, inserted by [RandInit] with the draws [i / 2]. *)
Definition ex_rnd (i : nat) : nat := (i / 2)%nat.

(** * Proofs *)

Section Proofs.

Context {Value : Type} (less : Value -> Value -> bool).
Implicit Types (h : gmap loc (Node Value)) (p par : ptr) (a b c z : loc).
Implicit Types (t l r : @btree Value) (v x : Value).

Ltac unfold_result :=
  unfold mbind, result_bind, mret, result_ret, fmap, result_fmap.

(** ** Membership in in-order lists *)

Lemma elem_head {A : Type} (y : A) (k : list A) : y ∈ y :: k.
Proof. by left. Qed.

Lemma elem_tail {A : Type} (y y' : A) (k : list A) : y ∈ k -> y ∈ y' :: k.
Proof. by right. Qed.

Lemma elem_mid {A : Type} (y : A) (k1 k2 : list A) : y ∈ k1 ++ y :: k2.
Proof. apply elem_of_app. right. by left. Qed.

Lemma elem_app_l {A : Type} (y : A) (k1 k2 : list A) :
  y ∈ k1 -> y ∈ k1 ++ k2.
Proof. intros. apply elem_of_app. by left. Qed.

Lemma elem_app_r {A : Type} (y : A) (k1 k2 : list A) :
  y ∈ k2 -> y ∈ k1 ++ k2.
Proof. intros. apply elem_of_app. by right. Qed.

Ltac in_list :=
  solve [eauto 6 using elem_head, elem_tail, elem_mid, elem_app_l, elem_app_r].

(** Membership and non-membership goals, cheaply where that works. *)
Ltac in_locs :=
  first
    [ in_list
    | solve [ let Hi := fresh in
              intros Hi;
              match goal with H : _ ∉ _ |- _ => apply H; in_list end ]
    | set_solver ].

(** ** Basic facts about [shape] *)

Lemma root_of_locs t a : root_of t = Some a -> a ∈ locs t.
Proof.
  destruct t as [|l c v r]; simpl; [done|].
  intros [= ->]. set_solver.
Qed.

Lemma root_of_None t : root_of t = None -> t = Leaf.
Proof. by destruct t. Qed.

Lemma leaf_or_not t : t = Leaf ∨ t ≠ Leaf.
Proof. destruct t; [by left|by right]. Qed.

Lemma vals_length t : length (vals t) = length (locs t).
Proof.
  induction t as [|l IHl a v r IHr]; simpl; [done|].
  rewrite !length_app. simpl. lia.
Qed.

Lemma depth_le_length t : (depth t <= length (locs t))%nat.
Proof.
  induction t as [|l IHl a v r IHr]; simpl; [done|].
  rewrite length_app. simpl. lia.
Qed.

Lemma val_of_in t a x : val_of t a = Some x -> a ∈ locs t.
Proof.
  induction t as [|l IHl c y r IHr]; [done|]. cbn [val_of locs].
  destruct (decide (a = c)) as [->|?]; [intros _; in_list|].
  destruct (val_of l a) eqn:E.
  { intros [= <-]. apply elem_app_l. by apply IHl. }
  intros Hv. apply elem_app_r, elem_tail. by apply IHr.
Qed.

Lemma val_of_not_in t a : a ∉ locs t -> val_of t a = None.
Proof.
  intros Hn. destruct (val_of t a) eqn:E; [|done].
  by apply val_of_in in E.
Qed.

Lemma val_of_vals t a x : val_of t a = Some x -> x ∈ vals t.
Proof.
  induction t as [|l IHl c y r IHr]; [done|]. cbn [val_of vals].
  destruct (decide (a = c)) as [->|?]; [intros [= <-]; in_list|].
  destruct (val_of l a) eqn:E.
  { intros [= <-]. apply elem_app_l. by apply IHl. }
  intros Hv. apply elem_app_r, elem_tail. by apply IHr.
Qed.

Lemma shape_frame h h' par t :
  shape less h par t ->
  (∀ a, a ∈ locs t -> h' !! a = h !! a) ->
  shape less h' par t.
Proof.
  revert par. induction t as [|l IHl a v r IHr]; simpl; [done|].
  intros par (Ha & Hl & Hr) Hag. split_and!.
  - rewrite Hag; [done|set_solver].
  - apply IHl; [done|]. intros b Hb. apply Hag. set_solver.
  - apply IHr; [done|]. intros b Hb. apply Hag. set_solver.
Qed.

Lemma shape_lookup h par t a :
  shape less h par t -> a ∈ locs t ->
  ∃ n, h !! a = Some n ∧ n_lessFn n = less.
Proof.
  revert par. induction t as [|l IHl c v r IHr]; simpl; intros par.
  - intros _ Ha. by apply elem_of_nil in Ha.
  - intros (Hc & Hl & Hr) Ha.
    apply elem_of_app in Ha as [Ha|Ha]; [by eapply IHl|].
    apply elem_of_cons in Ha as [->|Ha]; [|by eapply IHr].
    eexists. split; [done|done].
Qed.

Lemma locs_le_size h par t :
  shape less h par t -> NoDup (locs t) -> (length (locs t) <= size h)%nat.
Proof.
  intros Hs Hnd.
  assert (Hsub : list_to_set (C := gset loc) (locs t) ⊆ dom h).
  { intros a Ha. apply elem_of_list_to_set in Ha.
    destruct (shape_lookup _ _ _ _ Hs Ha) as (n & Hn & _).
    apply elem_of_dom. eauto. }
  apply subseteq_size in Hsub.
  rewrite size_list_to_set in Hsub by done.
  by rewrite size_dom in Hsub.
Qed.

Lemma depth_le_size h par t :
  shape less h par t -> NoDup (locs t) -> (depth t <= size h)%nat.
Proof.
  intros Hs Hnd. pose proof (depth_le_length t).
  pose proof (locs_le_size _ _ _ Hs Hnd). lia.
Qed.

(** Changing the parent pointer of the root cell. *)
Lemma shape_reparent h par par' t a n :
  shape less h par t -> NoDup (locs t) ->
  root_of t = Some a -> h !! a = Some n ->
  shape less (<[a := set_parent n par']> h) par' t.
Proof.
  destruct t as [|l c v r]; simpl; [done|].
  intros (Hc & Hl & Hr) Hnd [= ->] Hn.
  rewrite Hc in Hn. injection Hn as <-.
  apply NoDup_app in Hnd as (Hndl & Hlr & Hndr).
  apply NoDup_cons in Hndr as (Har & Hndr).
  split_and!.
  - by rewrite lookup_insert_eq.
  - eapply shape_frame; [done|]. intros b Hb.
    rewrite lookup_insert_ne; [done|]. intros ->. apply (Hlr b Hb). set_solver.
  - eapply shape_frame; [done|]. intros b Hb.
    rewrite lookup_insert_ne; [done|]. by intros ->.
Qed.

(** ** Find *)

Lemma find_loop_shape h par t v (f : nat) :
  shape less h par t -> (depth t <= f)%nat ->
  find_loop f h (root_of t) v = Ok (find_abs less t v).
Proof.
  revert par f. induction t as [|l IHl a x r IHr]; intros par f; simpl.
  - by destruct f.
  - intros (Ha & Hl & Hr) Hd. destruct f as [|f]; [lia|]. simpl.
    rewrite Ha. unfold_result. simpl.
    destruct (less v x); [eapply IHl; [done|lia]|].
    destruct (less x v); [eapply IHr; [done|lia]|]. done.
Qed.

(** ** Reachability and the in-order walk *)

Lemma reach_locs h par t a :
  shape less h par t -> reach h (root_of t) a -> a ∈ locs t.
Proof.
  intros Hs Hr. remember (root_of t) as p eqn:Hp.
  revert t par Hs Hp.
  induction Hr as [a n Hn|a n b Hn Hr IH|a n b Hn Hr IH]; intros t par Hs Hp.
  - by apply root_of_locs.
  - destruct t as [|l c v r]; [done|]. simpl in *. injection Hp as ->.
    destruct Hs as (Hc & Hl & _). rewrite Hc in Hn. injection Hn as <-.
    simpl in *. apply elem_of_app. left. by eapply IH.
  - destruct t as [|l c v r]; [done|]. simpl in *. injection Hp as ->.
    destruct Hs as (Hc & _ & Hr'). rewrite Hc in Hn. injection Hn as <-.
    simpl in *. apply elem_of_app. right. apply elem_of_cons. right.
    by eapply IH.
Qed.

Lemma locs_reach h par t a :
  shape less h par t -> a ∈ locs t -> reach h (root_of t) a.
Proof.
  revert par. induction t as [|l IHl c v r IHr]; simpl; intros par.
  - intros _ Ha. by apply elem_of_nil in Ha.
  - intros (Hc & Hl & Hr) Ha.
    apply elem_of_app in Ha as [Ha|Ha].
    { eapply reach_left; [done|]. simpl. by eapply IHl. }
    apply elem_of_cons in Ha as [->|Ha].
    { by eapply reach_here. }
    eapply reach_right; [done|]. simpl. by eapply IHr.
Qed.

Lemma nodes_rec_shape h par t (f : nat) :
  shape less h par t -> (depth t <= f)%nat ->
  nodes_rec f h (root_of t) = Ok (locs t).
Proof.
  revert par f. induction t as [|l IHl a x r IHr]; intros par f; simpl.
  - by destruct f.
  - intros (Ha & Hl & Hr) Hd. destruct f as [|f]; [lia|]. simpl.
    rewrite Ha. unfold_result. simpl.
    rewrite (IHl (Some a)) by (done || lia).
    by rewrite (IHr (Some a)) by (done || lia).
Qed.

Lemma nodes_shape h par t :
  shape less h par t -> NoDup (locs t) ->
  nodes h (root_of t) = Ok (locs t).
Proof.
  intros Hs Hnd. eapply nodes_rec_shape; [done|]. by eapply depth_le_size.
Qed.

Lemma vals_at_app h (l1 l2 : list loc) (v1 v2 : list Value) :
  vals_at h l1 = Ok v1 -> vals_at h l2 = Ok v2 ->
  vals_at h (l1 ++ l2) = Ok (v1 ++ v2).
Proof.
  revert v1. induction l1 as [|a l1 IH]; simpl; intros v1.
  - by intros [= <-].
  - unfold_result. destruct (h !! a) as [n|]; [|done].
    destruct (vals_at h l1) as [w| |] eqn:E; try done.
    intros [= <-] H2. by rewrite (IH w eq_refl H2).
Qed.

Lemma vals_at_shape h par t :
  shape less h par t -> vals_at h (locs t) = Ok (vals t).
Proof.
  revert par. induction t as [|l IHl a x r IHr]; intros par; simpl; [done|].
  intros (Ha & Hl & Hr).
  apply vals_at_app; [by eapply IHl|].
  simpl. rewrite Ha. unfold_result. by rewrite (IHr _ Hr).
Qed.

Lemma inorder_shape h par t :
  shape less h par t -> NoDup (locs t) ->
  inorder h (root_of t) = Ok (vals t).
Proof.
  intros Hs Hnd. unfold inorder. rewrite (nodes_shape _ _ _ Hs Hnd).
  unfold_result. by eapply vals_at_shape.
Qed.

Lemma shape_val_in h par t a n :
  shape less h par t -> a ∈ locs t -> h !! a = Some n -> n_val n ∈ vals t.
Proof.
  revert par. induction t as [|l IHl c v r IHr]; simpl; intros par.
  - intros _ Ha. by apply elem_of_nil in Ha.
  - intros (Hc & Hl & Hr) Ha Hn.
    apply elem_of_app in Ha as [Ha|Ha].
    { apply elem_of_app. left. by eapply IHl. }
    apply elem_of_app. right. apply elem_of_cons.
    apply elem_of_cons in Ha as [->|Ha].
    { left. rewrite Hc in Hn. by injection Hn as <-. }
    right. by eapply IHr.
Qed.

Lemma val_in_shape h par t v :
  shape less h par t -> v ∈ vals t ->
  ∃ a n, a ∈ locs t ∧ h !! a = Some n ∧ n_val n = v.
Proof.
  revert par. induction t as [|l IHl c x r IHr]; simpl; intros par.
  - intros _ Hv. by apply elem_of_nil in Hv.
  - intros (Hc & Hl & Hr) Hv.
    apply elem_of_app in Hv as [Hv|Hv].
    { destruct (IHl _ Hl Hv) as (a & n & ? & ? & ?).
      exists a, n. split_and!; [set_solver|done|done]. }
    apply elem_of_cons in Hv as [->|Hv].
    { eexists c, _. split_and!; [set_solver|done|done]. }
    destruct (IHr _ Hr Hv) as (a & n & ? & ? & ?).
    exists a, n. split_and!; [set_solver|done|done].
Qed.

(** ** The invariant of the representation gives the three invariants on
    the heap *)

Lemma shape_bst_heap h par t :
  shape less h par t -> bst less t -> bst_heap less h (root_of t).
Proof.
  revert par. induction t as [|l IHl c v r IHr]; simpl; intros par.
  - intros _ _ a n Hr. inversion Hr.
  - intros (Hc & Hl & Hr) (Hbl & Hbr & Hlt & Hgt) a n Hreach Hn.
    assert (Hs : shape less h par (Br l c v r)) by (simpl; done).
    apply (reach_locs _ _ _ _ Hs) in Hreach. simpl in Hreach.
    apply elem_of_app in Hreach as [Ha|Ha].
    { eapply (IHl _ Hl Hbl); [|done]. by eapply locs_reach. }
    apply elem_of_cons in Ha as [->|Ha].
    { rewrite Hc in Hn. injection Hn as <-. simpl. split.
      - intros b m Hb Hm. apply (reach_locs _ _ _ _ Hl) in Hb.
        pose proof (shape_val_in _ _ _ _ _ Hl Hb Hm) as Hin.
        by apply (proj1 (Forall_forall _ _) Hlt).
      - intros b m Hb Hm. apply (reach_locs _ _ _ _ Hr) in Hb.
        pose proof (shape_val_in _ _ _ _ _ Hr Hb Hm) as Hin.
        by apply (proj1 (Forall_forall _ _) Hgt). }
    eapply (IHr _ Hr Hbr); [|done]. by eapply locs_reach.
Qed.

Lemma shape_children h par t a n :
  shape less h par t -> a ∈ locs t -> h !! a = Some n ->
  (∀ c, n_left n = Some c -> ∃ m, h !! c = Some m ∧ n_parent m = Some a) ∧
  (∀ c, n_right n = Some c -> ∃ m, h !! c = Some m ∧ n_parent m = Some a).
Proof.
  revert par. induction t as [|l IHl c v r IHr]; simpl; intros par.
  - intros _ Ha. by apply elem_of_nil in Ha.
  - intros (Hc & Hl & Hr) Ha Hn.
    apply elem_of_app in Ha as [Ha|Ha]; [by eapply IHl|].
    apply elem_of_cons in Ha as [->|Ha]; [|by eapply IHr].
    rewrite Hc in Hn. injection Hn as <-. simpl. split.
    + intros d Hd. destruct l as [|ll la lv lr]; [done|].
      simpl in *. injection Hd as ->. destruct Hl as (Hla & _).
      eexists. split; [done|done].
    + intros d Hd. destruct r as [|rl ra rv rr]; [done|].
      simpl in *. injection Hd as ->. destruct Hr as (Hra & _).
      eexists. split; [done|done].
Qed.

Lemma shape_parent_heap h t :
  shape less h None t -> parent_heap h (root_of t).
Proof.
  intros Hs. split.
  - intros a n Ha Hn. destruct t as [|l c v r]; [done|].
    simpl in *. injection Ha as ->. destruct Hs as (Hc & _).
    rewrite Hc in Hn. by injection Hn as <-.
  - intros a n Hr Hn. eapply shape_children; [done| |done].
    by eapply reach_locs.
Qed.

Lemma int_wrap_small (k : Z) : int_min <= k <= int_max -> int_wrap k = k.
Proof.
  unfold int_wrap, int_min, int_max. intros Hz.
  rewrite Z.mod_small; lia.
Qed.

Lemma tree_repr_size_heap s t : tree_repr less s t -> size_heap s.
Proof.
  intros (Hless & Hroot & Hs & Hnd & Hb & Hsz).
  exists (locs t). rewrite Hroot. split_and!.
  - by eapply nodes_shape.
  - done.
  - intros a. split; [by eapply locs_reach|by eapply reach_locs].
  - done.
  - intros Hle. rewrite Hsz. apply int_wrap_small.
    unfold int_min. lia.
Qed.

(** ** Arithmetic of [int] *)

Lemma int_wrap_add_l (k m : Z) : int_wrap (int_wrap k + m) = int_wrap (k + m).
Proof.
  unfold int_wrap.
  replace ((k + 2 ^ 63) mod 2 ^ 64 - 2 ^ 63 + m + 2 ^ 63)
    with ((k + 2 ^ 63) mod 2 ^ 64 + m) by lia.
  rewrite Zplus_mod_idemp_l. do 2 f_equal. lia.
Qed.

(** ** Insert *)

Lemma insert_loop_shape h par t v (n0 : ptr) (f : nat) :
  shape less h par t -> (depth t <= f)%nat ->
  insert_loop f less h v (root_of t) n0 = Ok (descend_abs less t v n0).
Proof.
  revert par f n0. induction t as [|l IHl a x r IHr]; intros par f n0; simpl.
  - by destruct f.
  - intros (Ha & Hl & Hr) Hd. destruct f as [|f]; [lia|]. simpl.
    rewrite Ha. unfold_result. simpl.
    destruct (less v x); [eapply IHl; [done|lia]|].
    destruct (less x v); [eapply IHr; [done|lia]|]. done.
Qed.

Lemma descend_abs_found t v (n0 : ptr) (q : ptr) :
  descend_abs less t v n0 = Found q -> find_abs less t v = q ∧ q ≠ None.
Proof.
  revert n0. induction t as [|l IHl a x r IHr]; intros n0; simpl; [done|].
  destruct (less v x); [by apply IHl|].
  destruct (less x v); [by apply IHr|].
  by intros [= <-].
Qed.

Lemma descend_abs_fell t v (n0 : ptr) (q : ptr) :
  descend_abs less t v n0 = Fell q -> find_abs less t v = None.
Proof.
  revert n0. induction t as [|l IHl a x r IHr]; intros n0; simpl; [done|].
  destruct (less v x); [by apply IHl|].
  destruct (less x v); [by apply IHr|]. done.
Qed.

Lemma find_abs_descend t v (n0 : ptr) :
  match find_abs less t v with
  | Some a => descend_abs less t v n0 = Found (Some a)
  | None => ∃ q, descend_abs less t v n0 = Fell q
  end.
Proof.
  revert n0. induction t as [|l IHl a x r IHr]; intros n0; simpl; [by eexists|].
  destruct (less v x); [by apply IHl|].
  destruct (less x v); [by apply IHr|]. done.
Qed.

Lemma root_of_ins z v t : t ≠ Leaf -> root_of (ins less z v t) = root_of t.
Proof.
  destruct t as [|l a x r]; [done|]. intros _. simpl.
  destruct (less v x); [done|]. by destruct (less x v).
Qed.

Lemma descend_abs_leaf_root t v :
  descend_abs less t v None = Fell None -> t = Leaf.
Proof.
  destruct t as [|l a x r]; [done|]. simpl.
  assert (∀ t' c, descend_abs less t' v (Some c) ≠ Fell None) as Hno.
  { induction t' as [|l' IHl' a' x' r' IHr']; intros c; simpl; [done|].
    destruct (less v x'); [apply IHl'|].
    destruct (less x' v); [apply IHr'|]. done. }
  destruct (less v x); [intros H; by apply Hno in H|].
  destruct (less x v); [intros H; by apply Hno in H|]. done.
Qed.

Lemma ins_attach h z v t par (n0 : ptr) (na : loc) :
  shape less h par t -> NoDup (locs t) -> h !! z = None ->
  descend_abs less t v n0 = Fell (Some na) -> t ≠ Leaf ->
  ∃ nn, h !! na = Some nn ∧ na ∈ locs t ∧
    shape less
      (<[na := if less v (n_val nn) then set_left nn (Some z)
               else set_right nn (Some z)]>
         (<[z := mkNode v (Some na) None None less]> h))
      par (ins less z v t).
Proof.
  revert par n0. induction t as [|l IHl a x r IHr]; intros par n0; [done|].
  simpl. intros (Ha & Hl & Hr) Hnd Hz Hd _.
  apply NoDup_app in Hnd as (Hndl & Hlr & Hndr).
  apply NoDup_cons in Hndr as (Har & Hndr).
  assert (Hal : a ∉ locs l) by (intros Hin; apply (Hlr a Hin); set_solver).
  assert (Hza : z ≠ a) by (intros ->; congruence).
  assert (Hzin : ∀ t' par' b, shape less h par' t' -> b ∈ locs t' -> z ≠ b).
  { intros t' par' b Hs' Hin ->.
    destruct (shape_lookup _ _ _ _ Hs' Hin) as (? & ? & _). congruence. }
  assert (Hfl : ∀ b, b ∈ locs l -> b ≠ a) by (by intros b Hb ->).
  assert (Hfr : ∀ b, b ∈ locs r -> b ≠ a) by (by intros b Hb ->).
  destruct (less v x) eqn:Hvx.
  - destruct (leaf_or_not l) as [->|Hne].
    + simpl in Hd. injection Hd as <-. eexists. split; [done|].
      split; [set_solver|]. simpl. rewrite Hvx. simpl. split_and!.
      * by rewrite lookup_insert_eq.
      * rewrite lookup_insert_ne by done. by rewrite lookup_insert_eq.
      * done.
      * done.
      * eapply shape_frame; [done|]. intros b Hb.
        pose proof (Hfr b Hb). pose proof (Hzin _ _ _ Hr Hb).
        by rewrite !lookup_insert_ne by done.
    + destruct (IHl _ _ Hl Hndl Hz Hd Hne) as (nn & Hnn & Hin & Hs).
      exists nn. split; [done|]. split; [set_solver|]. simpl.
      rewrite root_of_ins by done. split_and!.
      * pose proof (Hfl na Hin). by rewrite !lookup_insert_ne by done.
      * done.
      * eapply shape_frame; [done|]. intros b Hb.
        pose proof (Hzin _ _ _ Hr Hb).
        assert (na ≠ b) by (intros ->; apply (Hlr b Hin); set_solver).
        by rewrite !lookup_insert_ne by done.
  - destruct (less x v) eqn:Hxv; [|done].
    destruct (leaf_or_not r) as [->|Hne].
    + simpl in Hd. injection Hd as <-. eexists. split; [done|].
      split; [set_solver|]. simpl. rewrite Hvx. simpl. split_and!.
      * by rewrite lookup_insert_eq.
      * eapply shape_frame; [done|]. intros b Hb.
        pose proof (Hfl b Hb). pose proof (Hzin _ _ _ Hl Hb).
        by rewrite !lookup_insert_ne by done.
      * rewrite lookup_insert_ne by done. by rewrite lookup_insert_eq.
      * done.
      * done.
    + destruct (IHr _ _ Hr Hndr Hz Hd Hne) as (nn & Hnn & Hin & Hs).
      exists nn. split; [done|]. split; [set_solver|]. simpl.
      rewrite root_of_ins by done. split_and!.
      * pose proof (Hfr na Hin). by rewrite !lookup_insert_ne by done.
      * eapply shape_frame; [done|]. intros b Hb.
        pose proof (Hzin _ _ _ Hl Hb).
        assert (na ≠ b) by (intros ->; apply (Hlr b Hb); set_solver).
        by rewrite !lookup_insert_ne by done.
      * done.
Qed.

Lemma ins_found z v t : find_abs less t v ≠ None -> ins less z v t = t.
Proof.
  induction t as [|l IHl a x r IHr]; simpl; [done|].
  destruct (less v x); [intros H; by rewrite IHl|].
  destruct (less x v); [intros H; by rewrite IHr|]. done.
Qed.

Lemma locs_ins_perm z v t :
  find_abs less t v = None -> locs (ins less z v t) ≡ₚ z :: locs t.
Proof.
  induction t as [|l IHl a x r IHr]; simpl; [done|].
  destruct (less v x).
  { intros H. simpl. by rewrite (IHl H). }
  destruct (less x v); [|done].
  intros H. simpl. rewrite (IHr H). rewrite <- !Permutation_middle.
  apply Permutation_swap.
Qed.

Lemma vals_ins_perm z v t :
  find_abs less t v = None -> vals (ins less z v t) ≡ₚ v :: vals t.
Proof.
  induction t as [|l IHl a x r IHr]; simpl; [done|].
  destruct (less v x).
  { intros H. simpl. by rewrite (IHl H). }
  destruct (less x v); [|done].
  intros H. simpl. rewrite (IHr H). rewrite <- !Permutation_middle.
  apply Permutation_swap.
Qed.

Lemma vals_ins_elem z v t y :
  y ∈ vals (ins less z v t) -> y = v ∨ y ∈ vals t.
Proof.
  destruct (find_abs less t v) eqn:E.
  - rewrite ins_found; [by right|congruence].
  - rewrite (vals_ins_perm z _ _ E). by intros [->|?]%elem_of_cons; [left|right].
Qed.

Lemma bst_ins z v t : bst less t -> bst less (ins less z v t).
Proof.
  induction t as [|l IHl a x r IHr]; simpl.
  - intros _. by split_and!.
  - intros (Hl & Hr & Hlt & Hgt).
    destruct (less v x) eqn:Hvx; simpl.
    { split_and!; [by apply IHl|done| |done].
      apply Forall_forall. intros y [->|Hy]%vals_ins_elem; [done|].
      by apply (proj1 (Forall_forall _ _) Hlt). }
    destruct (less x v) eqn:Hxv; simpl; [|done].
    split_and!; [done|by apply IHr|done|].
    apply Forall_forall. intros y [->|Hy]%vals_ins_elem; [done|].
    by apply (proj1 (Forall_forall _ _) Hgt).
Qed.

Lemma descend_abs_last t v (n0 q : ptr) :
  descend_abs less t v n0 = Fell q ->
  q = match last (path_abs less t v) with Some a => Some a | None => n0 end.
Proof.
  revert n0. induction t as [|l IHl a x r IHr]; intros n0; simpl.
  - by intros [= <-].
  - destruct (less v x).
    { intros H. rewrite (IHl _ H). rewrite last_cons.
      by destruct (last (path_abs less l v)). }
    destruct (less x v); [|done].
    intros H. rewrite (IHr _ H). rewrite last_cons.
    by destruct (last (path_abs less r v)).
Qed.

Ltac unfold_M :=
  unfold mbind, M_bind, mret, M_ret, get_tree, deref, lift, store, set_root,
    set_size, alloc, panic, load; simpl.

Lemma Insert_found s t v a :
  tree_repr less s t -> find_abs less t v = Some a ->
  Insert v s = Ok (Some a, s).
Proof.
  intros (Hless & Hroot & Hs & Hnd & Hb & Hsz) Hf.
  unfold Insert. unfold_M. rewrite Hless, Hroot.
  rewrite (insert_loop_shape _ None t) by (done || by eapply depth_le_size).
  pose proof (find_abs_descend t v None) as Hd. rewrite Hf in Hd.
  by rewrite Hd.
Qed.

Lemma Insert_fresh s t v :
  tree_repr less s t -> find_abs less t v = None ->
  ∃ par, descend_abs less t v None = Fell par ∧
    let z := fresh (dom (heap s)) in
    heap s !! z = None ∧
    (∀ pa, par = Some pa -> pa ∈ locs t) ∧
    (par = None -> t = Leaf) ∧
    Insert v s =
      Ok (Some z,
          mkState (attach less (heap s) par z v)
            (mkTree (match par with None => Some z | Some _ => t_root (tree s) end)
               (int_add (t_size (tree s)) 1) less)) ∧
    shape less (attach less (heap s) par z v) None (ins less z v t).
Proof.
  intros (Hless & Hroot & Hs & Hnd & Hb & Hsz) Hf.
  pose proof (find_abs_descend t v None) as Hd. rewrite Hf in Hd.
  destruct Hd as (par & Hd). exists par. split; [done|].
  set (z := fresh (dom (heap s))). simpl.
  assert (Hz : heap s !! z = None).
  { apply not_elem_of_dom. apply is_fresh. }
  split; [done|].
  unfold Insert. unfold_M. rewrite Hless, Hroot.
  rewrite (insert_loop_shape _ None t) by (done || by eapply depth_le_size).
  rewrite Hd. fold z.
  destruct par as [pa|].
  - assert (Hne : t ≠ Leaf) by (intros ->; simpl in Hd; congruence).
    destruct (ins_attach _ z v _ _ _ _ Hs Hnd Hz Hd Hne)
      as (nn & Hnn & Hin & Hsh).
    split; [by intros ? [= <-]|]. split; [done|].
    unfold attach. rewrite Hnn. split; [|done].
    assert (z ≠ pa) by (intros ->; congruence).
    cbn [heap tree]. rewrite lookup_insert_ne by done. rewrite Hnn.
    destruct (less v (n_val nn)); cbn [heap tree].
    + rewrite lookup_insert_ne by done. rewrite Hnn.
      cbn [heap tree t_root t_size t_lessFn]. by rewrite ?Hroot, ?Hless.
    + rewrite lookup_insert_ne by done. rewrite Hnn.
      cbn [heap tree t_root t_size t_lessFn]. by rewrite ?Hroot, ?Hless.
  - apply descend_abs_leaf_root in Hd as ->.
    split; [done|]. split; [done|]. split.
    + cbn [heap tree t_root t_size t_lessFn attach]. by rewrite ?Hless.
    + simpl. by rewrite lookup_insert_eq.
Qed.

Lemma Insert_repr s t v :
  tree_repr less s t ->
  ∃ p s', Insert v s = Ok (p, s') ∧
    tree_repr less s' (ins less (fresh (dom (heap s))) v t).
Proof.
  intros Hrep. destruct (find_abs less t v) as [a|] eqn:Hf.
  - exists (Some a), s. split; [by eapply Insert_found|].
    rewrite ins_found by congruence. done.
  - destruct (Insert_fresh _ _ _ Hrep Hf)
      as (par & Hd & Hz & Hpar & Hleaf & Hrun & Hsh).
    destruct Hrep as (Hless & Hroot & Hs & Hnd & Hb & Hsz).
    eexists _, _. split; [exact Hrun|].
    split_and!; cbn [heap tree t_root t_size t_lessFn].
    + done.
    + destruct par as [pa|].
      * rewrite root_of_ins; [done|]. intros ->.
        specialize (Hpar pa eq_refl). by apply elem_of_nil in Hpar.
      * by rewrite (Hleaf eq_refl).
    + done.
    + rewrite (locs_ins_perm _ _ _ Hf). apply NoDup_cons. split; [|done].
      intros Hin. destruct (shape_lookup _ _ _ _ Hs Hin) as (? & ? & _).
      congruence.
    + by apply bst_ins.
    + rewrite Hsz. unfold int_add. rewrite int_wrap_add_l.
      rewrite (locs_ins_perm _ _ _ Hf). simpl length. f_equal. lia.
Qed.

(** ** Running the pointer surgery *)

Lemma bind_run {A B : Type} (m : M Value A) (f : A -> M Value B) s (y : A) s' :
  m s = Ok (y, s') -> (m ≫= f) s = f y s'.
Proof. unfold mbind, M_bind. by intros ->. Qed.

Lemma deref_run h T a n :
  h !! a = Some n -> deref (Some a) (mkState h T) = Ok (n, mkState h T).
Proof. unfold deref, lift, load. simpl. by intros ->. Qed.

Lemma store_run h T a n (f : Node Value -> Node Value) :
  h !! a = Some n ->
  store (Some a) f (mkState h T) = Ok (tt, mkState (<[a := f n]> h) T).
Proof. unfold store. simpl. by intros ->. Qed.

Lemma transplant_run h (T : Tree Value) (u : loc) un (q : ptr) :
  h !! u = Some un ->
  (∀ pa, n_parent un = Some pa -> pa ≠ u ∧ is_Some (h !! pa)) ->
  (∀ va, q = Some va -> is_Some (h !! va) ∧ Some va ≠ n_parent un) ->
  ∃ h', transplant (Some u) q (mkState h T) =
          Ok (tt, mkState h'
                    (mkTree (match n_parent un with
                             | None => q
                             | Some _ => t_root T
                             end) (t_size T) (t_lessFn T))) ∧
    (∀ b, Some b ≠ n_parent un -> Some b ≠ q -> h' !! b = h !! b) ∧
    (∀ pa pn, n_parent un = Some pa -> h !! pa = Some pn ->
       h' !! pa = Some (redirect pn (Some u) q)) ∧
    (∀ va vn, q = Some va -> h !! va = Some vn ->
       h' !! va = Some (set_parent vn (n_parent un))).
Proof.
  intros Hu Hpar Hv. unfold transplant. destruct T as [rt sz lf]. simpl.
  rewrite (bind_run _ _ _ _ _ (deref_run _ _ _ _ Hu)).
  destruct (n_parent un) as [pa|] eqn:Hp.
  - destruct (Hpar pa eq_refl) as (Hne & pn & Hpn).
    rewrite (bind_run (deref (Some pa) ≫= _) _ _ tt
               (mkState (<[pa := redirect pn (Some u) q]> h) (mkTree rt sz lf))).
    2:{ rewrite (bind_run _ _ _ _ _ (deref_run _ _ _ _ Hpn)).
        unfold redirect. destruct (decide (Some u = n_left pn));
          by rewrite (store_run _ _ _ _ _ Hpn). }
    destruct q as [va|].
    + destruct (Hv va eq_refl) as ((vn & Hvn) & Hva).
      assert (pa ≠ va) by congruence.
      assert (Hu' : <[pa := redirect pn (Some u) (Some va)]> h !! u = Some un)
        by (by rewrite lookup_insert_ne).
      rewrite (bind_run _ _ _ _ _ (deref_run _ _ _ _ Hu')).
      assert (Hvn' : <[pa := redirect pn (Some u) (Some va)]> h !! va = Some vn)
        by (by rewrite lookup_insert_ne).
      rewrite (store_run _ _ _ _ _ Hvn'). rewrite Hp.
      eexists. split; [done|]. split_and!.
      * intros b Hb1 Hb2. rewrite !lookup_insert_ne by congruence. done.
      * intros ? ? [= <-] Hpn'. rewrite Hpn in Hpn'. injection Hpn' as <-.
        rewrite lookup_insert_ne by congruence. by rewrite lookup_insert_eq.
      * intros ? ? [= <-] Hvn2. rewrite Hvn in Hvn2. injection Hvn2 as <-.
        by rewrite lookup_insert_eq.
    + eexists. split; [done|]. split_and!.
      * intros b Hb1 Hb2. rewrite !lookup_insert_ne by congruence. done.
      * intros ? ? [= <-] Hpn'. rewrite Hpn in Hpn'. injection Hpn' as <-.
        by rewrite lookup_insert_eq.
      * done.
  - rewrite (bind_run (set_root q) _ _ tt
               (mkState h (mkTree q sz lf))) by done.
    destruct q as [va|].
    + destruct (Hv va eq_refl) as ((vn & Hvn) & Hva).
      rewrite (bind_run _ _ _ _ _ (deref_run _ _ _ _ Hu)).
      rewrite (store_run _ _ _ _ _ Hvn). rewrite Hp.
      eexists. split; [done|]. split_and!.
      * intros b Hb1 Hb2. rewrite !lookup_insert_ne by congruence. done.
      * done.
      * intros ? ? [= <-] Hvn2. rewrite Hvn in Hvn2. injection Hvn2 as <-.
        by rewrite lookup_insert_eq.
    + eexists. split; [done|]. split_and!; done.
Qed.

(** A subtree whose cells are unchanged but for the parent pointer of its
    root. *)
Lemma shape_reparent_frame h h' par par' t :
  shape less h par t -> NoDup (locs t) ->
  (∀ a n, root_of t = Some a -> h !! a = Some n ->
     h' !! a = Some (set_parent n par')) ->
  (∀ b, b ∈ locs t -> Some b ≠ root_of t -> h' !! b = h !! b) ->
  shape less h' par' t.
Proof.
  destruct t as [|l c v r]; simpl; [done|].
  intros (Hc & Hl & Hr) Hnd Hroot Hfr.
  apply NoDup_app in Hnd as (Hndl & Hlr & Hndr).
  apply NoDup_cons in Hndr as (Har & Hndr).
  split_and!.
  - by rewrite (Hroot c _ eq_refl Hc).
  - eapply shape_frame; [done|]. intros b Hb. apply Hfr; [set_solver|].
    intros [= ->]. apply (Hlr c Hb). set_solver.
  - eapply shape_frame; [done|]. intros b Hb. apply Hfr; [set_solver|].
    by intros [= ->].
Qed.

(** [transplant n c] where [c] is a child of [n]: the subtree of [c] takes
    the place of [n]. *)
Lemma transplant_child h (T : Tree Value) (n : loc) nn tv :
  h !! n = Some nn -> shape less h (Some n) tv -> NoDup (locs tv) ->
  n ∉ locs tv ->
  (∀ pa, n_parent nn = Some pa ->
     pa ≠ n ∧ (pa ∉ locs tv) ∧ is_Some (h !! pa)) ->
  ∃ h', transplant (Some n) (root_of tv) (mkState h T) =
          Ok (tt, mkState h'
                    (mkTree (match n_parent nn with
                             | None => root_of tv
                             | Some _ => t_root T
                             end) (t_size T) (t_lessFn T))) ∧
    shape less h' (n_parent nn) tv ∧
    (∀ b, b ∉ locs tv -> Some b ≠ n_parent nn -> h' !! b = h !! b) ∧
    (∀ pa pn, n_parent nn = Some pa -> h !! pa = Some pn ->
       h' !! pa = Some (redirect pn (Some n) (root_of tv))).
Proof.
  intros Hn Hs Hnd Hnin Hpar.
  destruct (transplant_run h T n nn (root_of tv) Hn)
    as (h' & Hrun & Hfr & Hpa & Hva).
  { intros pa Hp. destruct (Hpar pa Hp) as (? & ? & ?). done. }
  { intros va Hva. pose proof (root_of_locs _ _ Hva) as Hin.
    split; [by destruct (shape_lookup _ _ _ _ Hs Hin) as (? & ? & _)|].
    intros Heq. symmetry in Heq. destruct (Hpar va Heq) as (_ & ? & _). done. }
  exists h'. split; [done|]. split_and!.
  - eapply shape_reparent_frame; [done|done| |].
    + intros a m Ha Hm. by eapply Hva.
    + intros b Hb Hne. apply Hfr; [|done].
      intros Heq. symmetry in Heq. destruct (Hpar b Heq) as (_ & ? & _). done.
  - intros b Hb Hne. apply Hfr; [done|].
    intros Heq. symmetry in Heq. by apply root_of_locs in Heq.
  - done.
Qed.

Lemma min_loop_shape h par l c x r (f : nat) :
  shape less h par (Br l c x r) -> (depth (Br l c x r) <= f)%nat ->
  min_loop f h c = Ok (leftmost l c).
Proof.
  revert par c x r f. induction l as [|ll IHll lc lx lr _]; intros par c x r f.
  - simpl. intros (Hc & _) Hd. destruct f as [|f]; [lia|]. simpl.
    rewrite Hc. by unfold_result.
  - intros (Hc & Hl & Hr) Hd. destruct f as [|f]; [simpl in Hd; lia|].
    cbn [min_loop load]. rewrite Hc. unfold_result. cbn [n_left root_of].
    cbn [leftmost]. eapply IHll; [done|]. cbn [depth] in *. lia.
Qed.

Lemma max_loop_shape h par l c x r (f : nat) :
  shape less h par (Br l c x r) -> (depth (Br l c x r) <= f)%nat ->
  max_loop f h c = Ok (rightmost r c).
Proof.
  revert par c x l f. induction r as [|rl _ rc rx rr IHrr]; intros par c x l f.
  - simpl. intros (Hc & _) Hd. destruct f as [|f]; [lia|]. simpl.
    rewrite Hc. by unfold_result.
  - intros (Hc & Hl & Hr) Hd. destruct f as [|f]; [simpl in Hd; lia|].
    cbn [max_loop load]. rewrite Hc. unfold_result. cbn [n_right root_of].
    cbn [rightmost]. eapply IHrr; [done|]. cbn [depth] in *. lia.
Qed.

Lemma root_of_drop_min l c x r :
  l ≠ Leaf -> root_of (drop_min (Br l c x r)) = Some c.
Proof. by destruct l. Qed.

Lemma locs_drop_min l c x r :
  locs (Br l c x r) = leftmost l c :: locs (drop_min (Br l c x r)).
Proof.
  revert c x r. induction l as [|ll IHll lc lx lr _]; intros c x r; [done|].
  change (drop_min (Br (Br ll lc lx lr) c x r))
    with (Br (drop_min (Br ll lc lx lr)) c x r).
  cbn [locs leftmost]. specialize (IHll lc lx lr). cbn [locs] in IHll.
  by rewrite IHll.
Qed.

Lemma vals_drop_min l c x r :
  vals (Br l c x r) = min_val l x :: vals (drop_min (Br l c x r)).
Proof.
  revert c x r. induction l as [|ll IHll lc lx lr _]; intros c x r; [done|].
  change (drop_min (Br (Br ll lc lx lr) c x r))
    with (Br (drop_min (Br ll lc lx lr)) c x r).
  cbn [vals min_val]. specialize (IHll lc lx lr). cbn [vals] in IHll.
  by rewrite IHll.
Qed.

(** [transplant s s.right] for the leftmost node [s] of a subtree, [s] not
    being the root of the subtree. *)
Lemma detach_min h (T : Tree Value) l :
  ∀ c x r par,
    l ≠ Leaf -> shape less h par (Br l c x r) ->
    NoDup (locs (Br l c x r)) ->
    ∃ (sp : loc) (sr : ptr),
      h !! leftmost l c = Some (mkNode (min_val l x) (Some sp) None sr less) ∧
      leftmost l c ∈ locs l ∧ sp ∈ locs (Br l c x r) ∧ sp ≠ leftmost l c ∧
      ∃ h', transplant (Some (leftmost l c)) sr (mkState h T) =
              Ok (tt, mkState h' T) ∧
        shape less h' par (drop_min (Br l c x r)) ∧
        (∀ b, b ∉ locs (Br l c x r) -> h' !! b = h !! b) ∧
        h' !! leftmost l c = h !! leftmost l c.
Proof.
  induction l as [|ll IHll lc lx lr _]; intros c x r par Hne; [done|].
  intros (Hc & Hl & Hr) Hnd. pose proof Hl as (Hlc & Hll & Hlr).
  cbn [locs] in Hnd.
  apply NoDup_app in Hnd as (Hndl & Hdisj & Hndr).
  apply NoDup_cons in Hndr as (Hcr & Hndr).
  assert (Hcl : c ∉ locs (Br ll lc lx lr))
    by (intros Hin; apply (Hdisj c Hin); in_locs).
  destruct (leaf_or_not ll) as [->|Hne'].
  - (* the left child is the leftmost node *)
    cbn [leftmost min_val]. exists c, (root_of lr). simpl in Hlc.
    cbn [locs app] in Hndl, Hcl.
    apply NoDup_cons in Hndl as (Hlclr & Hndlr).
    assert (Hclc : c ≠ lc) by in_locs.
    split; [done|]. split; [in_locs|]. split; [in_locs|].
    split; [done|].
    destruct (transplant_child h T lc _ lr Hlc Hlr Hndlr Hlclr)
      as (h' & Hrun & Hsh & Hfr & Hpa).
    { simpl. intros ? [= <-]. split_and!; [done|in_locs|by eexists]. }
    exists h'. simpl in Hrun, Hsh, Hfr, Hpa. split_and!.
    + rewrite Hrun. by destruct T.
    + simpl. split_and!.
      * rewrite (Hpa c _ eq_refl Hc). unfold redirect. simpl.
        by rewrite decide_True.
      * done.
      * eapply shape_frame; [done|]. intros b Hb. apply Hfr.
        -- intros Hin. apply (Hdisj b); in_locs.
        -- by intros [= ->].
    + intros b Hb. apply Hfr; [in_locs|]. intros [= ->]. in_locs.
    + apply Hfr; [done|]. by intros [= ->].
  - destruct (IHll lc lx lr (Some c) Hne' Hl Hndl)
      as (sp & sr & Hs & Hsin & Hspin & Hsps & h' & Hrun & Hsh & Hfr & Hsame).
    cbn [leftmost min_val]. exists sp, sr.
    split; [done|]. split; [cbn [locs]; in_locs|].
    split; [cbn [locs] in *; in_locs|]. split; [done|].
    exists h'. split; [done|]. split_and!.
    + change (drop_min (Br (Br ll lc lx lr) c x r))
        with (Br (drop_min (Br ll lc lx lr)) c x r).
      cbn [shape]. rewrite root_of_drop_min by done. split_and!.
      * by rewrite Hfr.
      * done.
      * eapply shape_frame; [done|]. intros b Hb. apply Hfr.
        intros Hin. apply (Hdisj b Hin). in_locs.
    + intros b Hb. apply Hfr. cbn [locs] in Hb. in_locs.
    + done.
Qed.

(** ** removeNode at the root of a subtree *)

Lemma set_size_run h (T : Tree Value) :
  (get_tree ≫= λ T0 : Tree Value, set_size (int_sub (t_size T0) 1))
    (mkState h T) =
  Ok (tt, mkState h (mkTree (t_root T) (int_sub (t_size T) 1) (t_lessFn T))).
Proof. done. Qed.

Lemma removeNode_one_child h (T : Tree Value) par n v l r :
  l = Leaf ∨ r = Leaf ->
  shape less h par (Br l n v r) -> NoDup (locs (Br l n v r)) ->
  (∀ pa, par = Some pa -> (pa ∉ locs (Br l n v r)) ∧ is_Some (h !! pa)) ->
  ∃ h', removeNode (Some n) (mkState h T) =
          Ok (tt, mkState h' (tree_after T par (root_of (del_root l n v r)))) ∧
    shape less h' par (del_root l n v r) ∧
    (∀ b, b ∉ locs (Br l n v r) -> Some b ≠ par -> h' !! b = h !! b) ∧
    (∀ pa pn, par = Some pa -> h !! pa = Some pn ->
       h' !! pa = Some (redirect pn (Some n) (root_of (del_root l n v r)))) ∧
    h' !! n = h !! n.
Proof.
  intros Hcase (Hn & Hl & Hr) Hnd Hpar. cbn [locs] in Hnd, Hpar.
  apply NoDup_app in Hnd as (Hndl & Hdisj & Hndr).
  apply NoDup_cons in Hndr as (Hnr & Hndr).
  assert (Hnl : n ∉ locs l) by (intros Hin; apply (Hdisj n Hin); in_locs).
  set (tv := del_root l n v r).
  assert (Htv : (tv = l ∨ tv = r) ∧
                root_of tv = (if decide (root_of l = None) then root_of r
                              else root_of l)).
  { unfold tv, del_root. destruct l; [by split; [right|]|].
    destruct Hcase as [?| ->]; [done|]. by split; [left|]. }
  destruct Htv as (Htv & Hroot).
  assert (Hstv : shape less h (Some n) tv) by (by destruct Htv as [-> | ->]).
  assert (Hndtv : NoDup (locs tv)) by (by destruct Htv as [-> | ->]).
  assert (Hntv : n ∉ locs tv) by (by destruct Htv as [-> | ->]).
  assert (Hsub : ∀ b, b ∈ locs tv -> b ∈ locs l ++ n :: locs r)
    by (destruct Htv as [-> | ->]; in_locs).
  destruct (transplant_child h T n _ tv Hn Hstv Hndtv Hntv)
    as (h' & Hrun & Hsh & Hfr & Hpa).
  { simpl. intros pa ->. destruct (Hpar pa eq_refl) as (Hpin & Hsome).
    split_and!; [in_locs| |done]. intros Hin. apply Hpin. by apply Hsub. }
  simpl in Hrun, Hsh, Hfr, Hpa.
  exists h'. split_and!; [|done| |done|].
  - unfold removeNode.
    rewrite (bind_run _ _ _ _ _ (deref_run _ _ _ _ Hn)). cbn [n_left n_right].
    rewrite Hroot in Hrun |- *.
    destruct (decide (root_of l = None)) as [Hl0|Hl0].
    + by rewrite (bind_run _ _ _ _ _ Hrun).
    + rewrite decide_True by (by destruct Hcase as [->| ->]).
      by rewrite (bind_run _ _ _ _ _ Hrun).
  - intros b Hb Hne. apply Hfr; [|done]. intros Hin. apply Hb.
    cbn [locs]. by apply Hsub.
  - apply Hfr; [done|]. intros Heq. symmetry in Heq.
    destruct (Hpar n Heq) as (Hp & _). apply Hp. in_locs.
Qed.

Lemma succ_run h (T : Tree Value) par l c x r :
  shape less h par (Br l c x r) -> NoDup (locs (Br l c x r)) ->
  lift (λ h0, Some <$> min_loop (size h0) h0 c) (mkState h T) =
  Ok (Some (leftmost l c), mkState h T).
Proof.
  intros Hs Hnd. unfold lift. cbn [heap].
  rewrite (min_loop_shape _ _ _ _ _ _ _ Hs); [done|].
  by eapply depth_le_size.
Qed.

(** The successor is the right child itself. *)
Lemma removeNode_succ_child h (T : Tree Value) par n v l ra rv rr :
  l ≠ Leaf ->
  shape less h par (Br l n v (Br Leaf ra rv rr)) ->
  NoDup (locs (Br l n v (Br Leaf ra rv rr))) ->
  (∀ pa, par = Some pa ->
     (pa ∉ locs (Br l n v (Br Leaf ra rv rr))) ∧ is_Some (h !! pa)) ->
  ∃ h', removeNode (Some n) (mkState h T) =
          Ok (tt, mkState h' (tree_after T par (Some ra))) ∧
    shape less h' par (Br l ra rv rr) ∧
    (∀ b, b ∉ locs (Br l n v (Br Leaf ra rv rr)) -> Some b ≠ par ->
       h' !! b = h !! b) ∧
    (∀ pa pn, par = Some pa -> h !! pa = Some pn ->
       h' !! pa = Some (redirect pn (Some n) (Some ra))) ∧
    h' !! n = h !! n.
Proof.
  intros Hlne (Hn & Hl & Hr) Hnd Hpar. pose proof Hr as (Hra & _ & Hrr).
  destruct l as [|ll la lv lr]; [done|]. pose proof Hl as (Hla & _ & _).
  cbn [root_of] in *.
  cbn [locs app] in Hnd, Hpar.
  pose proof Hnd as Hnd0.
  apply NoDup_app in Hnd as (Hndl & Hdisj & Hndr).
  apply NoDup_cons in Hndr as (Hnr & Hndr).
  apply NoDup_cons in Hndr as (Hrarr & Hndrr).
  assert (Hlain : la ∈ locs ll ++ la :: locs lr) by in_locs.
  assert (Hnl : n ∉ locs ll ++ la :: locs lr)
    by (intros Hin; apply (Hdisj n Hin); in_locs).
  assert (Hral : ra ∉ locs ll ++ la :: locs lr)
    by (intros Hin; apply (Hdisj ra Hin); in_locs).
  assert (la ≠ n) by (by intros ->).
  assert (la ≠ ra) by (by intros ->).
  assert (ra ≠ n) by in_locs.
  assert (Hpne : ∀ b, b ∈ (locs ll ++ la :: locs lr) ++ n :: ra :: locs rr ->
                      Some b ≠ par).
  { intros b Hb Heq. symmetry in Heq. destruct (Hpar b Heq) as (Hp & _).
    by apply Hp. }
  (* transplant n s *)
  destruct (transplant_run h T n _ (Some ra) Hn)
    as (h1 & Hrun1 & Hfr1 & Hpa1 & Hva1).
  { simpl. intros pa ->. destruct (Hpar pa eq_refl) as (Hp & Hsome).
    split; [|done]. intros ->. apply Hp. in_locs. }
  { simpl. intros ? [= <-]. split; [by eexists|]. apply Hpne. in_locs. }
  cbn [n_parent] in *.
  specialize (Hva1 ra _ eq_refl Hra). cbn [set_parent n_val n_left n_right
    n_lessFn] in Hva1.
  assert (Hn1 : h1 !! n = Some (mkNode v par (Some la) (Some ra) less)).
  { rewrite Hfr1; [done| |congruence]. apply Hpne. in_locs. }
  assert (Hla1 : h1 !! la =
                 Some (mkNode lv (Some n) (root_of ll) (root_of lr) less)).
  { rewrite Hfr1; [done| |congruence]. apply Hpne. in_locs. }
  exists (<[la := mkNode lv (Some ra) (root_of ll) (root_of lr) less]>
            (<[ra := mkNode rv par (Some la) (root_of rr) less]> h1)).
  split_and!.
  - unfold removeNode.
    rewrite (bind_run _ _ _ _ _ (deref_run _ _ _ _ Hn)). cbn [n_left n_right].
    rewrite decide_False by done. rewrite decide_False by done.
    erewrite (bind_run (lift _ ≫= _)); cycle 1.
    { assert (Hndr' : NoDup (locs (Br Leaf ra rv rr)))
        by (cbn [locs app]; by apply NoDup_cons).
      rewrite (bind_run _ _ _ _ _ (succ_run _ _ _ _ _ _ _ Hr Hndr')).
      cbn [leftmost].
      rewrite (bind_run _ _ _ _ _ (deref_run _ _ _ _ Hra)). cbn [n_parent].
      rewrite decide_False by (by intros ?).
      rewrite (bind_run (mret tt) _ _ tt (mkState h T)) by done.
      rewrite (bind_run _ _ _ _ _ Hrun1).
      rewrite (bind_run _ _ _ _ _ (deref_run _ _ _ _ Hn1)). cbn [n_left].
      rewrite (bind_run _ _ _ _ _ (store_run _ _ _ _ _ Hva1)).
      rewrite (bind_run (deref (Some ra)) _ _ _ _
                 (deref_run _ _ _ _ (lookup_insert_eq _ _ _))).
      cbn [set_left n_left].
      apply store_run. rewrite lookup_insert_ne by done. exact Hla1. }
    done.
  - destruct Hl as (_ & Hll & Hlr).
    assert (Hfr : ∀ b, b ≠ la -> b ≠ ra -> Some b ≠ par ->
              <[la := mkNode lv (Some ra) (root_of ll) (root_of lr) less]>
                (<[ra := mkNode rv par (Some la) (root_of rr) less]> h1) !! b
              = h !! b).
    { intros b ? ? ?. rewrite !lookup_insert_ne by done.
      apply Hfr1; [done|congruence]. }
    apply NoDup_app in Hndl as (Hndll & Hdisjl & Hndlr).
    apply NoDup_cons in Hndlr as (Hlalr & Hndlr).
    cbn [shape root_of]. split_and!.
    + rewrite lookup_insert_ne by done. by rewrite lookup_insert_eq.
    + by rewrite lookup_insert_eq.
    + eapply shape_frame; [done|]. intros b Hb. apply Hfr.
      * intros ->. apply (Hdisjl la Hb). in_locs.
      * intros ->. apply Hral. in_locs.
      * apply Hpne. in_locs.
    + eapply shape_frame; [done|]. intros b Hb. apply Hfr.
      * by intros ->.
      * intros ->. apply Hral. in_locs.
      * apply Hpne. in_locs.
    + eapply shape_frame; [done|]. intros b Hb. apply Hfr.
      * intros ->. apply (Hdisj la Hlain). in_locs.
      * by intros ->.
      * apply Hpne. in_locs.
  - intros b Hb Hne. cbn [locs app] in Hb.
    rewrite !lookup_insert_ne by in_locs.
    apply Hfr1; [done|]. intros [= ->]. in_locs.
  - intros pa pn -> Hpn. destruct (Hpar pa eq_refl) as (Hp & _).
    rewrite !lookup_insert_ne by in_locs. by eapply Hpa1.
  - rewrite !lookup_insert_ne by done. by rewrite Hn1.
Qed.

(** The successor lies deeper in the right subtree. *)
Lemma removeNode_succ_deep h (T : Tree Value) par n v l rl ra rv rr :
  l ≠ Leaf -> rl ≠ Leaf ->
  shape less h par (Br l n v (Br rl ra rv rr)) ->
  NoDup (locs (Br l n v (Br rl ra rv rr))) ->
  (∀ pa, par = Some pa ->
     (pa ∉ locs (Br l n v (Br rl ra rv rr))) ∧ is_Some (h !! pa)) ->
  ∃ h', removeNode (Some n) (mkState h T) =
          Ok (tt, mkState h' (tree_after T par (Some (leftmost rl ra)))) ∧
    shape less h' par
      (Br l (leftmost rl ra) (min_val rl rv) (drop_min (Br rl ra rv rr))) ∧
    (∀ b, b ∉ locs (Br l n v (Br rl ra rv rr)) -> Some b ≠ par ->
       h' !! b = h !! b) ∧
    (∀ pa pn, par = Some pa -> h !! pa = Some pn ->
       h' !! pa = Some (redirect pn (Some n) (Some (leftmost rl ra)))) ∧
    h' !! n = h !! n.
Proof.
  intros Hlne Hrlne (Hn & Hl & Hr) Hnd Hpar.
  destruct l as [|ll la lv lr]; [done|]. pose proof Hl as (Hla & Hll & Hlr).
  cbn [root_of] in Hn.
  set (r := Br rl ra rv rr) in *. set (tl := Br ll la lv lr) in *.
  cbn [locs] in Hnd, Hpar.
  apply NoDup_app in Hnd as (Hndl & Hdisj & Hndr).
  apply NoDup_cons in Hndr as (Hnr & Hndr).
  assert (Hlain : la ∈ locs tl) by (unfold tl; cbn [locs]; in_list).
  assert (Hnl : n ∉ locs tl)
    by (intros Hin; apply (Hdisj n Hin); in_list).
  destruct (detach_min h T rl ra rv rr (Some n) Hrlne Hr Hndr)
    as (sp & sr & Hs & Hsin & Hspin & Hsps & h1 & Hrun1 & Hsh1 & Hfr1 & Hsame1).
  fold r in Hspin, Hsh1, Hfr1.
  set (s := leftmost rl ra) in *. set (sv := min_val rl rv) in *.
  pose proof (locs_drop_min rl ra rv rr) as Hlocs. fold r s in Hlocs.
  set (r' := drop_min r) in *.
  assert (Hroot' : root_of r' = Some ra) by (by apply root_of_drop_min).
  pose proof (succ_run h T _ _ _ _ _ Hr Hndr) as Hsucc. fold s in Hsucc.
  rewrite Hlocs in Hndr. apply NoDup_cons in Hndr as (Hsr' & Hndr').
  assert (Hrain : ra ∈ locs r') by (by apply root_of_locs).
  assert (Hsr : s ∈ locs r) by (rewrite Hlocs; in_list).
  assert (Hrar : ra ∈ locs r) by (rewrite Hlocs; in_list).
  assert (Hlr' : ∀ b, b ∈ locs tl -> b ∉ locs r)
    by (intros b Hb Hin; apply (Hdisj b Hb); in_list).
  assert (Hpne : ∀ b, b ∈ locs tl ++ n :: locs r -> Some b ≠ par).
  { intros b Hb Heq. symmetry in Heq. destruct (Hpar b Heq) as (Hp & _).
    by apply Hp. }
  assert (s ≠ ra) by (by intros ->).
  assert (s ≠ n) by (by intros ->).
  assert (ra ≠ n) by (by intros ->).
  assert (la ≠ n) by (by intros ->).
  assert (la ≠ s) by (intros ->; by eapply Hlr').
  assert (la ≠ ra) by (intros ->; by eapply Hlr').
  assert (Hra1 : ∃ rl', h1 !! ra = Some (mkNode rv (Some n) rl' (root_of rr) less)).
  { unfold r', r in Hsh1. destruct rl; [done|]. destruct Hsh1 as (? & _).
    by eexists. }
  destruct Hra1 as (rl' & Hra1).
  assert (Hn1 : h1 !! n = Some (mkNode v par (Some la) (Some ra) less))
    by (by rewrite Hfr1).
  assert (Hs1 : h1 !! s = Some (mkNode sv (Some sp) None sr less))
    by (by rewrite Hsame1).
  set (h2 := <[s := mkNode sv (Some sp) None (Some ra) less]> h1).
  set (h3 := <[ra := mkNode rv (Some s) rl' (root_of rr) less]> h2).
  assert (Hsh3 : shape less h3 (Some s) r').
  { eapply shape_reparent_frame; [exact Hsh1|done| |].
    - intros a m. rewrite Hroot'. intros [= <-] Hm. unfold h3.
      rewrite lookup_insert_eq. rewrite Hra1 in Hm. by injection Hm as <-.
    - intros b Hb. rewrite Hroot'. intros Hne. unfold h3, h2.
      rewrite !lookup_insert_ne; [done| |congruence]. by intros ->. }
  assert (Hfr3 : ∀ b, b ≠ s -> b ≠ ra -> h3 !! b = h1 !! b).
  { intros b ? ?. unfold h3, h2. by rewrite !lookup_insert_ne. }
  assert (Hn3 : h3 !! n = Some (mkNode v par (Some la) (Some ra) less))
    by (by rewrite Hfr3).
  assert (Hs3 : h3 !! s = Some (mkNode sv (Some sp) None (Some ra) less)).
  { unfold h3, h2. rewrite lookup_insert_ne by done.
    by rewrite lookup_insert_eq. }
  destruct (transplant_run h3 T n _ (Some s) Hn3)
    as (h4 & Hrun4 & Hfr4 & Hpa4 & Hva4).
  { simpl. intros pa ->. destruct (Hpar pa eq_refl) as (Hp & Hsome).
    split; [intros ->; apply Hp; in_list|].
    assert (pa ∉ locs r) by (intros Hi; apply Hp; in_list).
    assert (pa ≠ s) by (by intros ->).
    assert (pa ≠ ra) by (by intros ->).
    by rewrite Hfr3, Hfr1. }
  { simpl. intros ? [= <-]. split; [by eexists|]. apply Hpne. in_list. }
  cbn [n_parent] in *.
  specialize (Hva4 s _ eq_refl Hs3).
  cbn [set_parent n_val n_left n_right n_lessFn] in Hva4.
  assert (Hpns : ∀ b, Some b ≠ par -> b ≠ s -> b ≠ ra -> h4 !! b = h1 !! b).
  { intros b ? ? ?. rewrite Hfr4, Hfr3; [done|done|done|done|congruence]. }
  assert (Hn4 : h4 !! n = Some (mkNode v par (Some la) (Some ra) less)).
  { rewrite Hpns; [done| |done|done]. apply Hpne. in_list. }
  assert (Hla4 : h4 !! la =
                 Some (mkNode lv (Some n) (root_of ll) (root_of lr) less)).
  { rewrite Hpns; [|apply Hpne; in_list|done|done].
    rewrite Hfr1; [done|]. by apply Hlr'. }
  set (h5 := <[s := mkNode sv par (Some la) (Some ra) less]> h4).
  set (h6 := <[la := mkNode lv (Some s) (root_of ll) (root_of lr) less]> h5).
  exists h6. split_and!.
  - unfold removeNode.
    rewrite (bind_run _ _ _ _ _ (deref_run _ _ _ _ Hn)). cbn [n_left n_right].
    rewrite decide_False by done. rewrite decide_False by done.
    erewrite (bind_run (lift _ ≫= _)); cycle 1.
    { rewrite (bind_run _ _ _ _ _ Hsucc).
      rewrite (bind_run _ _ _ _ _ (deref_run _ _ _ _ Hs)).
      cbn [n_parent n_right].
      rewrite decide_True by (intros [= ->]; done).
      erewrite (bind_run (transplant _ _ ≫= _)); cycle 1.
      { rewrite (bind_run _ _ _ _ _ Hrun1).
        rewrite (bind_run _ _ _ _ _ (deref_run _ _ _ _ Hn1)). cbn [n_right].
        rewrite (bind_run _ _ _ _ _ (store_run _ _ _ _ _ Hs1)).
        rewrite (bind_run (deref (Some s)) _ _ _ _
                   (deref_run _ _ _ _ (lookup_insert_eq _ _ _))).
        cbn [set_right n_right].
        apply store_run. rewrite lookup_insert_ne by done. exact Hra1. }
      rewrite (bind_run _ _ _ _ _ Hrun4).
      rewrite (bind_run _ _ _ _ _ (deref_run _ _ _ _ Hn4)). cbn [n_left].
      rewrite (bind_run _ _ _ _ _ (store_run _ _ _ _ _ Hva4)).
      rewrite (bind_run (deref (Some s)) _ _ _ _
                 (deref_run _ _ _ _ (lookup_insert_eq _ _ _))).
      cbn [set_left n_left].
      apply store_run. rewrite lookup_insert_ne by done. exact Hla4. }
    done.
  - assert (Hfr6 : ∀ b, b ≠ la -> b ≠ s -> h6 !! b = h4 !! b).
    { intros b ? ?. unfold h6, h5. by rewrite !lookup_insert_ne. }
    assert (Hfrl : ∀ b, b ∈ locs tl -> b ≠ la -> h6 !! b = h !! b).
    { intros b Hb ?. assert (b ≠ s) by (intros ->; by eapply Hlr').
      assert (b ≠ ra) by (intros ->; by eapply Hlr').
      rewrite Hfr6, Hpns, Hfr1; [done|by apply Hlr'| |done|done|done|done].
      apply Hpne. in_list. }
    unfold tl in Hndl. cbn [locs] in Hndl.
    apply NoDup_app in Hndl as (Hndll & Hdisjl & Hndlr).
    apply NoDup_cons in Hndlr as (Hlalr & Hndlr).
    unfold tl. cbn [shape]. rewrite Hroot'. cbn [root_of]. split_and!.
    + unfold h6, h5. rewrite lookup_insert_ne by done.
      by rewrite lookup_insert_eq.
    + unfold h6. by rewrite lookup_insert_eq.
    + eapply shape_frame; [done|]. intros b Hb. apply Hfrl.
      * unfold tl. cbn [locs]. in_list.
      * intros ->. apply (Hdisjl la Hb). in_list.
    + eapply shape_frame; [done|]. intros b Hb. apply Hfrl.
      * unfold tl. cbn [locs]. in_list.
      * by intros ->.
    + eapply shape_frame; [done|]. intros b Hb.
      assert (Hbr : b ∈ locs r) by (rewrite Hlocs; in_list).
      rewrite Hfr6, Hfr4; [done| | | |].
      * apply Hpne. in_list.
      * intros [= ->]. done.
      * intros ->. by eapply Hlr'.
      * by intros ->.
  - intros b Hb Hne. cbn [locs] in Hb. fold tl r in Hb.
    assert (b ≠ la) by (intros ->; apply Hb; in_list).
    assert (b ≠ s) by (intros ->; apply Hb; in_list).
    assert (b ≠ ra) by (intros ->; apply Hb; in_list).
    unfold h6, h5. rewrite !lookup_insert_ne by done.
    rewrite Hpns, Hfr1; [done| |done|done|done].
    intros Hi. apply Hb. in_list.
  - intros pa pn -> Hpn. destruct (Hpar pa eq_refl) as (Hp & _).
    assert (pa ≠ la) by (intros ->; apply Hp; in_list).
    assert (pa ≠ s) by (intros ->; apply Hp; in_list).
    assert (pa ≠ ra) by (intros ->; apply Hp; in_list).
    unfold h6, h5. rewrite !lookup_insert_ne by done.
    eapply Hpa4; [done|]. rewrite Hfr3, Hfr1; [done| |done|done].
    intros Hi. apply Hp. in_list.
  - unfold h6, h5. rewrite !lookup_insert_ne by done. by rewrite Hn4.
Qed.

Lemma removeNode_root h (T : Tree Value) par n v l r :
  shape less h par (Br l n v r) -> NoDup (locs (Br l n v r)) ->
  (∀ pa, par = Some pa -> (pa ∉ locs (Br l n v r)) ∧ is_Some (h !! pa)) ->
  ∃ h', removeNode (Some n) (mkState h T) =
          Ok (tt, mkState h' (tree_after T par (root_of (del_root l n v r)))) ∧
    shape less h' par (del_root l n v r) ∧
    (∀ b, b ∉ locs (Br l n v r) -> Some b ≠ par -> h' !! b = h !! b) ∧
    (∀ pa pn, par = Some pa -> h !! pa = Some pn ->
       h' !! pa = Some (redirect pn (Some n) (root_of (del_root l n v r)))) ∧
    h' !! n = h !! n.
Proof.
  intros Hs Hnd Hpar.
  destruct (leaf_or_not l) as [->|Hl].
  { apply removeNode_one_child; auto. }
  destruct (leaf_or_not r) as [->|Hr].
  { apply removeNode_one_child; auto. }
  destruct r as [|rl ra rv rr]; [done|].
  destruct (leaf_or_not rl) as [->|Hrl].
  - destruct l as [|ll la lv lr]; [done|].
    by apply removeNode_succ_child.
  - destruct l as [|ll la lv lr]; [done|].
    by apply removeNode_succ_deep.
Qed.

Lemma root_of_remove_at n t :
  root_of t ≠ Some n -> root_of (remove_at n t) = root_of t.
Proof.
  destruct t as [|l c x r]; [done|]. cbn [remove_at root_of]. intros Hne.
  rewrite decide_False by congruence. by destruct (decide (n ∈ locs l)).
Qed.

Lemma redirect_left (pn : Node Value) (u q : ptr) :
  n_left pn = u -> redirect pn u q = set_left pn q.
Proof. intros <-. unfold redirect. by rewrite decide_True. Qed.

Lemma redirect_right (pn : Node Value) (u q : ptr) :
  n_left pn ≠ u -> redirect pn u q = set_right pn q.
Proof. intros Hne. unfold redirect. by rewrite decide_False. Qed.

(** ** removeNode anywhere in the tree *)

Lemma removeNode_at h (T : Tree Value) t :
  ∀ par n,
    shape less h par t -> NoDup (locs t) -> n ∈ locs t ->
    (∀ pa, par = Some pa -> (pa ∉ locs t) ∧ is_Some (h !! pa)) ->
    (par = None -> t_root T = root_of t) ->
    ∃ h', removeNode (Some n) (mkState h T) =
            Ok (tt, mkState h' (tree_after T par (root_of (remove_at n t)))) ∧
      shape less h' par (remove_at n t) ∧
      (∀ b, b ∉ locs t -> Some b ≠ par -> h' !! b = h !! b) ∧
      (∀ pa pn, par = Some pa -> h !! pa = Some pn ->
         h' !! pa = Some (if decide (root_of t = Some n)
                          then redirect pn (Some n) (root_of (remove_at n t))
                          else pn)) ∧
      h' !! n = h !! n.
Proof.
  induction t as [|l IHl c x r IHr]; intros par n Hs Hnd Hin Hpar Hroot.
  { by apply elem_of_nil in Hin. }
  cbn [remove_at root_of]. destruct (decide (c = n)) as [->|Hcn].
  { destruct (decide (Some n = Some n)) as [_|?]; [|done].
    by apply removeNode_root. }
  destruct (decide (Some c = Some n)) as [?|_]; [congruence|].
  pose proof Hs as (Hc & Hl & Hr). pose proof Hnd as Hnd0.
  cbn [locs] in Hnd, Hin, Hpar.
  apply NoDup_app in Hnd as (Hndl & Hdisj & Hndr).
  apply NoDup_cons in Hndr as (Hcr & Hndr).
  assert (Hcl : c ∉ locs l) by (intros Hi; apply (Hdisj c Hi); in_locs).
  assert (Htree : ∀ q, tree_after T (Some c) q = tree_after T par (Some c)).
  { intros q. unfold tree_after. destruct par; [done|].
    by rewrite (Hroot eq_refl). }
  destruct (decide (n ∈ locs l)) as [Hnl|Hnl].
  - destruct (IHl (Some c) n Hl Hndl Hnl)
      as (h' & Hrun & Hsh & Hfr & Hpa & Hsame).
    { intros ? [= <-]. split; [done|by eexists]. }
    { done. }
    exists h'. rewrite Htree in Hrun. split_and!; [done| | | |done].
    + cbn [shape]. split_and!; [|done|].
      * rewrite (Hpa c _ eq_refl Hc).
        destruct (decide (root_of l = Some n)) as [Hrl|Hrl].
        -- by rewrite redirect_left.
        -- by rewrite root_of_remove_at.
      * eapply shape_frame; [done|]. intros b Hb. apply Hfr.
        -- intros Hi. apply (Hdisj b Hi). in_locs.
        -- by intros [= ->].
    + intros b Hb Hne. apply Hfr; [in_locs|]. intros [= ->]. in_locs.
    + intros pa pn -> Hpn. destruct (Hpar pa eq_refl) as (Hp & _).
      rewrite Hfr; [done|in_locs|]. intros [= ->]. in_locs.
  - assert (Hnr : n ∈ locs r) by in_locs.
    destruct (IHr (Some c) n Hr Hndr Hnr)
      as (h' & Hrun & Hsh & Hfr & Hpa & Hsame).
    { intros ? [= <-]. split; [done|by eexists]. }
    { done. }
    exists h'. rewrite Htree in Hrun. split_and!; [done| | | |done].
    + cbn [shape]. split_and!; [| |done].
      * rewrite (Hpa c _ eq_refl Hc).
        destruct (decide (root_of r = Some n)) as [Hrr|Hrr].
        -- rewrite redirect_right; [done|]. cbn [n_left]. intros Heq.
           by apply root_of_locs in Heq.
        -- by rewrite root_of_remove_at.
      * eapply shape_frame; [done|]. intros b Hb. apply Hfr.
        -- intros Hi. apply (Hdisj b Hb). in_locs.
        -- intros [= ->]. done.
    + intros b Hb Hne. apply Hfr; [in_locs|]. intros [= ->]. in_locs.
    + intros pa pn -> Hpn. destruct (Hpar pa eq_refl) as (Hp & _).
      rewrite Hfr; [done|in_locs|]. intros [= ->]. in_locs.
Qed.

(** ** Removal and search on the represented tree *)

Lemma locs_del_root l a v r : locs (del_root l a v r) = locs l ++ locs r.
Proof.
  unfold del_root. destruct l as [|ll la lv lr]; [done|].
  destruct r as [|rl ra rv rr]; [by rewrite app_nil_r|].
  by rewrite (locs_drop_min rl ra rv rr).
Qed.

Lemma vals_del_root l a v r : vals (del_root l a v r) = vals l ++ vals r.
Proof.
  unfold del_root. destruct l as [|ll la lv lr]; [done|].
  destruct r as [|rl ra rv rr]; [by rewrite app_nil_r|].
  by rewrite (vals_drop_min rl ra rv rr).
Qed.

(** Removing the node at [n] takes one entry out of the in-order
    sequences, at the position of [n]. *)
Lemma remove_at_split n t :
  NoDup (locs t) -> n ∈ locs t ->
  ∃ (k1 k2 : list loc) (w1 : list Value) (y : Value) (w2 : list Value),
    locs t = k1 ++ n :: k2 ∧ locs (remove_at n t) = k1 ++ k2 ∧
    vals t = w1 ++ y :: w2 ∧ vals (remove_at n t) = w1 ++ w2 ∧
    val_of t n = Some y.
Proof.
  induction t as [|l IHl c x r IHr]; intros Hnd Hin.
  { by apply elem_of_nil in Hin. }
  cbn [locs] in Hnd, Hin.
  apply NoDup_app in Hnd as (Hndl & Hdisj & Hndr).
  apply NoDup_cons in Hndr as (Hcr & Hndr).
  cbn [remove_at val_of]. destruct (decide (c = n)) as [->|Hcn].
  - exists (locs l), (locs r), (vals l), x, (vals r).
    rewrite locs_del_root, vals_del_root. by rewrite decide_True.
  - rewrite (decide_False (P := n = c)) by done.
    destruct (decide (n ∈ locs l)) as [Hl|Hl].
    + destruct (IHl Hndl Hl) as (k1 & k2 & w1 & y & w2 & E1 & E2 & E3 & E4 & E5).
      exists k1, (k2 ++ c :: locs r), w1, y, (w2 ++ x :: vals r).
      cbn [locs vals]. rewrite E1, E2, E3, E4, E5.
      by rewrite <- !app_assoc.
    + assert (Hr : n ∈ locs r).
      { apply elem_of_app in Hin as [?|Hin]; [done|].
        by apply elem_of_cons in Hin as [?|?]. }
      destruct (IHr Hndr Hr) as (k1 & k2 & w1 & y & w2 & E1 & E2 & E3 & E4 & E5).
      exists (locs l ++ c :: k1), k2, (vals l ++ x :: w1), y, w2.
      cbn [locs vals]. rewrite E1, E2, E3, E4, E5, (val_of_not_in l n Hl).
      by rewrite <- !app_assoc.
Qed.

Lemma remove_at_NoDup n t :
  NoDup (locs t) -> n ∈ locs t -> NoDup (locs (remove_at n t)).
Proof.
  intros Hnd Hin.
  destruct (remove_at_split n t Hnd Hin)
    as (k1 & k2 & w1 & y & w2 & E1 & E2 & _).
  rewrite E1 in Hnd. rewrite E2.
  apply NoDup_app in Hnd as (H1 & H2 & H3).
  apply NoDup_cons in H3 as (H3 & H4).
  apply NoDup_app. split_and!; [done| |done].
  intros b Hb Hb'. apply (H2 b Hb). in_list.
Qed.

Lemma remove_at_length n t :
  NoDup (locs t) -> n ∈ locs t ->
  length (locs t) = S (length (locs (remove_at n t))).
Proof.
  intros Hnd Hin.
  destruct (remove_at_split n t Hnd Hin)
    as (k1 & k2 & w1 & y & w2 & E1 & E2 & _).
  rewrite E1, E2, !length_app. simpl. lia.
Qed.

Lemma find_abs_in t v a : find_abs less t v = Some a -> a ∈ locs t.
Proof.
  induction t as [|l IHl c x r IHr]; simpl; [done|].
  destruct (less v x); [intros Hf; apply elem_app_l; by apply IHl|].
  destruct (less x v); [intros Hf; apply elem_app_r, elem_tail; by apply IHr|].
  intros [= ->]. in_list.
Qed.

Lemma find_abs_equal h par t v a :
  shape less h par t -> find_abs less t v = Some a ->
  ∃ n, h !! a = Some n ∧ equal less v (n_val n).
Proof.
  revert par. induction t as [|l IHl c x r IHr]; intros par; simpl; [done|].
  intros (Hc & Hl & Hr).
  destruct (less v x) eqn:E1; [by eapply IHl|].
  destruct (less x v) eqn:E2; [by eapply IHr|].
  intros [= <-]. eexists. split; [done|]. by split.
Qed.

(** ** Search trees and sorted sequences *)

Section Order.

Hypothesis less_trans :
  ∀ x1 x2 x3, less x1 x2 = true -> less x2 x3 = true -> less x1 x3 = true.

Lemma bst_sorted t : bst less t -> StronglySorted (lessR less) (vals t).
Proof.
  induction t as [|l IHl a v r IHr]; simpl; [constructor|].
  intros (Hl & Hr & Hlt & Hgt).
  apply StronglySorted_app. split_and!; [|by apply IHl|].
  - intros x1 x2 H1 H2. apply (proj1 (Forall_forall _ _) Hlt) in H1.
    apply elem_of_cons in H2 as [->|H2]; [done|].
    apply (proj1 (Forall_forall _ _) Hgt) in H2.
    by eapply less_trans.
  - apply StronglySorted_cons. split; [done|by apply IHr].
Qed.

Lemma sorted_bst t : StronglySorted (lessR less) (vals t) -> bst less t.
Proof.
  induction t as [|l IHl a v r IHr]; simpl; [done|].
  intros (Hcross & Hl & Hr)%StronglySorted_app.
  apply StronglySorted_cons in Hr as (Hgt & Hr).
  split_and!; [by apply IHl|by apply IHr| |done].
  apply Forall_forall. intros x1 H1. apply Hcross; [done|in_list].
Qed.

Lemma remove_at_bst n t :
  NoDup (locs t) -> n ∈ locs t -> bst less t -> bst less (remove_at n t).
Proof.
  intros Hnd Hin Hb. apply sorted_bst. apply bst_sorted in Hb.
  destruct (remove_at_split n t Hnd Hin)
    as (k1 & k2 & w1 & y & w2 & _ & _ & E3 & E4 & _).
  rewrite E3 in Hb. rewrite E4.
  apply StronglySorted_app in Hb as (Hcross & H1 & H2).
  apply StronglySorted_cons in H2 as (_ & H2).
  apply StronglySorted_app. split_and!; [|done|done].
  intros x1 x2 Hx1 Hx2. apply Hcross; [done|in_list].
Qed.

(** ** What [Find] finds *)

Lemma find_abs_none t v y :
  bst less t -> find_abs less t v = None -> y ∈ vals t -> ¬ equal less v y.
Proof.
  induction t as [|l IHl c x r IHr]; simpl.
  { intros _ _ Hy. by apply elem_of_nil in Hy. }
  intros (Hl & Hr & Hlt & Hgt) Hf Hy [Hvy Hyv].
  rewrite Forall_forall in Hlt. rewrite Forall_forall in Hgt.
  apply elem_of_app in Hy. rewrite elem_of_cons in Hy.
  destruct (less v x) eqn:E1.
  - destruct Hy as [Hy|[->|Hy]].
    + by apply (IHl Hl Hf Hy).
    + congruence.
    + pose proof (less_trans _ _ _ E1 (Hgt _ Hy)). congruence.
  - destruct (less x v) eqn:E2; [|done].
    destruct Hy as [Hy|[->|Hy]].
    + pose proof (less_trans _ _ _ (Hlt _ Hy) E2). congruence.
    + congruence.
    + by apply (IHr Hr Hf Hy).
Qed.

(** ** Delete *)

Lemma Find_repr s t v :
  tree_repr less s t ->
  Find (heap s) (t_root (tree s)) v = Ok (find_abs less t v).
Proof.
  intros (Hless & Hroot & Hs & Hnd & Hb & Hsz). unfold Find. rewrite Hroot.
  eapply find_loop_shape; [done|]. by eapply depth_le_size.
Qed.

Lemma Delete_missing s t v :
  tree_repr less s t -> find_abs less t v = None ->
  Delete v s = Ok (false, s).
Proof.
  intros Hrep Hf. unfold Delete. unfold_M.
  rewrite (Find_repr _ _ _ Hrep), Hf. done.
Qed.

Lemma Delete_found s t v a :
  tree_repr less s t -> find_abs less t v = Some a ->
  ∃ s', Delete v s = Ok (true, s') ∧ tree_repr less s' (remove_at a t) ∧
        (∀ b, b ∉ locs t -> heap s' !! b = heap s !! b).
Proof.
  intros Hrep Hf. pose proof (Find_repr _ _ v Hrep) as HF.
  destruct Hrep as (Hless & Hroot & Hs & Hnd & Hb & Hsz).
  pose proof (find_abs_in _ _ _ Hf) as Hin.
  destruct s as [h T]. cbn [heap tree] in *.
  destruct (removeNode_at h T t None a Hs Hnd Hin) as (h' & Hrun & Hsh & Hfr & _);
    [done|done|].
  eexists. split_and!.
  - unfold Delete.
    rewrite (bind_run get_tree _ (mkState h T) T (mkState h T)) by done.
    rewrite (bind_run (lift _) _ (mkState h T) (Some a) (mkState h T)).
    2:{ unfold lift. cbn [heap]. by rewrite HF, Hf. }
    by rewrite (bind_run _ _ _ _ _ Hrun).
  - split_and!; cbn [heap tree tree_after t_root t_size t_lessFn].
    + done.
    + done.
    + done.
    + by apply remove_at_NoDup.
    + by apply remove_at_bst.
    + rewrite Hsz. unfold int_sub.
      replace (int_wrap (Z.of_nat (length (locs t))) - 1)
        with (int_wrap (Z.of_nat (length (locs t))) + -1) by lia.
      rewrite int_wrap_add_l. rewrite (remove_at_length a t) by done.
      f_equal. lia.
  - intros b Hnb. cbn [heap]. by apply Hfr.
Qed.

End Order.

(** ** Next and Prev *)

(** Where two neighbours of an in-order list lie with respect to a root. *)
Lemma adjacent_split {A : Type} (k1 k2 j1 j2 : list A) (c y y' : A) :
  k1 ++ c :: k2 = j1 ++ y :: y' :: j2 ->
  (∃ j2', k1 = j1 ++ y :: y' :: j2') ∨
  (k1 = j1 ++ [y] ∧ y' = c) ∨
  (k1 = j1 ∧ y = c ∧ k2 = y' :: j2) ∨
  (∃ j1', k2 = j1' ++ y :: y' :: j2).
Proof.
  revert j1. induction k1 as [|e k1 IH]; intros [|e' j1] E; simplify_eq/=.
  - right. right. left. done.
  - right. right. right. by eexists.
  - destruct k1 as [|e'' k1]; simplify_eq/=.
    + right. left. done.
    + left. by eexists.
  - match goal with H : _ ++ _ = _ |- _ => rename H into E end.
    destruct (IH _ E) as [(j2' & ->)|[(-> & ->)|[(-> & -> & ->)|(j1' & ->)]]].
    + left. by eexists.
    + right. left. done.
    + right. right. left. done.
    + right. right. right. by eexists.
Qed.

Lemma head_locs l c x r : head (locs (Br l c x r)) = Some (leftmost l c).
Proof. by rewrite locs_drop_min. Qed.

Lemma last_locs l c x r : last (locs (Br l c x r)) = Some (rightmost r c).
Proof.
  revert c x l. induction r as [|rl _ rc rx rr IH]; intros c x l.
  - cbn [locs rightmost]. by rewrite last_snoc.
  - cbn [rightmost].
    change (locs (Br l c x (Br rl rc rx rr)))
      with (locs l ++ c :: locs (Br rl rc rx rr)).
    by rewrite last_app, last_cons, (IH rc rx rl).
Qed.

(** Climbing from the last node of a subtree gets to its root. *)
Lemma next_loop_climb h par l c x r :
  shape less h par (Br l c x r) ->
  ∃ na (d : nat),
    h !! rightmost r c = Some na ∧ n_right na = None ∧
    (d < depth (Br l c x r))%nat ∧
    ∀ f : nat, next_loop (d + f) h (rightmost r c) (n_parent na) =
               next_loop f h c par.
Proof.
  revert par l c x. induction r as [|rl _ rc rx rr IH]; intros par l c x.
  - intros (Hc & _). eexists _, O. split; [done|]. split; [done|].
    split; [simpl; lia|]. done.
  - intros (Hc & Hl & Hr). destruct (IH _ _ _ _ Hr) as (na & d & Hna & Hr0 & Hd & Hcl).
    exists na, (S d). cbn [rightmost]. split; [done|]. split; [done|].
    split; [cbn [depth] in *; lia|].
    intros f. replace (S d + f)%nat with (d + S f)%nat by lia.
    rewrite Hcl. cbn [next_loop load]. rewrite Hc. unfold_result.
    cbn [n_right root_of n_parent]. by rewrite decide_True.
Qed.

Lemma prev_loop_climb h par l c x r :
  shape less h par (Br l c x r) ->
  ∃ na (d : nat),
    h !! leftmost l c = Some na ∧ n_left na = None ∧
    (d < depth (Br l c x r))%nat ∧
    ∀ f : nat, prev_loop (d + f) h (leftmost l c) (n_parent na) =
               prev_loop f h c par.
Proof.
  revert par r c x. induction l as [|ll IH lc lx lr _]; intros par r c x.
  - intros (Hc & _). eexists _, O. split; [done|]. split; [done|].
    split; [simpl; lia|]. done.
  - intros (Hc & Hl & Hr). destruct (IH _ _ _ _ Hl) as (na & d & Hna & Hr0 & Hd & Hcl).
    exists na, (S d). cbn [leftmost]. split; [done|]. split; [done|].
    split; [cbn [depth] in *; lia|].
    intros f. replace (S d + f)%nat with (d + S f)%nat by lia.
    rewrite Hcl. cbn [prev_loop load]. rewrite Hc. unfold_result.
    cbn [n_left root_of n_parent]. by rewrite decide_True.
Qed.

Lemma next_loop_nil (f : nat) h a : next_loop f h a None = Ok None.
Proof. by destruct f. Qed.

Lemma prev_loop_nil (f : nat) h a : prev_loop f h a None = Ok None.
Proof. by destruct f. Qed.

Lemma Next_adjacent h t :
  ∀ par a b (k1 k2 : list loc),
    shape less h par t -> NoDup (locs t) -> (depth t <= size h)%nat ->
    locs t = k1 ++ a :: b :: k2 ->
    Next h (Some a) = Ok (Some b).
Proof.
  induction t as [|l IHl c x r IHr]; intros par a b k1 k2 Hs Hnd Hd E.
  { by destruct k1. }
  pose proof Hs as (Hc & Hl & Hr). cbn [locs] in E, Hnd. cbn [depth] in Hd.
  apply NoDup_app in Hnd as (Hndl & Hdisj & Hndr).
  apply NoDup_cons in Hndr as (Hcr & Hndr).
  destruct (adjacent_split _ _ _ _ _ _ _ E)
    as [(j2' & El)|[(El & Hbc)|[(Ek & Hac & Er)|(j1' & Er)]]]; subst.
  - eapply (IHl (Some c)); [done|done|lia|done].
  - (* [a] is the last node of the left subtree *)
    destruct l as [|ll lc lx lr]; [by destruct k1|].
    pose proof (last_locs ll lc lx lr) as Hlast.
    rewrite El, last_snoc in Hlast. injection Hlast as ->.
    destruct (next_loop_climb _ _ _ _ _ _ Hl) as (na & d & Hna & Hr0 & Hdd & Hcl).
    unfold Next. cbn [load]. rewrite Hna. unfold_result. rewrite Hr0.
    replace (size h) with (d + S (size h - d - 1))%nat
      by (cbn [depth] in *; lia).
    rewrite Hcl. cbn [next_loop load]. rewrite Hc. unfold_result.
    cbn [n_right]. rewrite decide_False; [done|].
    intros Heq. symmetry in Heq. apply root_of_locs in Heq.
    apply (Hdisj lc); [cbn [locs]; in_list|in_list].
  - (* [a] is the root *)
    destruct r as [|rl rc rx rr]; [done|].
    pose proof (head_locs rl rc rx rr) as Hhead. rewrite Er in Hhead.
    injection Hhead as ->.
    unfold Next. cbn [load]. rewrite Hc. unfold_result. cbn [n_right root_of].
    unfold Min. rewrite (min_loop_shape _ _ _ _ _ _ _ Hr); [done|lia].
  - eapply (IHr (Some c)); [done|done|lia|done].
Qed.

Lemma Next_last h t a :
  shape less h None t -> (depth t <= size h)%nat ->
  last (locs t) = Some a -> Next h (Some a) = Ok None.
Proof.
  intros Hs Hd Hlast. destruct t as [|l c x r]; [done|].
  rewrite last_locs in Hlast. injection Hlast as <-.
  destruct (next_loop_climb _ _ _ _ _ _ Hs) as (na & d & Hna & Hr0 & Hdd & Hcl).
  unfold Next. cbn [load]. rewrite Hna. unfold_result. rewrite Hr0.
  replace (size h) with (d + (size h - d))%nat by lia.
  rewrite Hcl. apply next_loop_nil.
Qed.

Lemma walk_next_suffix h t :
  shape less h None t -> NoDup (locs t) ->
  ∀ (k2 k1 : list loc) a (f : nat),
    locs t = k1 ++ a :: k2 -> (length (a :: k2) <= f)%nat ->
    walk_next f h (Some a) = Ok (a :: k2).
Proof.
  intros Hs Hnd. pose proof (depth_le_size _ _ _ Hs Hnd) as Hd.
  induction k2 as [|b k2 IH]; intros k1 a f E Hf.
  - destruct f as [|f]; [simpl in Hf; lia|]. cbn [walk_next].
    rewrite (Next_last h t a); [|done|done|by rewrite E, last_snoc].
    unfold_result. by destruct f.
  - destruct f as [|f]; [simpl in Hf; lia|]. cbn [walk_next].
    rewrite (Next_adjacent h t None a b k1 k2) by done.
    unfold_result. rewrite (IH (k1 ++ [a]) b f).
    + done.
    + by rewrite <- app_assoc.
    + simpl in *. lia.
Qed.

Lemma ascend_repr s t :
  tree_repr less s t -> ascend s = Ok (locs t).
Proof.
  intros (Hless & Hroot & Hs & Hnd & Hb & Hsz).
  unfold ascend, Tree_Min. rewrite Hroot.
  destruct t as [|l c x r]; [by destruct (size (heap s))|].
  cbn [root_of Min].
  rewrite (min_loop_shape _ _ _ _ _ _ _ Hs) by (by eapply depth_le_size).
  unfold_result. pose proof (locs_le_size _ _ _ Hs Hnd) as Hle.
  rewrite locs_drop_min in Hle |- *.
  eapply (walk_next_suffix _ _ Hs Hnd _ []); [|done].
  by rewrite locs_drop_min.
Qed.

Lemma Prev_adjacent h t :
  ∀ par a b (k1 k2 : list loc),
    shape less h par t -> NoDup (locs t) -> (depth t <= size h)%nat ->
    locs t = k1 ++ a :: b :: k2 ->
    Prev h (Some b) = Ok (Some a).
Proof.
  induction t as [|l IHl c x r IHr]; intros par a b k1 k2 Hs Hnd Hd E.
  { by destruct k1. }
  pose proof Hs as (Hc & Hl & Hr). cbn [locs] in E, Hnd. cbn [depth] in Hd.
  apply NoDup_app in Hnd as (Hndl & Hdisj & Hndr).
  apply NoDup_cons in Hndr as (Hcr & Hndr).
  destruct (adjacent_split _ _ _ _ _ _ _ E)
    as [(j2' & El)|[(El & Hbc)|[(Ek & Hac & Er)|(j1' & Er)]]]; subst.
  - eapply (IHl (Some c)); [done|done|lia|done].
  - (* [b] is the root *)
    destruct l as [|ll lc lx lr]; [by destruct k1|].
    pose proof (last_locs ll lc lx lr) as Hlast.
    rewrite El, last_snoc in Hlast. injection Hlast as ->.
    unfold Prev. cbn [load]. rewrite Hc. unfold_result. cbn [n_left root_of].
    unfold Max. rewrite (max_loop_shape _ _ _ _ _ _ _ Hl); [done|lia].
  - (* [b] is the first node of the right subtree *)
    destruct r as [|rl rc rx rr]; [done|].
    pose proof (head_locs rl rc rx rr) as Hhead. rewrite Er in Hhead.
    injection Hhead as ->.
    destruct (prev_loop_climb _ _ _ _ _ _ Hr) as (na & d & Hna & Hl0 & Hdd & Hcl).
    unfold Prev. cbn [load]. rewrite Hna. unfold_result. rewrite Hl0.
    replace (size h) with (d + S (size h - d - 1))%nat
      by (cbn [depth] in *; lia).
    rewrite Hcl. cbn [prev_loop load]. rewrite Hc. unfold_result.
    cbn [n_left]. rewrite decide_False; [done|].
    intros Heq. symmetry in Heq. apply root_of_locs in Heq.
    apply (Hdisj rc); [done|cbn [locs]; in_list].
  - eapply (IHr (Some c)); [done|done|lia|done].
Qed.

Lemma Prev_first h t a :
  shape less h None t -> (depth t <= size h)%nat ->
  head (locs t) = Some a -> Prev h (Some a) = Ok None.
Proof.
  intros Hs Hd Hhead. destruct t as [|l c x r]; [done|].
  rewrite head_locs in Hhead. injection Hhead as <-.
  destruct (prev_loop_climb _ _ _ _ _ _ Hs) as (na & d & Hna & Hl0 & Hdd & Hcl).
  unfold Prev. cbn [load]. rewrite Hna. unfold_result. rewrite Hl0.
  replace (size h) with (d + (size h - d))%nat by lia.
  rewrite Hcl. apply prev_loop_nil.
Qed.

Lemma walk_prev_prefix h t :
  shape less h None t -> NoDup (locs t) ->
  ∀ (k1 k2 : list loc) a (f : nat),
    locs t = k1 ++ a :: k2 -> (length (k1 ++ [a]) <= f)%nat ->
    walk_prev f h (Some a) = Ok (a :: reverse k1).
Proof.
  intros Hs Hnd. pose proof (depth_le_size _ _ _ Hs Hnd) as Hd.
  induction k1 as [|b k1 IH] using rev_ind; intros k2 a f E Hf.
  - destruct f as [|f]; [simpl in Hf; lia|]. cbn [walk_prev].
    rewrite (Prev_first h t a); [|done|done|by rewrite E].
    unfold_result. by destruct f.
  - destruct f as [|f]; [rewrite !length_app in Hf; simpl in Hf; lia|].
    cbn [walk_prev]. rewrite <- app_assoc in E. cbn [app] in E.
    rewrite (Prev_adjacent h t None b a k1 k2) by done.
    unfold_result. rewrite (IH (a :: k2) b f).
    + by rewrite reverse_snoc.
    + done.
    + rewrite !length_app in *. simpl in *. lia.
Qed.

Lemma descend_repr s t :
  tree_repr less s t -> descend s = Ok (reverse (locs t)).
Proof.
  intros (Hless & Hroot & Hs & Hnd & Hb & Hsz).
  unfold descend, Tree_Max. rewrite Hroot.
  destruct t as [|l c x r]; [by destruct (size (heap s))|].
  cbn [root_of Max].
  rewrite (max_loop_shape _ _ _ _ _ _ _ Hs) by (by eapply depth_le_size).
  unfold_result. pose proof (locs_le_size _ _ _ Hs Hnd) as Hle.
  assert (∃ k, locs (Br l c x r) = k ++ [rightmost r c]) as (k & E).
  { pose proof (last_locs l c x r) as Hlast.
    destruct (locs (Br l c x r)) as [|e k _] using rev_ind; [done|].
    rewrite last_snoc in Hlast. injection Hlast as ->. by eexists. }
  rewrite E in Hle |- *. rewrite reverse_snoc.
  by eapply (walk_prev_prefix _ _ Hs Hnd _ []).
Qed.

(** ** Height *)

Lemma height_rec_shape h par t (f : nat) :
  shape less h par t -> (depth t <= f)%nat ->
  height_rec f h (root_of t) = Ok (height_abs t).
Proof.
  revert par f. induction t as [|l IHl a x r IHr]; intros par f; simpl.
  - by destruct f.
  - intros (Ha & Hl & Hr) Hd. destruct f as [|f]; [lia|]. simpl.
    rewrite Ha. unfold_result. simpl.
    rewrite (IHl (Some a)) by (done || lia).
    by rewrite (IHr (Some a)) by (done || lia).
Qed.

Lemma Height_shape h par t :
  shape less h par t -> NoDup (locs t) ->
  Height h (root_of t) = Ok (height_abs t).
Proof.
  intros Hs Hnd. eapply height_rec_shape; [done|]. by eapply depth_le_size.
Qed.

(** ** Strings *)

Lemma str_app_cons (ch : ascii) (s1 s2 : string) :
  (String ch s1 ++ s2 = String ch (s1 ++ s2))%string.
Proof. reflexivity. Qed.

Lemma str_app_nil_l (s1 : string) : ("" ++ s1 = s1)%string.
Proof. reflexivity. Qed.

Lemma str_app_assoc (s1 s2 s3 : string) :
  ((s1 ++ s2) ++ s3 = s1 ++ (s2 ++ s3))%string.
Proof.
  induction s1 as [|ch s1 IH]; [done|].
  by rewrite !str_app_cons, IH.
Qed.

Lemma str_app_nil_r (s1 : string) : (s1 ++ "" = s1)%string.
Proof.
  induction s1 as [|ch s1 IH]; [done|]. by rewrite str_app_cons, IH.
Qed.

Lemma str_length_app (s1 s2 : string) :
  String.length (s1 ++ s2)%string = (String.length s1 + String.length s2)%nat.
Proof.
  induction s1 as [|ch s1 IH]; [done|].
  rewrite str_app_cons. cbn [String.length]. by rewrite IH.
Qed.

Lemma substring_app_l (s1 s2 : string) :
  substring 0 (String.length s1) (s1 ++ s2)%string = s1.
Proof.
  induction s1 as [|ch s1 IH].
  - rewrite str_app_nil_l. by destruct s2.
  - rewrite str_app_cons. cbn [String.length substring]. by rewrite IH.
Qed.

Section Format.

Context (fmtv : Value -> string).

Lemma spaced_app (vs ws : list Value) :
  spaced fmtv (vs ++ ws) = (spaced fmtv vs ++ spaced fmtv ws)%string.
Proof.
  induction vs as [|v vs IH]; [done|].
  cbn [app spaced]. by rewrite IH, !str_app_assoc.
Qed.

Lemma spaced_concat (v : Value) (vs : list Value) :
  spaced fmtv (v :: vs) =
  (String.concat " " (map fmtv (v :: vs)) ++ " ")%string.
Proof.
  revert v. induction vs as [|w vs IH]; intros v.
  - cbn [spaced map String.concat]. by rewrite str_app_nil_r.
  - change (spaced fmtv (v :: w :: vs))
      with (fmtv v ++ " " ++ spaced fmtv (w :: vs))%string.
    rewrite IH.
    change (String.concat " " (map fmtv (v :: w :: vs)))
      with (fmtv v ++ " " ++ String.concat " " (map fmtv (w :: vs)))%string.
    by rewrite !str_app_assoc.
Qed.

Lemma walk_shape h par t (f : nat) (buf : string) :
  shape less h par t -> (depth t <= f)%nat ->
  walk fmtv f h (root_of t) buf = Ok (buf ++ spaced fmtv (vals t))%string.
Proof.
  revert par f buf. induction t as [|l IHl a x r IHr]; intros par f buf.
  - intros _ _. cbn [vals spaced root_of]. rewrite str_app_nil_r.
    by destruct f.
  - intros (Ha & Hl & Hr) Hd. cbn [depth] in Hd.
    destruct f as [|f]; [lia|]. cbn [root_of walk load].
    rewrite Ha. unfold_result. cbn [n_left n_right n_val].
    rewrite (IHl (Some a)) by (done || lia).
    rewrite (IHr (Some a)) by (done || lia).
    cbn [vals]. rewrite spaced_app. cbn [spaced].
    by rewrite !str_app_assoc.
Qed.

Lemma Truncate_last (s1 : string) :
  Truncate (s1 ++ " ") (Z.of_nat (String.length (s1 ++ " ")) - 1) = Ok s1.
Proof.
  unfold Truncate. rewrite str_length_app. cbn [String.length].
  replace (Z.of_nat (String.length s1 + 1) - 1) with
    (Z.of_nat (String.length s1)) by lia.
  rewrite Nat2Z.id, substring_app_l.
  destruct (Z.ltb_spec (Z.of_nat (String.length s1)) 0); [lia|].
  destruct (Z.ltb_spec (Z.of_nat (String.length s1 + 1))
              (Z.of_nat (String.length s1))); [lia|]. done.
Qed.

Lemma Node_String_shape h par t :
  shape less h par t -> NoDup (locs t) ->
  Node_String fmtv h (root_of t) = Ok (bracketed fmtv (vals t)).
Proof.
  intros Hs Hnd. unfold Node_String.
  destruct t as [|l a x r]; [done|]. cbn [root_of].
  change (Some a) with (root_of (Br l a x r)).
  rewrite (walk_shape _ _ _ _ _ Hs) by (by eapply depth_le_size).
  unfold_result.
  assert (∃ v vs, vals (Br l a x r) = v :: vs) as (v & vs & E).
  { rewrite vals_drop_min. by eexists _, _. }
  rewrite E, spaced_concat, <- str_app_assoc, Truncate_last.
  unfold bracketed. by rewrite str_app_assoc.
Qed.

End Format.

(** ** Subtrees *)

Lemma reach_trans h p a b n :
  reach h p a -> h !! a = Some n ->
  reach h (n_left n) b ∨ reach h (n_right n) b -> reach h p b.
Proof.
  intros Hr. revert n. induction Hr as [a m Hm|a m c Hm Hr IH|a m c Hm Hr IH];
    intros n Hn Hb.
  - rewrite Hm in Hn. injection Hn as <-.
    destruct Hb; [by eapply reach_left|by eapply reach_right].
  - eapply reach_left; [done|]. by eapply IH.
  - eapply reach_right; [done|]. by eapply IH.
Qed.

(** Every node of a well-formed tree is the root of a well-formed subtree. *)
Lemma shape_subtree h par t a :
  shape less h par t -> NoDup (locs t) -> a ∈ locs t ->
  ∃ par' l x r,
    shape less h par' (Br l a x r) ∧ NoDup (locs (Br l a x r)) ∧
    val_of t a = Some x ∧
    ∀ y, y ∈ vals (Br l a x r) -> y ∈ vals t.
Proof.
  revert par. induction t as [|l IHl c x r IHr]; intros par Hs Hnd Hin.
  { by apply elem_of_nil in Hin. }
  pose proof Hs as (Hc & Hl & Hr). pose proof Hnd as Hnd0.
  cbn [locs] in Hnd, Hin.
  apply NoDup_app in Hnd as (Hndl & Hdisj & Hndr).
  apply NoDup_cons in Hndr as (Hcr & Hndr).
  cbn [val_of]. destruct (decide (a = c)) as [->|Hne].
  { exists par, l, x, r. by split_and!. }
  apply elem_of_app in Hin as [Hin|Hin].
  - destruct (IHl _ Hl Hndl Hin) as (par' & l' & x' & r' & ? & ? & Hv & Hsub).
    exists par', l', x', r'. rewrite Hv. split_and!; [done|done|done|].
    intros y Hy. cbn [vals]. apply elem_app_l. by apply Hsub.
  - apply elem_of_cons in Hin as [?|Hin]; [done|].
    destruct (IHr _ Hr Hndr Hin) as (par' & l' & x' & r' & ? & ? & Hv & Hsub).
    exists par', l', x', r'. split_and!; [done|done| |].
    + destruct (val_of l a) as [y|] eqn:E; [|done].
      apply val_of_in in E. exfalso. apply (Hdisj a E). in_list.
    + intros y Hy. cbn [vals]. apply elem_app_r, elem_tail. by apply Hsub.
Qed.

Lemma val_of_heap h par t a x :
  shape less h par t -> val_of t a = Some x ->
  ∃ n, h !! a = Some n ∧ n_val n = x ∧ a ∈ locs t.
Proof.
  revert par. induction t as [|l IHl c y r IHr]; intros par; [done|].
  intros (Hc & Hl & Hr). cbn [val_of locs].
  destruct (decide (a = c)) as [->|Hne].
  { intros [= <-]. eexists. split_and!; [done|done|in_list]. }
  destruct (val_of l a) as [y'|] eqn:E.
  - intros [= <-]. destruct (IHl _ Hl eq_refl) as (n & ? & ? & ?).
    exists n. split_and!; [done|done|in_list].
  - intros Hv. destruct (IHr _ Hr Hv) as (n & ? & ? & ?).
    exists n. split_and!; [done|done|in_list].
Qed.

Lemma find_path_shape h par t v (f : nat) :
  shape less h par t -> (depth t <= f)%nat ->
  find_path f h (root_of t) v = Ok (path_abs less t v).
Proof.
  revert par f. induction t as [|l IHl a x r IHr]; intros par f; simpl.
  - by destruct f.
  - intros (Ha & Hl & Hr) Hd. destruct f as [|f]; [lia|]. simpl.
    rewrite Ha. unfold_result. simpl.
    destruct (less v x).
    { rewrite (IHl (Some a)) by (done || lia). done. }
    destruct (less x v); [|done].
    rewrite (IHr (Some a)) by (done || lia). done.
Qed.

(** ** The node [Find] returns *)

Lemma find_abs_val t v a :
  NoDup (locs t) -> find_abs less t v = Some a ->
  ∃ y, val_of t a = Some y ∧ equal less v y.
Proof.
  induction t as [|l IHl c x r IHr]; intros Hnd; [done|].
  cbn [locs] in Hnd.
  apply NoDup_app in Hnd as (Hndl & Hdisj & Hndr).
  apply NoDup_cons in Hndr as (Hcr & Hndr).
  cbn [find_abs val_of].
  destruct (less v x) eqn:E1.
  { intros Hf. pose proof (find_abs_in _ _ _ Hf) as Hin.
    destruct (IHl Hndl Hf) as (y & Hy & Heq). exists y.
    rewrite decide_False, Hy; [done|]. intros ->. apply (Hdisj c Hin). in_list. }
  destruct (less x v) eqn:E2.
  { intros Hf. pose proof (find_abs_in _ _ _ Hf) as Hin.
    destruct (IHr Hndr Hf) as (y & Hy & Heq). exists y.
    rewrite decide_False by (by intros ->).
    rewrite val_of_not_in; [done|]. intros Hl. apply (Hdisj a Hl). in_list. }
  intros [= <-]. exists x. by rewrite decide_True.
Qed.

Section Order2.

Hypothesis less_trans :
  ∀ x1 x2 x3, less x1 x2 = true -> less x2 x3 = true -> less x1 x3 = true.

Lemma contains_equal_find s t v :
  tree_repr less s t -> (contains_equal less s v ↔ find_abs less t v ≠ None).
Proof.
  intros (Hless & Hroot & Hs & Hnd & Hb & Hsz). split.
  - intros (a & n & Hr & Hn & Heq) Hf. rewrite Hroot in Hr.
    apply (reach_locs _ _ _ _ Hs) in Hr.
    pose proof (shape_val_in _ _ _ _ _ Hs Hr Hn) as Hin.
    by apply (find_abs_none less_trans t v (n_val n)).
  - intros Hf. destruct (find_abs less t v) as [a|] eqn:E; [|done].
    destruct (find_abs_equal _ _ _ _ _ Hs E) as (n & Hn & Heq).
    exists a, n. rewrite Hroot. split_and!; [|done|done].
    eapply locs_reach; [done|]. by eapply find_abs_in.
Qed.

(** With an irreflexive comparator, searching for a stored value finds its
    node. *)
Lemma find_abs_self t a x :
  (∀ x1, less x1 x1 = false) ->
  bst less t -> val_of t a = Some x -> find_abs less t x = Some a.
Proof.
  intros Hirr. induction t as [|l IHl c y r IHr]; [done|].
  intros (Hbl & Hbr & Hlt & Hgt). cbn [val_of find_abs].
  rewrite Forall_forall in Hlt. rewrite Forall_forall in Hgt.
  destruct (decide (a = c)) as [->|Hne].
  { intros [= <-]. by rewrite Hirr. }
  destruct (val_of l a) as [y'|] eqn:E.
  - intros [= <-]. rewrite (Hlt _ (val_of_vals _ _ _ E)). by apply IHl.
  - intros Hv. pose proof (Hgt _ (val_of_vals _ _ _ Hv)) as Hyx.
    destruct (less x y) eqn:Hxy.
    { pose proof (less_trans _ _ _ Hxy Hyx) as Hxx. by rewrite Hirr in Hxx. }
    rewrite Hyx. by apply IHr.
Qed.

(** With a comparator whose equality is transitive, [Find] has nothing to
    find once the node it found is gone. *)
Lemma find_abs_removed t v a :
  (∀ x1 x2 x3, less x1 x2 = true -> less x1 x3 = true ∨ less x3 x2 = true) ->
  bst less t -> NoDup (locs t) -> find_abs less t v = Some a ->
  find_abs less (remove_at a t) v = None.
Proof.
  intros Hco Hb Hnd Hf. pose proof (find_abs_in _ _ _ Hf) as Hin.
  destruct (find_abs_val _ _ _ Hnd Hf) as (y & Hy & Hvy & Hyv).
  destruct (remove_at_split a t Hnd Hin)
    as (k1 & k2 & w1 & y0 & w2 & E1 & E2 & E3 & E4 & E5).
  rewrite Hy in E5. injection E5 as <-.
  destruct (find_abs less (remove_at a t) v) as [a'|] eqn:E; [|done].
  exfalso.
  destruct (find_abs_val _ _ _ (remove_at_NoDup _ _ Hnd Hin) E)
    as (y' & Hy' & Hvy' & Hy'v).
  apply val_of_vals in Hy'. rewrite E4 in Hy'.
  apply (bst_sorted less_trans) in Hb. rewrite E3 in Hb.
  apply StronglySorted_app in Hb as (Hcross & _ & H2).
  apply StronglySorted_cons in H2 as (H2 & _). rewrite Forall_forall in H2.
  apply elem_of_app in Hy' as [Hy'|Hy'].
  - assert (Hlt : less y' y = true) by (apply Hcross; [done|in_list]).
    destruct (Hco _ _ v Hlt); congruence.
  - pose proof (H2 _ Hy') as Hlt.
    destruct (Hco _ _ v Hlt); congruence.
Qed.

End Order2.

(** ** RandInit inserts a permutation of its input *)

Lemma swap_head_perm (k : list nat) (r j y : nat) :
  k !! r = Some j -> j :: <[r := y]> k ≡ₚ k ++ [y].
Proof.
  intros Hr. pose proof (lookup_lt_Some _ _ _ Hr) as Hlt.
  rewrite insert_take_drop by done.
  rewrite <- (take_drop_middle k r j Hr) at 3.
  rewrite <- app_assoc. cbn [app].
  rewrite (Permutation_middle (take r k) _ j).
  apply Permutation_app_head. apply perm_skip.
  rewrite <- Permutation_cons_append. done.
Qed.

Lemma shuffle_order_perm (rnd : nat -> nat) (k : nat) :
  ∀ idx : list nat,
    (k <= length idx)%nat -> (∀ i, (i < k)%nat -> (rnd i <= i)%nat) ->
    shuffle_order rnd idx k ≡ₚ take k idx.
Proof.
  induction k as [|i IH]; intros idx Hk Hrnd; [done|].
  cbn [shuffle_order].
  pose proof (Hrnd i ltac:(lia)) as Hr.
  destruct (lookup_lt_is_Some_2 idx (rnd i) ltac:(lia)) as (j & Hj).
  destruct (lookup_lt_is_Some_2 idx i ltac:(lia)) as (ji & Hji).
  rewrite Hj, Hji. rewrite IH; cycle 1.
  { rewrite !length_insert. lia. }
  { intros i' ?. apply Hrnd. lia. }
  rewrite take_insert_ge by lia. rewrite (take_S_r _ _ _ Hji).
  destruct (decide (rnd i = i)) as [Heq|Hne].
  - rewrite Heq in *. rewrite list_insert_id by done.
    rewrite Hj in Hji. injection Hji as ->.
    by rewrite <- Permutation_cons_append.
  - rewrite take_insert_lt by lia. apply swap_head_perm.
    rewrite lookup_take_lt by lia. done.
Qed.

Lemma omap_lookup_seq (pre vs : list Value) :
  omap (fun j => (pre ++ vs) !! j) (seq (length pre) (length vs)) = vs.
Proof.
  revert pre. induction vs as [|v vs IH]; intros pre; [done|].
  cbn [length seq omap list_omap].
  rewrite lookup_app_r by lia. rewrite Nat.sub_diag. cbn [lookup list_lookup].
  f_equal. specialize (IH (pre ++ [v])).
  rewrite length_app in IH. cbn [length] in IH.
  rewrite <- app_assoc in IH. cbn [app] in IH.
  by rewrite Nat.add_1_r in IH.
Qed.

Lemma shuffled_perm (rnd : nat -> nat) (vs : list Value) :
  (∀ i, (rnd i <= i)%nat) -> shuffled rnd vs ≡ₚ vs.
Proof.
  intros Hrnd. unfold shuffled.
  rewrite shuffle_order_perm; [|by rewrite length_seq|by intros].
  rewrite firstn_all2 by (by rewrite length_seq).
  pose proof (omap_lookup_seq [] vs) as E. cbn [app length] in E.
  by rewrite E.
Qed.

Lemma randinit_loop_Init (rnd : nat -> nat) (vs : list Value) (k : nat) :
  ∀ (idx : list nat) s,
    (k <= length idx)%nat -> (∀ i, (i < k)%nat -> (rnd i <= i)%nat) ->
    (∀ j, j ∈ idx -> (j < length vs)%nat) ->
    randinit_loop rnd vs idx k s =
    Init (omap (fun j => vs !! j) (shuffle_order rnd idx k)) s.
Proof.
  induction k as [|i IH]; intros idx s Hk Hrnd Hidx; [done|].
  cbn [shuffle_order randinit_loop].
  pose proof (Hrnd i ltac:(lia)) as Hr.
  destruct (lookup_lt_is_Some_2 idx (rnd i) ltac:(lia)) as (j & Hj).
  destruct (lookup_lt_is_Some_2 idx i ltac:(lia)) as (ji & Hji).
  rewrite Hj, Hji.
  pose proof (Hidx j (list_elem_of_lookup_2 _ _ _ Hj)) as Hjlt.
  pose proof (Hidx ji (list_elem_of_lookup_2 _ _ _ Hji)) as Hjilt.
  destruct (lookup_lt_is_Some_2 vs j Hjlt) as (v & Hv).
  rewrite Hv. cbn [omap list_omap]. rewrite Hv. cbn [Init].
  unfold mbind, M_bind.
  destruct (Insert v s) as [[q s1]| |]; [|done|done].
  apply IH.
  - rewrite !length_insert. lia.
  - intros i' ?. apply Hrnd. lia.
  - intros j' Hj'. apply list_elem_of_lookup in Hj' as (i' & Hi').
    apply list_lookup_insert_Some in Hi' as [(_ & <- & _)|(_ & Hi')]; [done|].
    apply list_lookup_insert_Some in Hi' as [(_ & <- & _)|(_ & Hi')]; [done|].
    apply Hidx. by eapply list_elem_of_lookup_2.
Qed.

Lemma RandInit_Init (rnd : nat -> nat) (vs : list Value) s :
  (∀ i, (rnd i <= i)%nat) ->
  RandInit rnd vs s = Init (shuffled rnd vs) s.
Proof.
  intros Hrnd. unfold RandInit, shuffled. apply randinit_loop_Init.
  - by rewrite length_seq.
  - by intros.
  - intros j Hj. apply elem_of_seq in Hj. lia.
Qed.

(** ** Init *)

Lemma vals_ins_mono z v t y : y ∈ vals t -> y ∈ vals (ins less z v t).
Proof.
  intros Hy. destruct (find_abs less t v) eqn:E.
  - rewrite ins_found; [done|congruence].
  - rewrite (vals_ins_perm z _ _ E). by apply elem_tail.
Qed.

Lemma vals_ins_cover z v t :
  NoDup (locs t) -> less v v = false ->
  ∃ y, y ∈ vals (ins less z v t) ∧ equal less v y.
Proof.
  intros Hnd Hirr. destruct (find_abs less t v) as [a|] eqn:E.
  - destruct (find_abs_val _ _ _ Hnd E) as (y & Hy & Heq).
    exists y. split; [|done]. apply vals_ins_mono. by eapply val_of_vals.
  - exists v. split; [|by split]. rewrite (vals_ins_perm z _ _ E). in_list.
Qed.

Lemma Init_repr vs :
  ∀ s t, tree_repr less s t ->
    ∃ s' t', Init vs s = Ok (tt, s') ∧ tree_repr less s' t' ∧
      (∀ y, y ∈ vals t' -> y ∈ vals t ∨ y ∈ vs) ∧
      (∀ y, y ∈ vals t -> y ∈ vals t') ∧
      ((∀ x1, less x1 x1 = false) ->
       ∀ y, y ∈ vs -> ∃ y', y' ∈ vals t' ∧ equal less y y').
Proof.
  induction vs as [|v vs IH]; intros s t Hrep.
  { exists s, t. split_and!; [done|done|by left|done|].
    intros _ y Hy. by apply elem_of_nil in Hy. }
  destruct (Insert_repr _ _ v Hrep) as (q & s1 & Hrun & Hrep1).
  destruct (IH _ _ Hrep1) as (s' & t' & Hrun' & Hrep' & Ha & Hb & Hc).
  exists s', t'. split_and!.
  - cbn [Init]. by rewrite (bind_run _ _ _ _ _ Hrun).
  - done.
  - intros y Hy. destruct (Ha y Hy) as [Hy1|Hy1]; [|right; in_list].
    apply vals_ins_elem in Hy1 as [->|Hy1]; [right; in_list|by left].
  - intros y Hy. apply Hb. by apply vals_ins_mono.
  - intros Hirr y Hy. apply elem_of_cons in Hy as [->|Hy]; [|by apply Hc].
    destruct Hrep as (_ & _ & _ & Hnd & _).
    destruct (vals_ins_cover (fresh (dom (heap s))) v t Hnd (Hirr v))
      as (y' & Hy' & Heq).
    exists y'. split; [by apply Hb|done].
Qed.

Lemma New_repr h0 : tree_repr less (mkState h0 (New less)) Leaf.
Proof. split_and!; try done. constructor. Qed.

(** ** Strictly sorted sequences with the same classes of values *)

Section WeakOrder.

Hypothesis less_irrefl : ∀ x1, less x1 x1 = false.
Hypothesis less_trans :
  ∀ x1 x2 x3, less x1 x2 = true -> less x2 x3 = true -> less x1 x3 = true.
Hypothesis less_cotrans :
  ∀ x1 x2 x3, less x1 x2 = true -> less x1 x3 = true ∨ less x3 x2 = true.

Lemma equal_sym x y : equal less x y -> equal less y x.
Proof. intros (? & ?). by split. Qed.

Lemma less_asym x y : less x y = true -> less y x = false.
Proof.
  intros Hxy. destruct (less y x) eqn:Hyx; [|done].
  pose proof (less_trans _ _ _ Hxy Hyx) as Hxx. by rewrite less_irrefl in Hxx.
Qed.

Lemma sorted_cover (w1 : list Value) :
  ∀ w2 : list Value,
    StronglySorted (lessR less) w1 -> StronglySorted (lessR less) w2 ->
    (∀ x, x ∈ w1 -> ∃ y, y ∈ w2 ∧ equal less x y) ->
    (∀ y, y ∈ w2 -> ∃ x, x ∈ w1 ∧ equal less y x) ->
    Forall2 (equal less) w1 w2.
Proof.
  induction w1 as [|a w1 IH]; intros w2 H1 H2 C1 C2.
  { destruct w2 as [|b w2]; [constructor|].
    destruct (C2 b ltac:(in_list)) as (x & Hx & _). by apply elem_of_nil in Hx. }
  destruct w2 as [|b w2].
  { destruct (C1 a ltac:(in_list)) as (y & Hy & _). by apply elem_of_nil in Hy. }
  apply StronglySorted_cons in H1 as (Ha & H1).
  apply StronglySorted_cons in H2 as (Hb & H2).
  rewrite Forall_forall in Ha. rewrite Forall_forall in Hb.
  unfold lessR in Ha, Hb.
  assert (Hab : equal less a b).
  { destruct (C1 a ltac:(in_list)) as (y & Hy & Hay).
    apply elem_of_cons in Hy as [->|Hy]; [done|].
    destruct (C2 b ltac:(in_list)) as (x & Hx & Hbx).
    apply elem_of_cons in Hx as [->|Hx]; [by apply equal_sym|].
    exfalso. destruct Hay as (Hay & Hya). destruct Hbx as (Hbx & Hxb).
    assert (Hba : less b a = true).
    { destruct (less_cotrans _ _ a (Hb _ Hy)); [done|congruence]. }
    assert (Hab : less a b = true).
    { destruct (less_cotrans _ _ b (Ha _ Hx)); [done|congruence]. }
    pose proof (less_asym _ _ Hab). congruence. }
  constructor; [done|]. apply IH; [done|done| |].
  - intros x Hx. destruct (C1 x ltac:(in_list)) as (y & Hy & Hxy).
    apply elem_of_cons in Hy as [->|Hy]; [|by exists y].
    exfalso. destruct Hab as (Hab & Hba). destruct Hxy as (Hxb & Hbx).
    destruct (less_cotrans _ _ b (Ha _ Hx)); congruence.
  - intros y Hy. destruct (C2 y ltac:(in_list)) as (x & Hx & Hyx).
    apply elem_of_cons in Hx as [->|Hx]; [|by exists x].
    exfalso. destruct Hab as (Hab & Hba). destruct Hyx as (Hya & Hay).
    destruct (less_cotrans _ _ a (Hb _ Hy)); congruence.
Qed.

End WeakOrder.

Lemma int_wrap_range (k : Z) : int_min <= int_wrap k <= int_max.
Proof.
  unfold int_wrap, int_min, int_max.
  pose proof (Z.mod_pos_bound (k + 2 ^ 63) (2 ^ 64) ltac:(lia)). lia.
Qed.

(** * The properties of the package *)

Section Reachable.

Hypothesis less_trans :
  ∀ x1 x2 x3, less x1 x2 = true -> less x2 x3 = true -> less x1 x3 = true.

Lemma Delete_repr s t v :
  tree_repr less s t ->
  ∃ (found : bool) s' t', Delete v s = Ok (found, s') ∧ tree_repr less s' t'.
Proof.
  intros Hrep. destruct (find_abs less t v) as [a|] eqn:Hf.
  - destruct (Delete_found less_trans _ _ _ _ Hrep Hf) as (s' & Hrun & Hrep' & _).
    by exists true, s', (remove_at a t).
  - exists false, s, t. split; [|done]. by eapply Delete_missing.
Qed.

Lemma reachable_tree_inv s : reachable less s -> tree_inv less s.
Proof.
  induction 1 as [h0|s v q s' _ IH Hrun|s v found s' _ IH Hrun
                  |s vs s' _ IH Hrun|s rnd vs s' _ IH Hrnd Hrun].
  - exists Leaf. apply New_repr.
  - destruct IH as (t & Hrep).
    destruct (Insert_repr _ _ v Hrep) as (q' & s1 & Hrun1 & Hrep1).
    rewrite Hrun in Hrun1. injection Hrun1 as -> ->. by eexists.
  - destruct IH as (t & Hrep).
    destruct (Delete_repr _ _ v Hrep) as (f' & s1 & t1 & Hrun1 & Hrep1).
    rewrite Hrun in Hrun1. injection Hrun1 as -> ->. by eexists.
  - destruct IH as (t & Hrep).
    destruct (Init_repr vs _ _ Hrep) as (s1 & t1 & Hrun1 & Hrep1 & _).
    rewrite Hrun in Hrun1. injection Hrun1 as ->. by eexists.
  - destruct IH as (t & Hrep).
    rewrite RandInit_Init in Hrun by done.
    destruct (Init_repr (shuffled rnd vs) _ _ Hrep)
      as (s1 & t1 & Hrun1 & Hrep1 & _).
    rewrite Hrun in Hrun1. injection Hrun1 as ->. by eexists.
Qed.

Lemma tree_inv_heap s :
  tree_inv less s ->
  bst_heap less (heap s) (t_root (tree s)) ∧
  parent_heap (heap s) (t_root (tree s)) ∧
  size_heap s.
Proof.
  intros (t & Hrep). pose proof Hrep as (Hless & Hroot & Hs & Hnd & Hb & Hsz).
  rewrite Hroot. split_and!.
  - by eapply shape_bst_heap.
  - by eapply shape_parent_heap.
  - by eapply tree_repr_size_heap.
Qed.

(** C1. In every state reachable from [New] by [Insert], [Delete], [Init]
    and [RandInit], (1) the search-tree property holds at every node
    reachable from the root, (2) the children of every reachable node point
    back to it and the root has no parent, and (3) [size] is the number of
    nodes reachable from the root (as an [int]; exactly that number as long
    as it fits an [int]). *)
Theorem reachable_invariants s :
  reachable less s ->
  bst_heap less (heap s) (t_root (tree s)) ∧
  parent_heap (heap s) (t_root (tree s)) ∧
  size_heap s.
Proof. intros Hr. apply tree_inv_heap. by apply reachable_tree_inv. Qed.

End Reachable.

(** C9. On an empty tree the queries answer with the empty default:
    [Find], [Min] and [Max] return nil, [Contains] returns false and
    [Height] returns 0; none of them faults. *)
Theorem empty_tree_queries h (sz : Z) (lessFn : Value -> Value -> bool) v :
  Tree_Find (mkState h (mkTree None sz lessFn)) v = Ok None ∧
  Tree_Min (mkState h (mkTree None sz lessFn)) = Ok None ∧
  Tree_Max (mkState h (mkTree None sz lessFn)) = Ok None ∧
  Tree_Contains (mkState h (mkTree None sz lessFn)) v = Ok false ∧
  Tree_Height (mkState h (mkTree None sz lessFn)) = Ok 0.
Proof.
  unfold Tree_Find, Tree_Min, Tree_Max, Tree_Contains, Tree_Height, Find,
    Height. cbn [heap tree t_root Min Max].
  by destruct (size h).
Qed.

(** ** Insert, on the heap *)

Section InsertSpec.

Hypothesis less_trans :
  ∀ x1 x2 x3, less x1 x2 = true -> less x2 x3 = true -> less x1 x3 = true.

Lemma find_path_repr s t v :
  tree_repr less s t ->
  find_path (size (heap s)) (heap s) (t_root (tree s)) v =
  Ok (path_abs less t v).
Proof.
  intros (Hless & Hroot & Hs & Hnd & Hb & Hsz). rewrite Hroot.
  eapply find_path_shape; [done|]. by eapply depth_le_size.
Qed.

(** C3. [Insert v] on a well-formed tree.  If a node equal to [v] under the
    comparator is in the tree, [Insert] returns that node and the state is
    unchanged.  Otherwise it allocates a cell holding [v] without children,
    whose parent is the last node of the descent for [v]; that parent gets
    the new cell as its left child if [less v parent.val] and as its right
    child otherwise, or the new cell becomes the root when the descent
    visited no node; no other cell changes, [size] goes up by one (as an
    [int]) and the new node is returned. *)
Theorem Insert_spec s v :
  tree_inv less s ->
  (contains_equal less s v ->
   ∃ a n, Insert v s = Ok (Some a, s) ∧
          reach (heap s) (t_root (tree s)) a ∧ heap s !! a = Some n ∧
          equal less v (n_val n)) ∧
  (¬ contains_equal less s v ->
   ∃ z path s',
     find_path (size (heap s)) (heap s) (t_root (tree s)) v = Ok path ∧
     Insert v s = Ok (Some z, s') ∧
     heap s !! z = None ∧
     heap s' !! z = Some (mkNode v (last path) None None less) ∧
     match last path with
     | None => t_root (tree s) = None ∧ t_root (tree s') = Some z
     | Some pa =>
         t_root (tree s') = t_root (tree s) ∧
         ∃ pn, heap s !! pa = Some pn ∧
               heap s' !! pa =
               Some (if less v (n_val pn) then set_left pn (Some z)
                     else set_right pn (Some z))
     end ∧
     (∀ b, b ≠ z -> Some b ≠ last path -> heap s' !! b = heap s !! b) ∧
     t_size (tree s') = int_add (t_size (tree s)) 1 ∧
     (t_size (tree s) < int_max -> t_size (tree s') = t_size (tree s) + 1) ∧
     t_lessFn (tree s') = t_lessFn (tree s) ∧
     tree_inv less s').
Proof.
  intros (t & Hrep). split.
  - intros Hc. apply (contains_equal_find less_trans _ _ _ Hrep) in Hc.
    destruct (find_abs less t v) as [a|] eqn:Hf; [|done].
    pose proof Hrep as (Hless & Hroot & Hs & Hnd & Hb & Hsz).
    destruct (find_abs_equal _ _ _ _ _ Hs Hf) as (n & Hn & Heq).
    exists a, n. split_and!; [by eapply Insert_found| |done|done].
    rewrite Hroot. eapply locs_reach; [done|]. by eapply find_abs_in.
  - intros Hc.
    assert (Hf : find_abs less t v = None).
    { destruct (find_abs less t v) eqn:E; [|done]. exfalso. apply Hc.
      apply (contains_equal_find less_trans _ _ _ Hrep). congruence. }
    destruct (Insert_fresh _ _ _ Hrep Hf)
      as (par & Hd & Hz & Hpar & Hleaf & Hrun & Hsh).
    destruct (Insert_repr _ _ v Hrep) as (q & s1 & Hrun1 & Hrep1).
    rewrite Hrun in Hrun1. injection Hrun1 as <- <-.
    assert (Hinv : tree_inv less
              (mkState (attach less (heap s) par (fresh (dom (heap s))) v)
                 (mkTree match par with
                         | Some _ => t_root (tree s)
                         | None => Some (fresh (dom (heap s)))
                         end (int_add (t_size (tree s)) 1) less)))
      by (by eexists).
    pose proof (descend_abs_last _ _ _ _ Hd) as Hlast.
    assert (Hpl : par = last (path_abs less t v)).
    { rewrite Hlast. by destruct (last (path_abs less t v)). }
    pose proof Hrep as (Hless & Hroot & Hs & Hnd & Hb & Hsz).
    set (z := fresh (dom (heap s))) in *.
    eexists z, (path_abs less t v), _.
    split; [by eapply find_path_repr|]. split; [exact Hrun|].
    split; [done|]. rewrite <- Hpl. cbn [heap tree t_root t_size t_lessFn].
    destruct par as [pa|].
    + destruct (shape_lookup _ _ _ _ Hs (Hpar pa eq_refl)) as (pn & Hpn & _).
      assert (Hzpa : z ≠ pa) by (intros Heq; rewrite Heq in Hz; congruence).
      unfold attach in Hinv |- *. rewrite Hpn in Hinv |- *. split_and!.
      * rewrite lookup_insert_ne by done. by rewrite lookup_insert_eq.
      * done.
      * exists pn. split; [done|]. by rewrite lookup_insert_eq.
      * intros b Hbz Hbp. rewrite !lookup_insert_ne; [done|congruence|congruence].
      * done.
      * intros Hlt. unfold int_add. apply int_wrap_small.
        pose proof (int_wrap_range (Z.of_nat (length (locs t)))) as Hrg.
        rewrite <- Hsz in Hrg. unfold int_min, int_max in *. lia.
      * done.
      * exact Hinv.
    + unfold attach. split_and!.
      * by rewrite lookup_insert_eq.
      * rewrite Hroot, (Hleaf eq_refl). done.
      * done.
      * intros b Hbz _. by rewrite lookup_insert_ne.
      * done.
      * intros Hlt. unfold int_add. apply int_wrap_small.
        pose proof (int_wrap_range (Z.of_nat (length (locs t)))) as Hrg.
        rewrite <- Hsz in Hrg. unfold int_min, int_max in *. lia.
      * done.
      * exact Hinv.
Qed.

End InsertSpec.

(** ** Delete, on the heap *)

Section DeleteSpec.

Hypothesis less_trans :
  ∀ x1 x2 x3, less x1 x2 = true -> less x2 x3 = true -> less x1 x3 = true.

Section Cotransitive.

Hypothesis less_cotrans :
  ∀ x1 x2 x3, less x1 x2 = true -> less x1 x3 = true ∨ less x3 x2 = true.

(** C4. [Delete v] on a well-formed tree returns true exactly when the tree
    holds a node equal to [v] under the comparator.  When it returns false
    the state is unchanged.  When it returns true, [size] goes down by one
    (as an [int]), the tree has one node less, and a second [Delete v]
    returns false. *)
Theorem Delete_spec s v :
  tree_inv less s ->
  ∃ (found : bool) s',
    Delete v s = Ok (found, s') ∧
    (found = true ↔ contains_equal less s v) ∧
    (found = false -> s' = s) ∧
    (found = true ->
     t_size (tree s') = int_sub (t_size (tree s)) 1 ∧
     (int_min < t_size (tree s) ->
      t_size (tree s') = t_size (tree s) - 1) ∧
     (∃ ls ls', nodes (heap s) (t_root (tree s)) = Ok ls ∧
                nodes (heap s') (t_root (tree s')) = Ok ls' ∧
                length ls = S (length ls')) ∧
     Delete v s' = Ok (false, s')).
Proof.
  intros (t & Hrep).
  pose proof (contains_equal_find less_trans _ _ v Hrep) as Hce.
  destruct (find_abs less t v) as [a|] eqn:Hf.
  - destruct (Delete_found less_trans _ _ _ _ Hrep Hf)
      as (s' & Hrun & Hrep' & Hfr).
    exists true, s'. split; [done|]. split; [|split; [done|]].
    { split; [intros _; by apply Hce|done]. }
    intros _.
    pose proof Hrep as (Hless & Hroot & Hs & Hnd & Hb & Hsz).
    pose proof Hrep' as (Hless' & Hroot' & Hs' & Hnd' & Hb' & Hsz').
    pose proof (find_abs_in _ _ _ Hf) as Hin.
    pose proof (remove_at_length a t Hnd Hin) as Hlen.
    assert (Hsub : t_size (tree s') = int_sub (t_size (tree s)) 1).
    { rewrite Hsz', Hsz. unfold int_sub.
      replace (int_wrap (Z.of_nat (length (locs t))) - 1)
        with (int_wrap (Z.of_nat (length (locs t))) + -1) by lia.
      rewrite int_wrap_add_l. f_equal. lia. }
    split_and!.
    + done.
    + intros Hlt. rewrite Hsub. unfold int_sub. apply int_wrap_small.
      pose proof (int_wrap_range (Z.of_nat (length (locs t)))) as Hrg.
      rewrite <- Hsz in Hrg. unfold int_min, int_max in *. lia.
    + exists (locs t), (locs (remove_at a t)). rewrite Hroot, Hroot'.
      split_and!; [by eapply nodes_shape|by eapply nodes_shape|done].
    + eapply Delete_missing; [done|].
      by apply (find_abs_removed less_trans).
  - exists false, s. split; [by eapply Delete_missing|].
    split; [|split; [done|done]].
    split; [done|]. intros Hc. by apply Hce in Hc.
Qed.

End Cotransitive.

Section Irreflexive.

Hypothesis less_irrefl : ∀ x1, less x1 x1 = false.

(** C2. Deleting the value of a node with two children from a well-formed
    tree returns true and takes exactly that value out of the in-order
    sequence; every value of the node's right subtree is in the new
    sequence, whether the successor is the right child or lies deeper; the
    result is well-formed again. *)
Theorem Delete_two_children s a n :
  tree_inv less s ->
  reach (heap s) (t_root (tree s)) a -> heap s !! a = Some n ->
  n_left n ≠ None -> n_right n ≠ None ->
  ∃ s' (w1 w2 : list Value),
    Delete (n_val n) s = Ok (true, s') ∧
    inorder (heap s) (t_root (tree s)) = Ok (w1 ++ n_val n :: w2) ∧
    inorder (heap s') (t_root (tree s')) = Ok (w1 ++ w2) ∧
    (∀ b m, reach (heap s) (n_right n) b -> heap s !! b = Some m ->
            n_val m ∈ w1 ++ w2) ∧
    tree_inv less s'.
Proof.
  intros (t & Hrep) Hreach Hn _ _.
  pose proof Hrep as (Hless & Hroot & Hs & Hnd & Hb & Hsz).
  rewrite Hroot in Hreach. pose proof (reach_locs _ _ _ _ Hs Hreach) as Hin.
  destruct (shape_subtree _ _ _ _ Hs Hnd Hin)
    as (par' & l & x & r & Hsub & _ & Hval & _).
  destruct (val_of_heap _ _ _ _ _ Hs Hval) as (n' & Hn' & Hx & _).
  rewrite Hn in Hn'. injection Hn' as <-. subst x.
  pose proof (find_abs_self less_trans _ _ _ less_irrefl Hb Hval) as Hf.
  destruct (Delete_found less_trans _ _ _ _ Hrep Hf)
    as (s' & Hrun & Hrep' & Hfr).
  pose proof Hrep' as (Hless' & Hroot' & Hs' & Hnd' & Hb' & Hsz').
  destruct (remove_at_split a t Hnd Hin)
    as (k1 & k2 & w1 & y & w2 & E1 & E2 & E3 & E4 & E5).
  rewrite Hval in E5. injection E5 as <-.
  exists s', w1, w2. split_and!.
  - done.
  - rewrite Hroot, <- E3. by eapply inorder_shape.
  - rewrite Hroot', <- E4. by eapply inorder_shape.
  - intros b m Hb1 Hm.
    assert (Hrb : reach (heap s) (root_of t) b)
      by (eapply reach_trans; [exact Hreach|exact Hn|by right]).
    pose proof (shape_val_in _ _ _ _ _ Hs (reach_locs _ _ _ _ Hs Hrb) Hm) as Hv.
    rewrite E3 in Hv.
    destruct (shape_bst_heap _ _ _ Hs Hb a n Hreach Hn) as (_ & Hgt).
    pose proof (Hgt b m Hb1 Hm) as Hlt.
    apply elem_of_app in Hv as [Hv|Hv]; [by apply elem_app_l|].
    apply elem_of_cons in Hv as [Hv|Hv]; [|by apply elem_app_r].
    rewrite Hv, less_irrefl in Hlt. done.
  - by eexists.
Qed.

End Irreflexive.

End DeleteSpec.

(** ** Walking the tree with Next and Prev *)

Lemma vals_at_reverse h (ls : list loc) (ws : list Value) :
  vals_at h ls = Ok ws -> vals_at h (reverse ls) = Ok (reverse ws).
Proof.
  revert ws. induction ls as [|a ls IH]; intros ws; simpl.
  - by intros [= <-].
  - unfold_result. destruct (h !! a) as [n|] eqn:Hn; [|done].
    destruct (vals_at h ls) as [w| |] eqn:E; try done.
    intros [= <-]. rewrite !reverse_cons.
    apply vals_at_app; [by apply IH|]. simpl. rewrite Hn. by unfold_result.
Qed.

Section Traversal.

Hypothesis less_trans :
  ∀ x1 x2 x3, less x1 x2 = true -> less x2 x3 = true -> less x1 x3 = true.

(** C5. On a well-formed tree, starting at [Min()] and calling [Next] until
    it yields nil visits the nodes reachable from the root in order, each
    exactly once, their values strictly ascending, and [Next] yields nil at
    the last of them; starting at [Max()] and calling [Prev] visits the same
    nodes in the opposite order, and [Prev] yields nil at the first. *)
Theorem Next_Prev_walk s :
  tree_inv less s ->
  ∃ (ls : list loc) (ws : list Value),
    ascend s = Ok ls ∧ descend s = Ok (reverse ls) ∧
    NoDup ls ∧ (∀ a, a ∈ ls ↔ reach (heap s) (t_root (tree s)) a) ∧
    vals_at (heap s) ls = Ok ws ∧ StronglySorted (lessR less) ws ∧
    vals_at (heap s) (reverse ls) = Ok (reverse ws) ∧
    (∀ a, last ls = Some a -> Next (heap s) (Some a) = Ok None) ∧
    (∀ a, head ls = Some a -> Prev (heap s) (Some a) = Ok None).
Proof.
  intros (t & Hrep). pose proof Hrep as (Hless & Hroot & Hs & Hnd & Hb & Hsz).
  exists (locs t), (vals t). split_and!.
  - by apply ascend_repr.
  - by apply descend_repr.
  - done.
  - intros a. rewrite Hroot.
    split; [by eapply locs_reach|by eapply reach_locs].
  - by eapply vals_at_shape.
  - by apply bst_sorted.
  - apply vals_at_reverse. by eapply vals_at_shape.
  - intros a Ha. eapply Next_last; [done| |done]. by eapply depth_le_size.
  - intros a Ha. eapply Prev_first; [done| |done]. by eapply depth_le_size.
Qed.

End Traversal.

(** ** String *)

Section StringSpec.

Context (fmtv : Value -> string).

Lemma reach_subtree s t a :
  tree_repr less s t -> reach (heap s) (t_root (tree s)) a ->
  ∃ par' l x r, shape less (heap s) par' (Br l a x r) ∧
                NoDup (locs (Br l a x r)).
Proof.
  intros (Hless & Hroot & Hs & Hnd & Hb & Hsz) Hr. rewrite Hroot in Hr.
  destruct (shape_subtree _ _ _ _ Hs Hnd (reach_locs _ _ _ _ Hs Hr))
    as (par' & l & x & r & ? & ? & _).
  by exists par', l, x, r.
Qed.

(** C7. [String] of a nil node is "[]".  On a well-formed tree,
    [Tree.String] and [Node.String] of any node of the tree return the
    in-order values of the (sub)tree, each rendered by [%v], separated by
    single spaces and enclosed in brackets. *)
Theorem String_format s :
  tree_inv less s ->
  Node_String fmtv (heap s) None = Ok "[]"%string ∧
  (∃ ws, inorder (heap s) (t_root (tree s)) = Ok ws ∧
         Tree_String fmtv s = Ok (bracketed fmtv ws)) ∧
  (∀ a, reach (heap s) (t_root (tree s)) a ->
        ∃ ws, inorder (heap s) (Some a) = Ok ws ∧
              Node_String fmtv (heap s) (Some a) = Ok (bracketed fmtv ws)).
Proof.
  intros (t & Hrep). pose proof Hrep as (Hless & Hroot & Hs & Hnd & Hb & Hsz).
  split_and!.
  - done.
  - exists (vals t). unfold Tree_String. rewrite Hroot.
    split; [by eapply inorder_shape|by eapply Node_String_shape].
  - intros a Hr.
    destruct (reach_subtree _ _ _ Hrep Hr) as (par' & l & x & r & Hs' & Hnd').
    exists (vals (Br l a x r)).
    change (Some a) with (root_of (Br l a x r)).
    split; [by eapply inorder_shape|by eapply Node_String_shape].
Qed.

Lemma spaced_last (v : Value) (ws : list Value) :
  ∃ (pre : string) (x : Value),
    spaced fmtv (v :: ws) = (pre ++ fmtv x ++ " ")%string.
Proof.
  revert v. induction ws as [|w ws IH]; intros v.
  - exists ""%string, v. cbn [spaced]. by rewrite str_app_nil_r.
  - destruct (IH w) as (pre & x & E).
    exists (fmtv v ++ " " ++ pre)%string, x.
    change (spaced fmtv (v :: w :: ws))
      with (fmtv v ++ " " ++ spaced fmtv (w :: ws))%string.
    by rewrite E, !str_app_assoc.
Qed.

(** C10. [String] returns on every node of a well-formed tree and on nil.
    For nil the result is "[]".  For a node of the tree the walk leaves in
    the buffer the opening bracket and at least one value followed by a
    space, so that the argument of [Truncate], the length less one, is not
    negative and [Truncate] does not panic. *)
Theorem String_total s :
  tree_inv less s ->
  Node_String fmtv (heap s) None = Ok "[]"%string ∧
  (∀ a, reach (heap s) (t_root (tree s)) a ->
     ∃ (buf pre out : string) (x : Value),
       walk fmtv (size (heap s)) (heap s) (Some a) "[" = Ok buf ∧
       buf = ("[" ++ pre ++ fmtv x ++ " ")%string ∧
       0 <= Z.of_nat (String.length buf) - 1 ∧
       Truncate buf (Z.of_nat (String.length buf) - 1) = Ok out ∧
       Node_String fmtv (heap s) (Some a) = Ok (out ++ "]")%string).
Proof.
  intros (t & Hrep). split; [done|]. intros a Hr.
  destruct (reach_subtree _ _ _ Hrep Hr) as (par' & l & x & r & Hs' & Hnd').
  assert (Hw : walk fmtv (size (heap s)) (heap s) (Some a) "[" =
               Ok ("[" ++ spaced fmtv (vals (Br l a x r)))%string).
  { change (Some a) with (root_of (Br l a x r)).
    eapply walk_shape; [done|]. by eapply depth_le_size. }
  assert (∃ v ws, vals (Br l a x r) = v :: ws) as (v & ws & E)
    by (rewrite vals_drop_min; by eexists _, _).
  rewrite E in Hw. destruct (spaced_last v ws) as (pre & y & Hsp).
  rewrite Hsp in Hw.
  assert (Htr : Truncate ("[" ++ pre ++ fmtv y ++ " ")
                  (Z.of_nat (String.length ("[" ++ pre ++ fmtv y ++ " ")) - 1)
                = Ok ("[" ++ pre ++ fmtv y)%string).
  { rewrite <- (Truncate_last ("[" ++ pre ++ fmtv y)).
    by rewrite !str_app_assoc. }
  eexists _, pre, _, y. split_and!.
  - exact Hw.
  - done.
  - rewrite !str_length_app. cbn [String.length]. lia.
  - exact Htr.
  - unfold Node_String. rewrite Hw. unfold_result. by rewrite Htr.
Qed.

End StringSpec.

(** ** RandInit against Init *)

Section RandInitSpec.

Hypothesis less_irrefl : ∀ x1, less x1 x1 = false.
Hypothesis less_trans :
  ∀ x1 x2 x3, less x1 x2 = true -> less x2 x3 = true -> less x1 x3 = true.
Hypothesis less_cotrans :
  ∀ x1 x2 x3, less x1 x2 = true -> less x1 x3 = true ∨ less x3 x2 = true.

Lemma Forall2_equal_eq (w1 w2 : list Value) :
  (∀ x1 x2, equal less x1 x2 -> x1 = x2) ->
  Forall2 (equal less) w1 w2 -> w1 = w2.
Proof.
  intros Heq. induction 1 as [|x1 x2 w1 w2 Hx _ IH]; [done|].
  by rewrite (Heq _ _ Hx), IH.
Qed.

(** C6. With draws [rnd i] between 0 and [i], [RandInit vs] runs [Insert]
    on the elements of [vs], each once, in the order of a permutation of
    [vs].  Started on an empty tree it ends with the size [Init vs] ends
    with, and the two in-order sequences, both strictly ascending, have
    equal values position by position under the comparator's equality: the
    same sequences, and so the same stored values, when that equality is
    identity. *)
Theorem RandInit_as_Init (rnd : nat -> nat) (vs : list Value) h0 :
  (∀ i, (rnd i <= i)%nat) ->
  ∃ (ord : list Value) s1 s2 (w1 w2 : list Value),
    ord ≡ₚ vs ∧
    (∀ s, RandInit rnd vs s = Init ord s) ∧
    RandInit rnd vs (mkState h0 (New less)) = Ok (tt, s1) ∧
    Init vs (mkState h0 (New less)) = Ok (tt, s2) ∧
    Len s1 = Len s2 ∧
    inorder (heap s1) (t_root (tree s1)) = Ok w1 ∧
    inorder (heap s2) (t_root (tree s2)) = Ok w2 ∧
    StronglySorted (lessR less) w1 ∧ StronglySorted (lessR less) w2 ∧
    Forall2 (equal less) w1 w2 ∧
    ((∀ x1 x2, equal less x1 x2 -> x1 = x2) -> w1 = w2).
Proof.
  intros Hrnd. pose proof (shuffled_perm rnd vs Hrnd) as Hperm.
  destruct (Init_repr (shuffled rnd vs) _ _ (New_repr h0))
    as (s1 & t1 & Hrun1 & Hrep1 & Ha1 & _ & Hc1).
  destruct (Init_repr vs _ _ (New_repr h0))
    as (s2 & t2 & Hrun2 & Hrep2 & Ha2 & _ & Hc2).
  pose proof Hrep1 as (_ & Hroot1 & Hs1 & Hnd1 & Hb1 & Hsz1).
  pose proof Hrep2 as (_ & Hroot2 & Hs2 & Hnd2 & Hb2 & Hsz2).
  assert (HF : Forall2 (equal less) (vals t1) (vals t2)).
  { apply (sorted_cover less_irrefl less_trans less_cotrans).
    - by apply bst_sorted.
    - by apply bst_sorted.
    - intros x Hx. destruct (Ha1 x Hx) as [Hx'|Hx'].
      { by apply elem_of_nil in Hx'. }
      apply (Hc2 less_irrefl). by rewrite <- Hperm.
    - intros y Hy. destruct (Ha2 y Hy) as [Hy'|Hy'].
      { by apply elem_of_nil in Hy'. }
      apply (Hc1 less_irrefl). by rewrite Hperm. }
  exists (shuffled rnd vs), s1, s2, (vals t1), (vals t2). split_and!.
  - done.
  - intros s. by apply RandInit_Init.
  - by rewrite RandInit_Init.
  - done.
  - unfold Len. rewrite Hsz1, Hsz2, <- !vals_length.
    by rewrite (Forall2_length _ _ _ HF).
  - rewrite Hroot1. by eapply inorder_shape.
  - rewrite Hroot2. by eapply inorder_shape.
  - by apply bst_sorted.
  - by apply bst_sorted.
  - done.
  - intros Heq. by apply Forall2_equal_eq.
Qed.

End RandInitSpec.

(** ** Height *)

Lemma height_chain t :
  right_chain t -> Z.of_nat (length (locs t)) <= int_max ->
  height_abs t = Z.of_nat (length (locs t)).
Proof.
  induction t as [|l _ a x r IH]; [done|].
  intros (-> & Hr). cbn [locs app length height_abs]. intros Hle.
  rewrite Nat2Z.inj_succ in *.
  rewrite IH by (done || lia). unfold maxInt, int_add.
  destruct (Z.ltb_spec 0 (Z.of_nat (length (locs r))));
    rewrite int_wrap_small; unfold int_min, int_max in *; lia.
Qed.

Section HeightSpec.

Hypothesis less_irrefl : ∀ x1, less x1 x1 = false.
Hypothesis less_trans :
  ∀ x1 x2 x3, less x1 x2 = true -> less x2 x3 = true -> less x1 x3 = true.

Lemma ins_chain z v t :
  right_chain t -> (∀ y, y ∈ vals t -> less y v = true) ->
  right_chain (ins less z v t) ∧ find_abs less t v = None.
Proof.
  induction t as [|l _ a x r IH]; [done|].
  intros (-> & Hr) Hlt. cbn [ins find_abs].
  pose proof (Hlt x ltac:(cbn [vals]; in_list)) as Hxv.
  rewrite (less_asym less_irrefl less_trans _ _ Hxv), Hxv.
  destruct IH as (Hc & Hf); [done| |by split].
  intros y Hy. apply Hlt. cbn [vals]. in_list.
Qed.

Lemma Init_sorted_chain vs :
  ∀ s t, tree_repr less s t -> right_chain t ->
    (∀ y y', y ∈ vals t -> y' ∈ vs -> less y y' = true) ->
    StronglySorted (lessR less) vs ->
    ∃ s' t', Init vs s = Ok (tt, s') ∧ tree_repr less s' t' ∧
      right_chain t' ∧
      length (locs t') = (length (locs t) + length vs)%nat.
Proof.
  induction vs as [|v vs IH]; intros s t Hrep Hch Hlt Hsort.
  { exists s, t. split_and!; [done|done|done|simpl; lia]. }
  apply StronglySorted_cons in Hsort as (Hv & Hsort).
  rewrite Forall_forall in Hv.
  destruct (Insert_repr _ _ v Hrep) as (q & s1 & Hrun & Hrep1).
  destruct (ins_chain (fresh (dom (heap s))) v t Hch) as (Hch1 & Hf).
  { intros y Hy. apply Hlt; [done|in_list]. }
  destruct (IH _ _ Hrep1 Hch1) as (s' & t' & Hrun' & Hrep' & Hch' & Hlen);
    [|done|].
  { intros y y' Hy Hy'. apply vals_ins_elem in Hy as [->|Hy].
    - by apply Hv.
    - apply Hlt; [done|in_list]. }
  exists s', t'. split_and!; [|done|done|].
  - cbn [Init]. by rewrite (bind_run _ _ _ _ _ Hrun).
  - rewrite Hlen, (locs_ins_perm _ _ _ Hf). simpl. lia.
Qed.

(** C8, as the code has it.  [Height] of nil is 0, and [Height] of a node
    is one more than the larger of the heights of its children, so that a
    tree of one node has height 1; a tree built by [Init] from a strictly
    ascending slice of length [n] has height [n]. *)
Theorem Height_spec :
  (∀ h, Height h None = Ok 0) ∧
  (∀ s a n, tree_inv less s ->
     reach (heap s) (t_root (tree s)) a -> heap s !! a = Some n ->
     ∃ hl hr, Height (heap s) (n_left n) = Ok hl ∧
              Height (heap s) (n_right n) = Ok hr ∧
              Height (heap s) (Some a) = Ok (int_add 1 (maxInt hl hr))) ∧
  (∀ h0 v, ∃ q s', Insert v (mkState h0 (New less)) = Ok (q, s') ∧
                   Tree_Height s' = Ok 1) ∧
  (∀ h0 (vs : list Value),
     StronglySorted (lessR less) vs -> Z.of_nat (length vs) <= int_max ->
     ∃ s', Init vs (mkState h0 (New less)) = Ok (tt, s') ∧
           Tree_Height s' = Ok (Z.of_nat (length vs))).
Proof.
  split_and!.
  - intros h. unfold Height. by destruct (size h).
  - intros s a n (t & Hrep) Hr Hn.
    destruct (reach_subtree _ _ _ Hrep Hr) as (par' & l & x & r & Hs' & Hnd').
    pose proof Hs' as (Ha & Hl & Hrr). rewrite Ha in Hn. injection Hn as <-.
    pose proof (Height_shape _ _ _ Hs' Hnd') as Hh.
    cbn [locs] in Hnd'. apply NoDup_app in Hnd' as (Hndl & _ & Hndr).
    apply NoDup_cons in Hndr as (_ & Hndr). cbn [n_left n_right].
    exists (height_abs l), (height_abs r). split_and!.
    + by eapply Height_shape.
    + by eapply Height_shape.
    + exact Hh.
  - intros h0 v.
    destruct (Insert_repr _ _ v (New_repr h0)) as (q & s' & Hrun & Hrep').
    exists q, s'. split; [done|].
    pose proof Hrep' as (_ & Hroot & Hs & Hnd & _).
    unfold Tree_Height. rewrite Hroot. by rewrite (Height_shape _ _ _ Hs Hnd).
  - intros h0 vs Hsort Hle.
    destruct (Init_sorted_chain vs _ _ (New_repr h0) I) as
      (s' & t' & Hrun & Hrep' & Hch & Hlen); [|done|].
    { intros y y' Hy. by apply elem_of_nil in Hy. }
    exists s'. split; [done|].
    pose proof Hrep' as (_ & Hroot & Hs & Hnd & _).
    unfold Tree_Height. rewrite Hroot, (Height_shape _ _ _ Hs Hnd).
    cbn [locs length] in Hlen. rewrite height_chain; [by rewrite Hlen|done|].
    by rewrite Hlen.
Qed.

End HeightSpec.

(** * Further properties of the package *)

(** ** Slice *)

Lemma splice_length {A : Type} (array : list A) (i : nat) (ws : list A) :
  (i + length ws <= length array)%nat ->
  length (splice array i ws) = length array.
Proof.
  intros Hle. unfold splice.
  rewrite !length_app, length_take, length_drop. lia.
Qed.

Lemma splice_nil {A : Type} (array : list A) (i : nat) :
  splice array i [] = array.
Proof.
  unfold splice. cbn [length app]. rewrite Nat.add_0_r. apply take_drop.
Qed.

Lemma splice_insert {A : Type} (array : list A) (i : nat) (y : A) :
  (i < length array)%nat -> <[i := y]> array = splice array i [y].
Proof.
  intros Hlt. unfold splice. cbn [length app].
  rewrite Nat.add_1_r. by apply insert_take_drop.
Qed.

Lemma splice_app {A : Type} (array : list A) (i : nat) (w1 w2 : list A) :
  (i + length w1 + length w2 <= length array)%nat ->
  splice (splice array i w1) (i + length w1) w2 = splice array i (w1 ++ w2).
Proof.
  intros Hle.
  assert (Hi : length (take i array) = i) by (rewrite length_take; lia).
  assert (Hx : (i + length w1)%nat = length (take i array ++ w1))
    by (by rewrite length_app, Hi).
  assert (E : splice array i w1 = (take i array ++ w1) ++
                                  drop (i + length w1) array)
    by (unfold splice; by rewrite <- app_assoc).
  unfold splice at 1. rewrite E.
  rewrite (take_app_length' _ _ _ Hx).
  rewrite (drop_app_add' _ _ _ _ Hx), drop_drop.
  unfold splice. rewrite length_app, <- !app_assoc.
  by rewrite Nat.add_assoc.
Qed.

Lemma splice_all {A : Type} (array ws : list A) :
  length ws = length array -> splice array 0 ws = ws.
Proof.
  intros Hlen. unfold splice. cbn [take app Nat.add].
  rewrite drop_ge by lia. apply app_nil_r.
Qed.

Lemma slice_rec_shape h par t (f : nat) :
  shape less h par t -> (depth t <= f)%nat ->
  ∀ (i : nat) (array : list (option Value)),
    (i + length (locs t) <= length array)%nat ->
    Z.of_nat (i + length (locs t)) <= int_max ->
    slice_rec f h (root_of t) (Z.of_nat i) array =
    Ok (Z.of_nat (i + length (locs t)), splice array i (Some <$> vals t)).
Proof.
  revert par f. induction t as [|l IHl a x r IHr]; intros par f.
  - intros _ _ i array _ _. cbn [root_of locs vals fmap list_fmap length].
    rewrite splice_nil, Nat.add_0_r. by destruct f.
  - intros (Ha & Hl & Hr) Hd i array Hlen Hmax. cbn [depth] in Hd.
    destruct f as [|f]; [lia|]. cbn [locs vals] in *.
    rewrite length_app in Hlen, Hmax. cbn [length] in Hlen, Hmax.
    cbn [root_of slice_rec load]. rewrite Ha. unfold_result.
    cbn [n_left n_right n_val].
    assert (Hleft : match root_of l with
                    | Some _ => slice_rec f h (root_of l) (Z.of_nat i) array
                    | None => Ok (Z.of_nat i, array)
                    end =
                    Ok (Z.of_nat (i + length (locs l)),
                        splice array i (Some <$> vals l))).
    { destruct l as [|ll la lx lr].
      - cbn [root_of locs vals fmap list_fmap length].
        by rewrite splice_nil, Nat.add_0_r.
      - cbn [root_of]. change (Some la) with (root_of (Br ll la lx lr)).
        apply (IHl (Some a)); [done|lia|lia|lia]. }
    rewrite Hleft.
    set (i1 := (i + length (locs l))%nat).
    set (a1 := splice array i (Some <$> vals l)).
    assert (Hl1 : length a1 = length array).
    { unfold a1. apply splice_length. rewrite length_fmap, vals_length. lia. }
    destruct (Z.ltb_spec (Z.of_nat i1) 0); [lia|].
    destruct (Z.leb_spec (Z.of_nat (length a1)) (Z.of_nat i1));
      [unfold i1 in *; lia|].
    cbn [orb]. rewrite Nat2Z.id.
    assert (Hi2 : int_add (Z.of_nat i1) 1 = Z.of_nat (S i1)).
    { unfold int_add. rewrite int_wrap_small; [lia|].
      unfold int_min, int_max, i1 in *. lia. }
    rewrite Hi2.
    rewrite (splice_insert a1 i1) by (unfold i1 in *; lia).
    assert (Hmid : splice a1 i1 [Some x] =
                   splice array i (Some <$> (vals l ++ [x]))).
    { unfold a1, i1. rewrite fmap_app.
      rewrite <- (vals_length l), <- (length_fmap Some (vals l)).
      apply splice_app. rewrite !length_fmap, ?vals_length. cbn [length]. lia. }
    rewrite Hmid.
    assert (Hright : match root_of r with
                     | Some _ =>
                         slice_rec f h (root_of r) (Z.of_nat (S i1))
                           (splice array i (Some <$> (vals l ++ [x])))
                     | None =>
                         Ok (Z.of_nat (S i1),
                             splice array i (Some <$> (vals l ++ [x])))
                     end =
                     Ok (Z.of_nat (S i1 + length (locs r)),
                         splice (splice array i (Some <$> (vals l ++ [x])))
                           (S i1) (Some <$> vals r))).
    { assert (Hlen' : length (splice array i (Some <$> (vals l ++ [x])))
                      = length array).
      { apply splice_length. rewrite length_fmap, length_app, vals_length.
        cbn [length]. lia. }
      destruct r as [|rl ra rx rr].
      - cbn [root_of locs vals fmap list_fmap length].
        by rewrite splice_nil, Nat.add_0_r.
      - cbn [root_of]. change (Some ra) with (root_of (Br rl ra rx rr)).
        apply (IHr (Some a)); [done|lia| |unfold i1; lia].
        rewrite Hlen'. unfold i1. lia. }
    rewrite Hright. f_equal. f_equal.
    + rewrite length_app. cbn [length]. unfold i1. lia.
    + change (list_fmap Value (option Value) Some (vals l ++ x :: vals r))
        with (Some <$> (vals l ++ x :: vals r)).
      replace (S i1) with (i + length (Some <$> (vals l ++ [x])))%nat
        by (rewrite length_fmap, length_app, vals_length; cbn [length];
            unfold i1; lia).
      rewrite splice_app.
      * by rewrite <- fmap_app, <- app_assoc.
      * rewrite !length_fmap, length_app, !vals_length. cbn [length]. lia.
Qed.


Lemma Slice_repr s t :
  tree_repr less s t -> Z.of_nat (length (locs t)) <= int_max ->
  Slice s = Ok (Some <$> vals t) ∧ Len s = Z.of_nat (length (locs t)).
Proof.
  intros (Hless & Hroot & Hs & Hnd & Hb & Hsz) Hmax.
  assert (HLen : Len s = Z.of_nat (length (locs t))).
  { unfold Len. rewrite Hsz. apply int_wrap_small. unfold int_min. lia. }
  split; [|done]. unfold Slice. rewrite HLen, Hroot.
  destruct (Z.ltb_spec (Z.of_nat (length (locs t))) 0); [lia|].
  rewrite Nat2Z.id.
  pose proof (slice_rec_shape _ _ _ (size (heap s)) Hs
                (depth_le_size _ _ _ Hs Hnd) 0
                (replicate (length (locs t)) None)) as Hrun.
  change (Z.of_nat 0) with 0 in Hrun. rewrite Nat.add_0_l in Hrun.
  rewrite Hrun.
  - unfold_result. f_equal. apply splice_all.
    by rewrite length_fmap, vals_length, length_replicate.
  - by rewrite length_replicate.
  - done.
Qed.

(** X1. On a well-formed tree whose node count fits an [int], [Slice]
    returns the in-order values, none of its cells left nil, and [Len] is
    their number. *)
Theorem Slice_inorder s (ws : list Value) :
  tree_inv less s ->
  inorder (heap s) (t_root (tree s)) = Ok ws ->
  Z.of_nat (length ws) <= int_max ->
  Slice s = Ok (Some <$> ws) ∧ Len s = Z.of_nat (length ws).
Proof.
  intros (t & Hrep) Hin Hmax.
  pose proof Hrep as (Hless & Hroot & Hs & Hnd & Hb & Hsz).
  rewrite Hroot, (inorder_shape _ _ _ Hs Hnd) in Hin. injection Hin as <-.
  rewrite vals_length in Hmax |- *. by apply Slice_repr.
Qed.

(** ** Find and Contains *)

Lemma vals_at_app_inv h (k1 k2 : list loc) :
  ∀ ws : list Value,
    vals_at h (k1 ++ k2) = Ok ws ->
    ∃ w1 w2, ws = w1 ++ w2 ∧ vals_at h k1 = Ok w1 ∧ vals_at h k2 = Ok w2.
Proof.
  induction k1 as [|a k1 IH]; intros ws; simpl.
  - intros Hk. by exists [], ws.
  - unfold_result. destruct (h !! a) as [n|] eqn:Hn; [|done].
    destruct (vals_at h (k1 ++ k2)) as [w| |] eqn:E; try done.
    intros [= <-]. destruct (IH w eq_refl) as (w1 & w2 & -> & -> & ->).
    by exists (n_val n :: w1), w2.
Qed.

Lemma vals_at_elem h (k : list loc) (ws : list Value) a n :
  vals_at h k = Ok ws -> a ∈ k -> h !! a = Some n -> n_val n ∈ ws.
Proof.
  revert ws. induction k as [|c k IH]; intros ws; simpl.
  - intros _ Ha. by apply elem_of_nil in Ha.
  - unfold_result. destruct (h !! c) as [m|] eqn:Hm; [|done].
    destruct (vals_at h k) as [w| |] eqn:E; try done.
    intros [= <-] Ha Hn. apply elem_of_cons in Ha as [->|Ha].
    + rewrite Hm in Hn. injection Hn as ->. apply elem_head.
    + apply elem_tail. by apply IH.
Qed.

Section FindSpec.

Hypothesis less_trans :
  ∀ x1 x2 x3, less x1 x2 = true -> less x2 x3 = true -> less x1 x3 = true.

(** X2. On a well-formed tree [Find] returns a node exactly when the tree
    holds a value the comparator equates with [v]; the node it returns is
    in the tree and its value is equal to [v]; [Contains] says whether
    [Find] returned a node. *)
Theorem Find_spec s v :
  tree_inv less s ->
  ∃ p, Tree_Find s v = Ok p ∧
       Tree_Contains s v = Ok (bool_decide (p ≠ None)) ∧
       Contains (heap s) (t_root (tree s)) v = Ok (bool_decide (p ≠ None)) ∧
       (p ≠ None ↔ contains_equal less s v) ∧
       (∀ a, p = Some a ->
          reach (heap s) (t_root (tree s)) a ∧
          ∃ n, heap s !! a = Some n ∧ equal less v (n_val n)).
Proof.
  intros (t & Hrep). pose proof Hrep as (Hless & Hroot & Hs & Hnd & Hb & Hsz).
  pose proof (Find_repr _ _ v Hrep) as Hfind.
  exists (find_abs less t v). split_and!.
  - done.
  - unfold Tree_Contains. rewrite Hfind. by unfold_result.
  - unfold Contains. rewrite Hfind. by unfold_result.
  - symmetry. by apply contains_equal_find.
  - intros a Ha. split.
    + rewrite Hroot. eapply locs_reach; [done|]. by eapply find_abs_in.
    + by eapply find_abs_equal.
Qed.

End FindSpec.

(** ** Next and Prev are inverse to each other *)

(** X3. On a well-formed tree, if [Next] of a node of the tree is a node,
    [Prev] of that node is the first again; and the other way round. *)
Theorem Next_Prev_inverse s a b :
  tree_inv less s ->
  reach (heap s) (t_root (tree s)) a ->
  (Next (heap s) (Some a) = Ok (Some b) ->
   Prev (heap s) (Some b) = Ok (Some a) ∧
   reach (heap s) (t_root (tree s)) b) ∧
  (Prev (heap s) (Some a) = Ok (Some b) ->
   Next (heap s) (Some b) = Ok (Some a) ∧
   reach (heap s) (t_root (tree s)) b).
Proof.
  intros (t & Hrep) Hr.
  pose proof Hrep as (Hless & Hroot & Hs & Hnd & Hb & Hsz).
  rewrite Hroot in Hr |- *.
  pose proof (reach_locs _ _ _ _ Hs Hr) as Hin.
  pose proof (depth_le_size _ _ _ Hs Hnd) as Hd.
  apply list_elem_of_split in Hin as (k1 & k2 & Hk). split.
  - destruct k2 as [|c k2].
    + rewrite (Next_last (heap s) t a Hs Hd); [done|].
      rewrite Hk. by rewrite last_snoc.
    + rewrite (Next_adjacent _ _ _ _ _ _ _ Hs Hnd Hd Hk). intros [= ->].
      split; [by eapply Prev_adjacent|].
      eapply locs_reach; [done|]. rewrite Hk. in_list.
  - destruct k1 as [|c0 k0 _] using rev_ind.
    + rewrite (Prev_first (heap s) t a Hs Hd); [done|]. by rewrite Hk.
    + rewrite <- (assoc_L (++)) in Hk. simpl in Hk.
      rewrite (Prev_adjacent _ _ _ _ _ _ _ Hs Hnd Hd Hk). intros [= <-].
      split; [by eapply Next_adjacent|].
      eapply locs_reach; [done|]. rewrite Hk. in_list.
Qed.

(** ** Min and Max *)

Lemma leftmost_cell h :
  ∀ l par c x r,
    shape less h par (Br l c x r) ->
    ∃ n, h !! leftmost l c = Some n ∧ n_left n = None.
Proof.
  induction l as [|l1 IH1 a y l2 _]; intros par c x r Hs.
  - destruct Hs as (Hc & _ & _). simpl. eauto.
  - destruct Hs as (_ & Hl & _). simpl. by eapply IH1.
Qed.

Lemma rightmost_cell h :
  ∀ r par c x l,
    shape less h par (Br l c x r) ->
    ∃ n, h !! rightmost r c = Some n ∧ n_right n = None.
Proof.
  induction r as [|r1 _ a y r2 IH2]; intros par c x l Hs.
  - destruct Hs as (Hc & _ & _). simpl. eauto.
  - destruct Hs as (_ & _ & Hr). simpl. by eapply IH2.
Qed.

Section Extremes.

Hypothesis less_trans :
  ∀ x1 x2 x3, less x1 x2 = true -> less x2 x3 = true -> less x1 x3 = true.

Lemma extremes_shape h par l c0 x0 r :
  shape less h par (Br l c0 x0 r) -> NoDup (locs (Br l c0 x0 r)) ->
  bst less (Br l c0 x0 r) ->
  ∃ a b na nb,
    Min h (Some c0) = Ok (Some a) ∧ Max h (Some c0) = Ok (Some b) ∧
    reach h (Some c0) a ∧ reach h (Some c0) b ∧
    h !! a = Some na ∧ h !! b = Some nb ∧
    n_left na = None ∧ n_right nb = None ∧
    ∀ c nc, reach h (Some c0) c -> h !! c = Some nc ->
      (c ≠ a -> less (n_val na) (n_val nc) = true) ∧
      (c ≠ b -> less (n_val nc) (n_val nb) = true).
Proof.
  intros Hs Hnd Hb.
  pose proof (depth_le_size _ _ _ Hs Hnd) as Hd.
  pose proof (bst_sorted less_trans _ Hb) as Hsort.
  pose proof (vals_at_shape _ _ _ Hs) as Hva.
  cbn [Min Max].
  rewrite (min_loop_shape _ _ _ _ _ _ _ Hs Hd).
  rewrite (max_loop_shape _ _ _ _ _ _ _ Hs Hd).
  destruct (leftmost_cell _ _ _ _ _ _ Hs) as (na & Hna & Hleft).
  destruct (rightmost_cell _ _ _ _ _ _ Hs) as (nb & Hnb & Hright).
  exists (leftmost l c0), (rightmost r c0), na, nb.
  assert (Hina : leftmost l c0 ∈ locs (Br l c0 x0 r)).
  { rewrite locs_drop_min. apply elem_head. }
  destruct (proj1 (last_Some _ _) (last_locs l c0 x0 r)) as (kb & Hkb).
  assert (Hinb : rightmost r c0 ∈ locs (Br l c0 x0 r)).
  { rewrite Hkb. in_list. }
  split_and!; try done.
  - by eapply (locs_reach _ _ (Br l c0 x0 r)).
  - by eapply (locs_reach _ _ (Br l c0 x0 r)).
  - intros c nc Hrc Hnc.
    pose proof (reach_locs _ _ (Br l c0 x0 r) _ Hs Hrc) as Hinc. split.
    + intros Hca. rewrite locs_drop_min in Hva, Hinc.
      apply elem_of_cons in Hinc as [?|Hinc]; [done|].
      cbn [vals_at load] in Hva. rewrite Hna in Hva. revert Hva.
      unfold_result.
      destruct (vals_at h (locs (drop_min (Br l c0 x0 r))))
        as [w| |] eqn:E; try done.
      intros [= Hw]. simpl in Hsort. rewrite <- Hw in Hsort.
      apply StronglySorted_cons in Hsort as (Hall & _).
      apply (proj1 (Forall_forall _ _) Hall).
      by eapply vals_at_elem.
    + intros Hcb. rewrite Hkb in Hva, Hinc.
      apply elem_of_app in Hinc as [Hinc|Hinc];
        [|by apply list_elem_of_singleton in Hinc].
      apply vals_at_app_inv in Hva as (w1 & w2 & Hw & Hw1 & Hw2).
      cbn [vals_at load] in Hw2. rewrite Hnb in Hw2. revert Hw2.
      unfold_result. intros [= <-]. rewrite Hw in Hsort.
      apply (StronglySorted_app_1_elem_of _ _ _ _ _ Hsort);
        [by eapply vals_at_elem|apply elem_head].
Qed.

(** The subtree below a node of a search tree is a search tree. *)
Lemma subtree_bst h par t a :
  shape less h par t -> NoDup (locs t) -> bst less t -> a ∈ locs t ->
  ∃ par' l x r,
    shape less h par' (Br l a x r) ∧ NoDup (locs (Br l a x r)) ∧
    bst less (Br l a x r) ∧
    ∀ b, b ∈ locs (Br l a x r) -> b ∈ locs t.
Proof.
  revert par. induction t as [|l IHl c x r IHr]; intros par Hs Hnd Hb Hin.
  { by apply elem_of_nil in Hin. }
  pose proof Hs as (Hc & Hl & Hr). pose proof Hnd as Hnd0.
  pose proof Hb as (Hbl & Hbr & _).
  cbn [locs] in Hnd, Hin.
  apply NoDup_app in Hnd as (Hndl & Hdisj & Hndr).
  apply NoDup_cons in Hndr as (Hcr & Hndr).
  destruct (decide (a = c)) as [->|Hne].
  { exists par, l, x, r. by split_and!. }
  apply elem_of_app in Hin as [Hin|Hin].
  - destruct (IHl _ Hl Hndl Hbl Hin) as (par' & l' & x' & r' & ? & ? & ? & Hsub).
    exists par', l', x', r'. split_and!; [done|done|done|].
    intros b Hbin. cbn [locs]. apply elem_app_l. by apply Hsub.
  - apply elem_of_cons in Hin as [?|Hin]; [done|].
    destruct (IHr _ Hr Hndr Hbr Hin) as (par' & l' & x' & r' & ? & ? & ? & Hsub).
    exists par', l', x', r'. split_and!; [done|done|done|].
    intros b Hbin. cbn [locs]. apply elem_app_r, elem_tail. by apply Hsub.
Qed.

(** X4. On a well-formed tree that is not empty, [Min] returns the node
    without left child whose value is less than the value of every other
    node of the tree, and [Max] the node without right child whose value
    every other node's value is less than. *)
Theorem Min_Max_extremal s :
  tree_inv less s -> t_root (tree s) ≠ None ->
  ∃ a b na nb,
    Tree_Min s = Ok (Some a) ∧ Tree_Max s = Ok (Some b) ∧
    reach (heap s) (t_root (tree s)) a ∧
    reach (heap s) (t_root (tree s)) b ∧
    heap s !! a = Some na ∧ heap s !! b = Some nb ∧
    n_left na = None ∧ n_right nb = None ∧
    ∀ c nc, reach (heap s) (t_root (tree s)) c -> heap s !! c = Some nc ->
      (c ≠ a -> less (n_val na) (n_val nc) = true) ∧
      (c ≠ b -> less (n_val nc) (n_val nb) = true).
Proof.
  intros (t & Hless & Hroot & Hs & Hnd & Hb & Hsz) Hne.
  unfold Tree_Min, Tree_Max. rewrite Hroot in Hne |- *.
  destruct t as [|l c0 x0 r]; [done|]. by eapply extremes_shape.
Qed.

(** X16. The methods of a node of a well-formed tree act on the subtree
    below it: [Find] returns a node of that subtree whose value is equal
    to [v], or nil when the subtree holds no such value, whatever the rest
    of the tree holds; [Contains] says which; [Min] and [Max] return the
    nodes of the subtree with the least and the greatest value. *)
Theorem Node_subtree_queries s a v :
  tree_inv less s -> reach (heap s) (t_root (tree s)) a ->
  (∃ p, Find (heap s) (Some a) v = Ok p ∧
        Contains (heap s) (Some a) v = Ok (bool_decide (p ≠ None)) ∧
        (p ≠ None ↔
         ∃ b n, reach (heap s) (Some a) b ∧ heap s !! b = Some n ∧
                equal less v (n_val n)) ∧
        (∀ b, p = Some b ->
           reach (heap s) (Some a) b ∧
           ∃ n, heap s !! b = Some n ∧ equal less v (n_val n))) ∧
  (∃ mn mx nmn nmx,
     Min (heap s) (Some a) = Ok (Some mn) ∧
     Max (heap s) (Some a) = Ok (Some mx) ∧
     reach (heap s) (Some a) mn ∧ reach (heap s) (Some a) mx ∧
     heap s !! mn = Some nmn ∧ heap s !! mx = Some nmx ∧
     n_left nmn = None ∧ n_right nmx = None ∧
     ∀ c nc, reach (heap s) (Some a) c -> heap s !! c = Some nc ->
       (c ≠ mn -> less (n_val nmn) (n_val nc) = true) ∧
       (c ≠ mx -> less (n_val nc) (n_val nmx) = true)) ∧
  (∀ b, reach (heap s) (Some a) b -> reach (heap s) (t_root (tree s)) b).
Proof.
  intros (t & Hless & Hroot & Hs & Hnd & Hb & Hsz) Hr. rewrite Hroot in Hr |- *.
  pose proof (reach_locs _ _ _ _ Hs Hr) as Hin.
  destruct (subtree_bst _ _ _ _ Hs Hnd Hb Hin)
    as (par' & l & x & r & Hs' & Hnd' & Hb' & Hsub).
  pose proof (depth_le_size _ _ _ Hs' Hnd') as Hd.
  pose proof (find_loop_shape _ _ _ v _ Hs' Hd) as Hfind.
  change (root_of (Br l a x r)) with (Some a) in Hfind.
  split_and!.
  - exists (find_abs less (Br l a x r) v). unfold Contains, Find.
    rewrite Hfind. split_and!; [done|by unfold_result| |].
    + split.
      * intros Hf.
        destruct (find_abs less (Br l a x r) v) as [b|] eqn:E; [|done].
        destruct (find_abs_equal _ _ _ _ _ Hs' E) as (n & Hn & Heq).
        exists b, n. split_and!; [|done|done].
        eapply (locs_reach _ _ (Br l a x r)); [done|]. by eapply find_abs_in.
      * intros (b & n & Hrb & Hn & Heq) Hf.
        apply (reach_locs _ _ (Br l a x r) _ Hs') in Hrb.
        pose proof (shape_val_in _ _ _ _ _ Hs' Hrb Hn) as Hv.
        by apply (find_abs_none less_trans (Br l a x r) v (n_val n)).
    + intros b E. split.
      * eapply (locs_reach _ _ (Br l a x r)); [done|]. by eapply find_abs_in.
      * by eapply find_abs_equal.
  - by eapply extremes_shape.
  - intros b Hrb. eapply locs_reach; [done|]. apply Hsub.
    by eapply (reach_locs _ _ (Br l a x r)).
Qed.

End Extremes.

(** ** Insert and Delete, on the in-order sequence *)

Lemma vals_ins_split z v t :
  find_abs less t v = None ->
  ∃ w1 w2 : list Value,
    vals t = w1 ++ w2 ∧ vals (ins less z v t) = w1 ++ v :: w2.
Proof.
  induction t as [|l IHl a x r IHr]; simpl.
  - intros _. by exists [], [].
  - destruct (less v x) eqn:E1.
    + intros Hf. destruct (IHl Hf) as (w1 & w2 & -> & Hi).
      exists w1, (w2 ++ x :: vals r). simpl. rewrite Hi.
      by rewrite <- !(assoc_L (++)).
    + destruct (less x v) eqn:E2; [|done].
      intros Hf. destruct (IHr Hf) as (w1 & w2 & -> & Hi).
      exists (vals l ++ x :: w1), w2. simpl. rewrite Hi.
      by rewrite <- !(assoc_L (++)).
Qed.

Lemma val_of_ins z v t :
  find_abs less t v = None -> z ∉ locs t ->
  val_of (ins less z v t) z = Some v.
Proof.
  induction t as [|l IHl a x r IHr]; simpl.
  - intros _ _. by rewrite decide_True.
  - intros Hf Hz.
    assert (Hza : z ≠ a) by (intros ->; apply Hz; in_list).
    assert (Hzl : z ∉ locs l) by (intros ?; apply Hz; in_list).
    assert (Hzr : z ∉ locs r) by (intros ?; apply Hz; in_list).
    destruct (less v x) eqn:E1.
    + cbn [val_of]. rewrite decide_False by done. by rewrite IHl.
    + destruct (less x v) eqn:E2; [|done].
      cbn [val_of]. rewrite decide_False by done.
      rewrite (val_of_not_in l z Hzl). by apply IHr.
Qed.

Lemma remove_at_ins z v t :
  find_abs less t v = None -> z ∉ locs t ->
  remove_at z (ins less z v t) = t.
Proof.
  induction t as [|l IHl a x r IHr]; simpl.
  - intros _ _. by rewrite decide_True.
  - intros Hf Hz.
    assert (Hza : a ≠ z) by (intros ->; apply Hz; in_list).
    assert (Hzl : z ∉ locs l) by (intros ?; apply Hz; in_list).
    assert (Hzr : z ∉ locs r) by (intros ?; apply Hz; in_list).
    destruct (less v x) eqn:E1.
    + cbn [remove_at]. rewrite decide_False by done.
      rewrite decide_True; [by rewrite IHl|].
      rewrite (locs_ins_perm _ _ _ Hf). apply elem_head.
    + destruct (less x v) eqn:E2; [|done].
      cbn [remove_at]. rewrite decide_False by done.
      rewrite decide_False by done. by rewrite IHr.
Qed.

Lemma shape_agree h h' t :
  ∀ par, shape less h par t -> shape less h' par t ->
    ∀ b, b ∈ locs t -> h' !! b = h !! b.
Proof.
  induction t as [|l IHl a x r IHr]; simpl; intros par.
  - intros _ _ b Hb. by apply elem_of_nil in Hb.
  - intros (Ha & Hl & Hr) (Ha' & Hl' & Hr') b Hb.
    apply elem_of_app in Hb as [Hb|Hb]; [by eapply IHl|].
    apply elem_of_cons in Hb as [->|Hb]; [congruence|by eapply IHr].
Qed.

Lemma fresh_not_in s t :
  tree_repr less s t -> fresh (dom (heap s)) ∉ locs t.
Proof.
  intros (Hless & Hroot & Hs & Hnd & Hb & Hsz) Hin.
  destruct (shape_lookup _ _ _ _ Hs Hin) as (n & Hn & _).
  apply (is_fresh (dom (heap s))). apply elem_of_dom. by exists n.
Qed.

Section Sequence.

Hypothesis less_trans :
  ∀ x1 x2 x3, less x1 x2 = true -> less x2 x3 = true -> less x1 x3 = true.

(** X5. [Insert] on the in-order sequence of a well-formed tree: a value
    the tree already holds an equal of leaves the sequence as it is; any
    other value enters it once, after the values less than it and before
    the values greater than it. *)
Theorem Insert_inorder s v :
  tree_inv less s ->
  ∃ q s' (w1 w2 : list Value),
    Insert v s = Ok (q, s') ∧
    inorder (heap s) (t_root (tree s)) = Ok (w1 ++ w2) ∧
    (contains_equal less s v ->
     inorder (heap s') (t_root (tree s')) = Ok (w1 ++ w2)) ∧
    (¬ contains_equal less s v ->
     inorder (heap s') (t_root (tree s')) = Ok (w1 ++ v :: w2) ∧
     Forall (fun y => less y v = true) w1 ∧
     Forall (fun y => less v y = true) w2).
Proof.
  intros (t & Hrep).
  pose proof Hrep as (Hless & Hroot & Hs & Hnd & Hb & Hsz).
  pose proof (contains_equal_find less_trans _ _ v Hrep) as Hce.
  destruct (find_abs less t v) as [a|] eqn:Hf.
  - exists (Some a), s, (vals t), [].
    rewrite (right_id_L [] (++)), Hroot, (inorder_shape _ _ _ Hs Hnd).
    split_and!; [by eapply Insert_found|done|done|].
    intros Hc. exfalso. apply Hc, Hce. done.
  - destruct (Insert_repr _ _ v Hrep) as (q & s' & Hrun & Hrep').
    destruct (vals_ins_split (fresh (dom (heap s))) v t Hf)
      as (w1 & w2 & Hw & Hw').
    pose proof Hrep' as (Hless' & Hroot' & Hs' & Hnd' & Hb' & Hsz').
    pose proof (bst_sorted less_trans _ Hb') as Hsort. rewrite Hw' in Hsort.
    exists q, s', w1, w2.
    rewrite Hroot, Hroot', (inorder_shape _ _ _ Hs Hnd),
      (inorder_shape _ _ _ Hs' Hnd'), Hw, Hw'.
    split_and!; [done|done| |].
    + intros Hc. apply Hce in Hc. done.
    + intros _. apply StronglySorted_app in Hsort as (Hcross & _ & H2).
      apply StronglySorted_cons in H2 as (Hall & _).
      split_and!; [done| |done].
      apply Forall_forall. intros y Hy. apply Hcross; [done|apply elem_head].
Qed.

(** X6. [Delete] of a value a well-formed tree holds an equal of returns
    true, takes the node [Find] returns for it out of the in-order node
    sequence and its value, equal to [v], out of the in-order value
    sequence; the other nodes and values keep their order. *)
Theorem Delete_inorder s v :
  tree_inv less s -> contains_equal less s v ->
  ∃ s' a n (k1 k2 : list loc) (w1 w2 : list Value),
    Delete v s = Ok (true, s') ∧
    Tree_Find s v = Ok (Some a) ∧
    heap s !! a = Some n ∧ equal less v (n_val n) ∧
    nodes (heap s) (t_root (tree s)) = Ok (k1 ++ a :: k2) ∧
    nodes (heap s') (t_root (tree s')) = Ok (k1 ++ k2) ∧
    inorder (heap s) (t_root (tree s)) = Ok (w1 ++ n_val n :: w2) ∧
    inorder (heap s') (t_root (tree s')) = Ok (w1 ++ w2) ∧
    tree_inv less s'.
Proof.
  intros (t & Hrep) Hc.
  pose proof Hrep as (Hless & Hroot & Hs & Hnd & Hb & Hsz).
  apply (contains_equal_find less_trans _ _ v Hrep) in Hc.
  destruct (find_abs less t v) as [a|] eqn:Hf; [|done].
  destruct (Delete_found less_trans _ _ _ _ Hrep Hf)
    as (s' & Hrun & Hrep' & Hfr).
  pose proof Hrep' as (Hless' & Hroot' & Hs' & Hnd' & Hb' & Hsz').
  pose proof (find_abs_in _ _ _ Hf) as Hin.
  destruct (remove_at_split a t Hnd Hin)
    as (k1 & k2 & w1 & y & w2 & E1 & E2 & E3 & E4 & Hval).
  destruct (val_of_heap _ _ _ _ _ Hs Hval) as (n & Hn & <- & _).
  destruct (find_abs_equal _ _ _ _ _ Hs Hf) as (n' & Hn' & Heq).
  assert (n' = n) as -> by congruence.
  exists s', a, n, k1, k2, w1, w2.
  rewrite Hroot, Hroot', (inorder_shape _ _ _ Hs Hnd),
    (inorder_shape _ _ _ Hs' Hnd'), (nodes_shape _ _ _ Hs Hnd),
    (nodes_shape _ _ _ Hs' Hnd'), E1, E2, E3, E4.
  split_and!; try done.
  - unfold Tree_Find. rewrite (Find_repr _ _ v Hrep). by rewrite Hf.
  - by exists (remove_at a t).
Qed.

End Sequence.

Section InsertFind.

Hypothesis less_irrefl : ∀ x1, less x1 x1 = false.
Hypothesis less_trans :
  ∀ x1 x2 x3, less x1 x2 = true -> less x2 x3 = true -> less x1 x3 = true.

Lemma Insert_find_abs s t v q s' :
  tree_repr less s t -> Insert v s = Ok (q, s') ->
  ∃ t' a, tree_repr less s' t' ∧ find_abs less t' v = Some a ∧ q = Some a.
Proof.
  intros Hrep Hrun. destruct (find_abs less t v) as [a|] eqn:Hf.
  - rewrite (Insert_found _ _ _ _ Hrep Hf) in Hrun. injection Hrun as <- <-.
    by exists t, a.
  - destruct (Insert_fresh _ _ _ Hrep Hf)
      as (par & Hd & Hz & Hpar & Hleaf & Hrun1 & Hsh).
    destruct (Insert_repr _ _ v Hrep) as (q1 & s1 & Hrun2 & Hrep1).
    rewrite Hrun in Hrun1, Hrun2. injection Hrun2 as <- <-.
    injection Hrun1 as -> _.
    pose proof Hrep1 as (Hless' & Hroot' & Hs' & Hnd' & Hb' & Hsz').
    exists (ins less (fresh (dom (heap s))) v t), (fresh (dom (heap s))).
    split_and!; [done| |done].
    apply (find_abs_self less_trans); [done|done|].
    apply val_of_ins; [done|by eapply fresh_not_in].
Qed.

(** X7. On a well-formed tree, the node [Insert v] returns is the node
    [Find v] finds afterwards, [Contains v] is then true, and inserting [v]
    once more returns the same node and changes nothing. *)
Theorem Insert_then_Find s v q s' :
  tree_inv less s -> Insert v s = Ok (q, s') ->
  q ≠ None ∧
  Tree_Find s' v = Ok q ∧
  Tree_Contains s' v = Ok true ∧
  Insert v s' = Ok (q, s').
Proof.
  intros (t & Hrep) Hrun.
  destruct (Insert_find_abs _ _ _ _ _ Hrep Hrun) as (t' & a & Hrep' & Hf & ->).
  pose proof (Find_repr _ _ v Hrep') as Hfind. rewrite Hf in Hfind.
  split_and!.
  - done.
  - done.
  - unfold Tree_Contains. rewrite Hfind. by unfold_result.
  - by eapply Insert_found.
Qed.

(** X8. Inserting a value a well-formed tree holds no equal of and
    deleting it again gives the tree back: root, size and comparator are
    what they were, and so is every cell but the one allocated for the
    value. *)
Theorem Insert_Delete_round_trip s v :
  tree_inv less s -> ¬ contains_equal less s v ->
  ∃ z s1 s2,
    Insert v s = Ok (Some z, s1) ∧
    Delete v s1 = Ok (true, s2) ∧
    heap s !! z = None ∧
    tree s2 = tree s ∧
    (∀ b, b ≠ z -> heap s2 !! b = heap s !! b) ∧
    inorder (heap s2) (t_root (tree s2)) =
    inorder (heap s) (t_root (tree s)).
Proof.
  intros (t & Hrep) Hc.
  pose proof Hrep as (Hless & Hroot & Hs & Hnd & Hb & Hsz).
  assert (Hf : find_abs less t v = None).
  { destruct (find_abs less t v) eqn:E; [|done]. exfalso. apply Hc.
    apply (contains_equal_find less_trans _ _ _ Hrep). congruence. }
  destruct (Insert_fresh _ _ _ Hrep Hf)
    as (par & Hd & Hz & Hpar & Hleaf & Hrun1 & Hsh).
  destruct (Insert_repr _ _ v Hrep) as (q1 & s1 & Hrun & Hrep1).
  set (z := fresh (dom (heap s))) in *.
  assert (Hzt : z ∉ locs t) by (by eapply fresh_not_in).
  assert (Hfz : find_abs less (ins less z v t) v = Some z).
  { apply (find_abs_self less_trans);
      [done|by apply bst_ins|by apply val_of_ins]. }
  destruct (Delete_found less_trans _ _ _ _ Hrep1 Hfz)
    as (s2 & Hdel & Hrep2 & Hfr).
  rewrite (remove_at_ins _ _ _ Hf Hzt) in Hrep2.
  pose proof Hrep2 as (Hless2 & Hroot2 & Hs2 & Hnd2 & Hb2 & Hsz2).
  assert (Hh1 : ∀ b, b ≠ z -> b ∉ locs t -> heap s1 !! b = heap s !! b).
  { intros b Hbz Hbt. rewrite Hrun in Hrun1. injection Hrun1 as _ ->.
    cbn [heap]. unfold attach. destruct par as [pa|].
    - assert (b ≠ pa) by (intros ->; by apply Hbt, Hpar).
      destruct (heap s !! pa); by rewrite !lookup_insert_ne by done.
    - by rewrite lookup_insert_ne by done. }
  assert (q1 = Some z) as ->.
  { rewrite Hrun in Hrun1. by injection Hrun1 as -> _. }
  exists z, s1, s2. split_and!; try done.
  - destruct (tree s) as [r0 n0 f0], (tree s2) as [r2 n2 f2].
    simpl in *. congruence.
  - intros b Hbz. destruct (decide (b ∈ locs t)) as [Hin|Hnin].
    + by eapply shape_agree.
    + rewrite Hfr; [by apply Hh1|].
      rewrite (locs_ins_perm _ _ _ Hf).
      intros [?|?]%elem_of_cons; done.
  - rewrite Hroot, Hroot2.
    by rewrite (inorder_shape _ _ _ Hs Hnd), (inorder_shape _ _ _ Hs2 Hnd2).
Qed.

End InsertFind.

(** ** Init *)

Section InitSpec.

Hypothesis less_irrefl : ∀ x1, less x1 x1 = false.
Hypothesis less_trans :
  ∀ x1 x2 x3, less x1 x2 = true -> less x2 x3 = true -> less x1 x3 = true.

Lemma ins_chain_vals z v t :
  right_chain t -> (∀ y, y ∈ vals t -> less y v = true) ->
  vals (ins less z v t) = vals t ++ [v].
Proof.
  induction t as [|l _ a x r IH]; [done|].
  intros (-> & Hr) Hlt. cbn [ins].
  pose proof (Hlt x ltac:(cbn [vals]; in_list)) as Hxv.
  rewrite (less_asym less_irrefl less_trans _ _ Hxv), Hxv.
  cbn [vals app]. rewrite IH; [done|done|].
  intros y Hy. apply Hlt. cbn [vals]. in_list.
Qed.

Lemma Init_sorted_vals vs :
  ∀ s t, tree_repr less s t -> right_chain t ->
    (∀ y y', y ∈ vals t -> y' ∈ vs -> less y y' = true) ->
    StronglySorted (lessR less) vs ->
    ∃ s' t', Init vs s = Ok (tt, s') ∧ tree_repr less s' t' ∧
      right_chain t' ∧ vals t' = vals t ++ vs.
Proof.
  induction vs as [|v vs IH]; intros s t Hrep Hch Hlt Hsort.
  { exists s, t. split_and!; [done|done|done|by rewrite (right_id_L [] (++))]. }
  apply StronglySorted_cons in Hsort as (Hv & Hsort).
  rewrite Forall_forall in Hv.
  destruct (Insert_repr _ _ v Hrep) as (q & s1 & Hrun & Hrep1).
  assert (Hltv : ∀ y, y ∈ vals t -> less y v = true).
  { intros y Hy. apply Hlt; [done|in_list]. }
  destruct (ins_chain less_irrefl less_trans (fresh (dom (heap s))) v t Hch Hltv)
    as (Hch1 & Hf).
  destruct (IH _ _ Hrep1 Hch1) as (s' & t' & Hrun' & Hrep' & Hch' & Hvals);
    [|done|].
  { intros y y' Hy Hy'. apply vals_ins_elem in Hy as [->|Hy].
    - by apply Hv.
    - apply Hlt; [done|in_list]. }
  exists s', t'. split_and!; [|done|done|].
  - cbn [Init]. by rewrite (bind_run _ _ _ _ _ Hrun).
  - rewrite Hvals, (ins_chain_vals _ _ _ Hch Hltv).
    by rewrite <- (assoc_L (++)).
Qed.

Lemma right_chain_no_left h t :
  ∀ par, shape less h par t -> right_chain t ->
    ∀ a n, reach h (root_of t) a -> h !! a = Some n -> n_left n = None.
Proof.
  induction t as [|l _ c x r IH]; intros par Hsh Hc a n Hr Hn.
  - inversion Hr.
  - destruct Hsh as (Hcell & _ & Hshr). destruct Hc as (-> & Hc).
    simpl in Hr, Hcell.
    inversion Hr as [? n0 Hn0|? n0 ? Hn0 Hr'|? n0 ? Hn0 Hr']; simplify_eq/=.
    + done.
    + inversion Hr'.
    + by eapply IH.
Qed.

(** X9. [Init] of a new tree with the [Slice] of a well-formed tree gives
    a tree with the same [Slice] and the same [Len]; every node of it has
    no left child, so that its height is its length. *)
Theorem Slice_Init_round_trip s (ws : list Value) h0 :
  tree_inv less s ->
  inorder (heap s) (t_root (tree s)) = Ok ws ->
  Z.of_nat (length ws) <= int_max ->
  ∃ s', Slice s = Ok (Some <$> ws) ∧
        Init ws (mkState h0 (New less)) = Ok (tt, s') ∧
        Slice s' = Ok (Some <$> ws) ∧
        inorder (heap s') (t_root (tree s')) = Ok ws ∧
        Len s' = Len s ∧
        Tree_Height s' = Ok (Len s) ∧
        (∀ a n, reach (heap s') (t_root (tree s')) a ->
                heap s' !! a = Some n -> n_left n = None).
Proof.
  intros (t & Hrep) Hin Hmax.
  pose proof Hrep as (Hless & Hroot & Hs & Hnd & Hb & Hsz).
  rewrite Hroot, (inorder_shape _ _ _ Hs Hnd) in Hin. injection Hin as <-.
  rewrite vals_length in Hmax.
  destruct (Slice_repr _ _ Hrep Hmax) as (Hslice & HLen).
  destruct (Init_sorted_vals (vals t) _ _ (New_repr h0) I) as
    (s' & t' & Hrun & Hrep' & Hch & Hvals); [|by apply bst_sorted|].
  { intros y y' Hy. by apply elem_of_nil in Hy. }
  simpl in Hvals.
  pose proof Hrep' as (_ & Hroot' & Hs' & Hnd' & _).
  assert (Hlen : length (locs t') = length (locs t)).
  { by rewrite <- !vals_length, Hvals. }
  assert (Hmax' : Z.of_nat (length (locs t')) <= int_max) by (by rewrite Hlen).
  destruct (Slice_repr _ _ Hrep' Hmax') as (Hslice' & HLen').
  exists s'. split_and!.
  - done.
  - done.
  - by rewrite Hslice', Hvals.
  - by rewrite Hroot', (inorder_shape _ _ _ Hs' Hnd'), Hvals.
  - by rewrite HLen, HLen', Hlen.
  - unfold Tree_Height. rewrite Hroot', (Height_shape _ _ _ Hs' Hnd').
    rewrite height_chain by done. by rewrite HLen, Hlen.
  - intros a n Hr Hn. rewrite Hroot' in Hr.
    by eapply right_chain_no_left.
Qed.

(** X10. [Init] on a well-formed tree ends in a well-formed tree whose
    in-order sequence is strictly ascending, keeps every value the tree
    held, takes its other values from [vs], and holds an equal of every
    element of [vs]. *)
Theorem Init_covers (vs : list Value) s :
  tree_inv less s ->
  ∃ s' (w0 ws : list Value),
    Init vs s = Ok (tt, s') ∧ tree_inv less s' ∧
    inorder (heap s) (t_root (tree s)) = Ok w0 ∧
    inorder (heap s') (t_root (tree s')) = Ok ws ∧
    StronglySorted (lessR less) ws ∧
    (∀ y, y ∈ ws -> y ∈ w0 ∨ y ∈ vs) ∧
    (∀ y, y ∈ w0 -> y ∈ ws) ∧
    (∀ x, x ∈ vs -> ∃ y, y ∈ ws ∧ equal less x y) ∧
    Len s' = int_wrap (Z.of_nat (length ws)).
Proof.
  intros (t & Hrep).
  pose proof Hrep as (Hless & Hroot & Hs & Hnd & Hb & Hsz).
  destruct (Init_repr vs _ _ Hrep) as (s' & t' & Hrun & Hrep' & Ha & Hm & Hc).
  pose proof Hrep' as (_ & Hroot' & Hs' & Hnd' & Hb' & Hsz').
  exists s', (vals t), (vals t'). split_and!; try done.
  - by exists t'.
  - by rewrite Hroot, (inorder_shape _ _ _ Hs Hnd).
  - by rewrite Hroot', (inorder_shape _ _ _ Hs' Hnd').
  - by apply bst_sorted.
  - by apply Hc.
  - unfold Len. by rewrite Hsz', vals_length.
Qed.

Hypothesis less_cotrans :
  ∀ x1 x2 x3, less x1 x2 = true -> less x1 x3 = true ∨ less x3 x2 = true.

(** X11. The order of the elements of [vs] does not matter to what [Init]
    stores: for two orders of the same elements the in-order sequences
    have the same length and equal values position by position under the
    comparator's equality, and are the same sequence when that equality is
    identity. *)
Theorem Init_permutation (vs1 vs2 : list Value) s :
  tree_inv less s -> vs1 ≡ₚ vs2 ->
  ∃ s1 s2 (w1 w2 : list Value),
    Init vs1 s = Ok (tt, s1) ∧ Init vs2 s = Ok (tt, s2) ∧
    inorder (heap s1) (t_root (tree s1)) = Ok w1 ∧
    inorder (heap s2) (t_root (tree s2)) = Ok w2 ∧
    Forall2 (equal less) w1 w2 ∧
    Len s1 = Len s2 ∧
    ((∀ x1 x2, equal less x1 x2 -> x1 = x2) -> w1 = w2).
Proof.
  intros (t & Hrep) Hperm.
  destruct (Init_repr vs1 _ _ Hrep) as (s1 & t1 & Hrun1 & Hrep1 & Ha1 & Hm1 & Hc1).
  destruct (Init_repr vs2 _ _ Hrep) as (s2 & t2 & Hrun2 & Hrep2 & Ha2 & Hm2 & Hc2).
  pose proof Hrep1 as (_ & Hroot1 & Hs1 & Hnd1 & Hb1 & Hsz1).
  pose proof Hrep2 as (_ & Hroot2 & Hs2 & Hnd2 & Hb2 & Hsz2).
  assert (HF : Forall2 (equal less) (vals t1) (vals t2)).
  { apply (sorted_cover less_irrefl less_trans less_cotrans).
    - by apply bst_sorted.
    - by apply bst_sorted.
    - intros x Hx. destruct (Ha1 x Hx) as [Hx'|Hx'].
      + exists x. split; [by apply Hm2|]. by split.
      + apply (Hc2 less_irrefl). by rewrite <- Hperm.
    - intros y Hy. destruct (Ha2 y Hy) as [Hy'|Hy'].
      + exists y. split; [by apply Hm1|]. by split.
      + apply (Hc1 less_irrefl). by rewrite Hperm. }
  exists s1, s2, (vals t1), (vals t2). split_and!.
  - done.
  - done.
  - rewrite Hroot1. by eapply inorder_shape.
  - rewrite Hroot2. by eapply inorder_shape.
  - done.
  - unfold Len. rewrite Hsz1, Hsz2, <- !vals_length.
    by rewrite (Forall2_length _ _ _ HF).
  - intros Heq. by apply Forall2_equal_eq.
Qed.

End InitSpec.

(** ** Height and the number of nodes *)

Lemma length_lt_pow t : (length (locs t) < 2 ^ depth t)%nat.
Proof.
  induction t as [|l IHl a x r IHr]; [simpl; lia|].
  cbn [locs depth]. rewrite length_app, Nat.pow_succ_r'. cbn [length].
  pose proof (Nat.pow_le_mono_r 2 (depth l) (Nat.max (depth l) (depth r))).
  pose proof (Nat.pow_le_mono_r 2 (depth r) (Nat.max (depth l) (depth r))).
  lia.
Qed.

Lemma height_abs_depth t :
  Z.of_nat (length (locs t)) <= int_max -> height_abs t = Z.of_nat (depth t).
Proof.
  induction t as [|l IHl a x r IHr]; [done|].
  cbn [locs depth height_abs]. rewrite length_app. cbn [length]. intros Hle.
  pose proof (depth_le_length l). pose proof (depth_le_length r).
  rewrite IHl, IHr by lia. unfold maxInt, int_add.
  destruct (Z.ltb_spec (Z.of_nat (depth l)) (Z.of_nat (depth r)));
    rewrite int_wrap_small; unfold int_min, int_max in *; lia.
Qed.

(** X12. On a well-formed tree of [n] nodes, [n] within [int], [Height]
    returns a number [k] from 0 to [n] with [n < 2 ^ k]: the height is at
    least the binary logarithm of the number of nodes and at most that
    number. *)
Theorem Height_bounds s (ls : list loc) :
  tree_inv less s ->
  nodes (heap s) (t_root (tree s)) = Ok ls ->
  Z.of_nat (length ls) <= int_max ->
  ∃ k, Tree_Height s = Ok k ∧
       0 <= k <= Z.of_nat (length ls) ∧
       Z.of_nat (length ls) < 2 ^ k ∧
       Len s = Z.of_nat (length ls).
Proof.
  intros (t & Hless & Hroot & Hs & Hnd & Hb & Hsz) Hn Hmax.
  rewrite Hroot, (nodes_shape _ _ _ Hs Hnd) in Hn. injection Hn as <-.
  exists (Z.of_nat (depth t)). unfold Tree_Height.
  rewrite Hroot, (Height_shape _ _ _ Hs Hnd), (height_abs_depth _ Hmax).
  pose proof (depth_le_length t). pose proof (length_lt_pow t) as Hp.
  split_and!; [done|lia|lia| |].
  - apply Nat2Z.inj_lt in Hp. rewrite Nat2Z.inj_pow in Hp. exact Hp.
  - unfold Len. rewrite Hsz. apply int_wrap_small. unfold int_min. lia.
Qed.

(** ** transplant *)

(** X13. [transplant u v], where [u] is a cell whose parent, if it has
    one, is another cell, and [v] is nil or a cell other than that parent:
    the parent's child pointer that held [u] (its left one if it is [u],
    else its right one) now holds [v], or the root does when [u] has no
    parent; [v], if not nil, gets the parent of [u] as its parent; no other
    field of any cell changes, [u] itself keeps its links, and [size] and
    the comparator stay. *)
Theorem transplant_footprint (s : state Value) (u : loc) un (q : ptr) :
  heap s !! u = Some un ->
  (∀ pa, n_parent un = Some pa -> pa ≠ u ∧ is_Some (heap s !! pa)) ->
  (∀ va, q = Some va -> is_Some (heap s !! va) ∧ Some va ≠ n_parent un) ->
  ∃ s', transplant (Some u) q s = Ok (tt, s') ∧
    t_root (tree s') = match n_parent un with
                       | None => q
                       | Some _ => t_root (tree s)
                       end ∧
    t_size (tree s') = t_size (tree s) ∧
    t_lessFn (tree s') = t_lessFn (tree s) ∧
    (∀ b, Some b ≠ n_parent un -> Some b ≠ q -> heap s' !! b = heap s !! b) ∧
    (q ≠ Some u -> heap s' !! u = Some un) ∧
    (∀ pa pn, n_parent un = Some pa -> heap s !! pa = Some pn ->
       heap s' !! pa = Some (redirect pn (Some u) q)) ∧
    (∀ va vn, q = Some va -> heap s !! va = Some vn ->
       heap s' !! va = Some (set_parent vn (n_parent un))).
Proof.
  intros Hu Hpar Hq. destruct s as [h T]. cbn [heap tree] in *.
  destruct (transplant_run h T u un q Hu Hpar Hq)
    as (h' & Hrun & Hfr & Hpa & Hva).
  eexists. split; [exact Hrun|]. cbn [heap tree t_root t_size t_lessFn].
  split_and!; try done.
  intros Hqu. rewrite Hfr; [done| |congruence].
  intros Hup. symmetry in Hup. by destruct (Hpar u Hup).
Qed.

(** ** What Delete leaves alone *)

Lemma val_of_is_Some t b : b ∈ locs t -> is_Some (val_of t b).
Proof.
  induction t as [|l IHl c x r IHr]; cbn [locs val_of].
  - intros Hb. by apply elem_of_nil in Hb.
  - intros Hb. destruct (decide (b = c)); [done|].
    apply elem_of_app in Hb as [Hb|Hb].
    + by destruct (IHl Hb) as (y & ->).
    + apply elem_of_cons in Hb as [?|Hb]; [done|].
      destruct (val_of l b); [done|by apply IHr].
Qed.

Lemma val_of_shape h par t b n :
  shape less h par t -> b ∈ locs t -> h !! b = Some n ->
  val_of t b = Some (n_val n).
Proof.
  intros Hs Hb Hn. destruct (val_of_is_Some t b Hb) as (y & Hy).
  destruct (val_of_heap _ _ _ _ _ Hs Hy) as (n' & Hn' & <- & _).
  congruence.
Qed.

Lemma leftmost_in l c : leftmost l c ∈ c :: locs l.
Proof.
  revert c. induction l as [|l1 IH1 a y l2 _]; intros c; simpl.
  - apply elem_head.
  - apply elem_tail. specialize (IH1 a).
    apply elem_of_cons in IH1 as [->|IH1]; in_list.
Qed.

Lemma val_of_leftmost l :
  ∀ c x r, NoDup (locs (Br l c x r)) ->
    val_of (Br l c x r) (leftmost l c) = Some (min_val l x).
Proof.
  induction l as [|l1 IH1 a y l2 _]; intros c x r Hnd.
  - simpl. by rewrite decide_True.
  - cbn [leftmost min_val]. cbn [locs] in Hnd.
    apply NoDup_app in Hnd as (Hndl & Hdisj & _).
    assert (Hin : leftmost l1 a ∈ locs l1 ++ a :: locs l2).
    { pose proof (leftmost_in l1 a) as Hi.
      apply elem_of_cons in Hi as [->|Hi]; in_list. }
    cbn [val_of]. rewrite decide_False.
    + change (val_of (Br l1 a y l2) (leftmost l1 a)) with
        (if decide (leftmost l1 a = a) then Some y
         else match val_of l1 (leftmost l1 a) with
              | Some y0 => Some y0
              | None => val_of l2 (leftmost l1 a)
              end).
      pose proof (IH1 a y l2 Hndl) as Hv. cbn [val_of] in Hv. by rewrite Hv.
    + intros Hc. subst c. apply (Hdisj _ Hin). apply elem_head.
Qed.

Lemma val_of_drop_min l :
  ∀ c x r b, b ≠ leftmost l c ->
    val_of (drop_min (Br l c x r)) b = val_of (Br l c x r) b.
Proof.
  induction l as [|l1 IH1 a y l2 _]; intros c x r b Hb.
  - simpl in *. by rewrite decide_False.
  - change (drop_min (Br (Br l1 a y l2) c x r))
      with (Br (drop_min (Br l1 a y l2)) c x r).
    cbn [val_of]. destruct (decide (b = c)); [done|].
    pose proof (IH1 a y l2 b Hb) as Hv. cbn [val_of] in Hv. by rewrite Hv.
Qed.

Lemma val_of_remove_at n t b :
  NoDup (locs t) -> b ≠ n -> val_of (remove_at n t) b = val_of t b.
Proof.
  induction t as [|l IHl a v r IHr]; [done|]. intros Hnd Hbn.
  pose proof Hnd as Hnd0. cbn [locs] in Hnd.
  apply NoDup_app in Hnd as (Hndl & Hdisj & Hndr).
  apply NoDup_cons in Hndr as (Har & Hndr).
  cbn [remove_at]. destruct (decide (a = n)) as [->|Han].
  - cbn [val_of]. rewrite decide_False by done.
    destruct (leaf_or_not l) as [->|Hl]; [done|].
    destruct r as [|rl ra rv rr].
    { destruct l as [|l1 a0 v0 l2]; [done|]. unfold del_root.
      by destruct (val_of (Br l1 a0 v0 l2) b). }
    assert (del_root l n v (Br rl ra rv rr) =
            Br l (leftmost rl ra) (min_val rl rv) (drop_min (Br rl ra rv rr)))
      as -> by (by destruct l).
    cbn [val_of]. destruct (decide (b = leftmost rl ra)) as [->|Hbm].
    + rewrite (val_of_not_in l).
      * pose proof (val_of_leftmost rl ra rv rr Hndr) as Hv.
        cbn [val_of] in Hv. by rewrite Hv.
      * intros Hin. apply (Hdisj _ Hin). apply elem_tail.
        cbn [locs]. pose proof (leftmost_in rl ra) as Hi.
        apply elem_of_cons in Hi as [->|Hi]; in_list.
    + pose proof (val_of_drop_min rl ra rv rr b Hbm) as Hv.
      cbn [val_of] in Hv. by rewrite Hv.
  - destruct (decide (n ∈ locs l)).
    + cbn [val_of]. by rewrite IHl.
    + cbn [val_of]. by rewrite IHr.
Qed.

Section DeleteKeeps.

Hypothesis less_trans :
  ∀ x1 x2 x3, less x1 x2 = true -> less x2 x3 = true -> less x1 x3 = true.

(** X14. When [Delete v] returns true on a well-formed tree, every node of
    the tree other than the one [Find v] returned is still in the tree and
    holds the value it held: [Delete] relinks nodes and never moves a
    value from one node to another. *)
Theorem Delete_keeps_nodes s v s' :
  tree_inv less s -> Delete v s = Ok (true, s') ->
  ∀ b nb, reach (heap s) (t_root (tree s)) b -> heap s !! b = Some nb ->
    Tree_Find s v ≠ Ok (Some b) ->
    reach (heap s') (t_root (tree s')) b ∧
    ∃ nb', heap s' !! b = Some nb' ∧ n_val nb' = n_val nb ∧
           n_lessFn nb' = n_lessFn nb.
Proof.
  intros (t & Hrep) Hrun b nb Hr Hnb Hfind.
  pose proof Hrep as (Hless & Hroot & Hs & Hnd & Hb & Hsz).
  unfold Tree_Find in Hfind. rewrite (Find_repr _ _ v Hrep) in Hfind.
  destruct (find_abs less t v) as [a|] eqn:Hf.
  2:{ by rewrite (Delete_missing _ _ _ Hrep Hf) in Hrun. }
  destruct (Delete_found less_trans _ _ _ _ Hrep Hf)
    as (s1 & Hrun1 & Hrep' & Hfr).
  rewrite Hrun in Hrun1. injection Hrun1 as <-.
  pose proof Hrep' as (Hless' & Hroot' & Hs' & Hnd' & Hb' & Hsz').
  assert (Hba : b ≠ a) by congruence.
  rewrite Hroot in Hr. pose proof (reach_locs _ _ _ _ Hs Hr) as Hin.
  pose proof (val_of_shape _ _ _ _ _ Hs Hin Hnb) as Hv.
  rewrite <- (val_of_remove_at a t b Hnd Hba) in Hv.
  destruct (val_of_heap _ _ _ _ _ Hs' Hv) as (nb' & Hnb' & Hval & Hin').
  split.
  - rewrite Hroot'. by eapply locs_reach.
  - exists nb'. split_and!; [done|done|].
    destruct (shape_lookup _ _ _ _ Hs Hin) as (m & Hm & Hml).
    destruct (shape_lookup _ _ _ _ Hs' Hin') as (m' & Hm' & Hml').
    congruence.
Qed.

End DeleteKeeps.

(** ** No operation faults on a tree the package built *)

Section NoFault.

Hypothesis less_trans :
  ∀ x1 x2 x3, less x1 x2 = true -> less x2 x3 = true -> less x1 x3 = true.

(** X15. On a tree built by [New] and any sequence of [Insert], [Delete],
    [Init] and [RandInit], every operation returns: none dereferences nil
    or loops for ever, whatever the value or the node of the tree it is
    given. *)
Theorem reachable_no_fault s :
  reachable less s ->
  (∀ v, ∃ q s', Insert v s = Ok (q, s')) ∧
  (∀ v, ∃ (found : bool) s', Delete v s = Ok (found, s')) ∧
  (∀ vs, ∃ s', Init vs s = Ok (tt, s')) ∧
  (∀ (rnd : nat -> nat) vs,
     (∀ i, (rnd i <= i)%nat) -> ∃ s', RandInit rnd vs s = Ok (tt, s')) ∧
  (∀ v, ∃ p (c : bool),
     Tree_Find s v = Ok p ∧ Tree_Contains s v = Ok c) ∧
  (∃ p p', Tree_Min s = Ok p ∧ Tree_Max s = Ok p') ∧
  (∃ k, Tree_Height s = Ok k) ∧
  (∀ a, reach (heap s) (t_root (tree s)) a ->
     ∃ p p' x, Next (heap s) (Some a) = Ok p ∧
               Prev (heap s) (Some a) = Ok p' ∧
               Val (heap s) (Some a) = Ok x).
Proof.
  intros Hreach.
  destruct (reachable_tree_inv less_trans _ Hreach) as (t & Hrep).
  pose proof Hrep as (Hless & Hroot & Hs & Hnd & Hb & Hsz).
  pose proof (depth_le_size _ _ _ Hs Hnd) as Hd.
  split_and!.
  - intros v. destruct (Insert_repr _ _ v Hrep) as (q & s' & Hrun & _).
    by exists q, s'.
  - intros v.
    destruct (Delete_repr less_trans _ _ v Hrep) as (f & s' & _ & Hrun & _).
    by exists f, s'.
  - intros vs. destruct (Init_repr vs _ _ Hrep) as (s' & _ & Hrun & _).
    by exists s'.
  - intros rnd vs Hrnd. rewrite (RandInit_Init rnd vs s Hrnd).
    destruct (Init_repr (shuffled rnd vs) _ _ Hrep) as (s' & _ & Hrun & _).
    by exists s'.
  - intros v. unfold Tree_Find, Tree_Contains.
    rewrite (Find_repr _ _ v Hrep). unfold_result. eauto.
  - unfold Tree_Min, Tree_Max. rewrite Hroot.
    destruct t as [|l c x r]; [by exists None, None|]. cbn [root_of Min Max].
    rewrite (min_loop_shape _ _ _ _ _ _ _ Hs Hd).
    rewrite (max_loop_shape _ _ _ _ _ _ _ Hs Hd). unfold_result. eauto.
  - unfold Tree_Height. rewrite Hroot, (Height_shape _ _ _ Hs Hnd). eauto.
  - intros a Hr. rewrite Hroot in Hr.
    pose proof (reach_locs _ _ _ _ Hs Hr) as Hin.
    destruct (shape_lookup _ _ _ _ Hs Hin) as (n & Hn & _).
    apply list_elem_of_split in Hin as (k1 & k2 & Hk).
    assert (HN : ∃ p, Next (heap s) (Some a) = Ok p).
    { destruct k2 as [|c k2].
      - exists None. apply (Next_last (heap s) t a Hs Hd).
        rewrite Hk. by rewrite last_snoc.
      - exists (Some c). by eapply Next_adjacent. }
    assert (HP : ∃ p, Prev (heap s) (Some a) = Ok p).
    { destruct k1 as [|c0 k0 _] using rev_ind.
      - exists None. apply (Prev_first (heap s) t a Hs Hd). by rewrite Hk.
      - rewrite <- (assoc_L (++)) in Hk. simpl in Hk.
        exists (Some c0). by eapply Prev_adjacent. }
    destruct HN as (p & HN), HP as (p' & HP).
    exists p, p', (n_val n). split_and!; [done|done|].
    unfold Val. cbn [load]. rewrite Hn. by unfold_result.
Qed.

End NoFault.

(** ** The length of a descent *)

Lemma path_abs_depth t v : (length (path_abs less t v) <= depth t)%nat.
Proof.
  induction t as [|l IHl a x r IHr]; [done|]. cbn [path_abs depth length].
  destruct (less v x); [lia|]. destruct (less x v); [lia|]. simpl. lia.
Qed.

Lemma path_abs_last t v a :
  find_abs less t v = Some a -> last (path_abs less t v) = Some a.
Proof.
  induction t as [|l IHl c x r IHr]; [done|]. cbn [path_abs find_abs].
  destruct (less v x).
  - intros Hf. specialize (IHl Hf).
    destruct (path_abs less l v); [done|]. by rewrite last_cons_cons.
  - destruct (less x v).
    + intros Hf. specialize (IHr Hf).
      destruct (path_abs less r v); [done|]. by rewrite last_cons_cons.
    + by intros [= ->].
Qed.

(** X17. On a well-formed tree whose node count fits an [int], the loop
    of [Find] visits at most [Height] nodes, and the node [Find] returns,
    if any, is the last one it visits. *)
Theorem Find_steps s v (ls : list loc) :
  tree_inv less s ->
  nodes (heap s) (t_root (tree s)) = Ok ls ->
  Z.of_nat (length ls) <= int_max ->
  ∃ (path : list loc) p k,
    find_path (size (heap s)) (heap s) (t_root (tree s)) v = Ok path ∧
    Tree_Find s v = Ok p ∧ Tree_Height s = Ok k ∧
    Z.of_nat (length path) <= k ∧
    (∀ b, p = Some b -> last path = Some b).
Proof.
  intros (t & Hrep) Hn Hmax.
  pose proof Hrep as (Hless & Hroot & Hs & Hnd & Hb & Hsz).
  rewrite Hroot, (nodes_shape _ _ _ Hs Hnd) in Hn. injection Hn as <-.
  exists (path_abs less t v), (find_abs less t v), (Z.of_nat (depth t)).
  split_and!.
  - rewrite Hroot. eapply find_path_shape; [done|]. by eapply depth_le_size.
  - by apply Find_repr.
  - unfold Tree_Height.
    by rewrite Hroot, (Height_shape _ _ _ Hs Hnd), (height_abs_depth _ Hmax).
  - pose proof (path_abs_depth t v). lia.
  - intros b Hf. by apply path_abs_last.
Qed.

(** ** Deciding membership by running Find *)

Section FindDecides.

Hypothesis less_trans :
  ∀ x1 x2 x3, less x1 x2 = true -> less x2 x3 = true -> less x1 x3 = true.

Lemma Find_None_not_contains s v :
  tree_inv less s -> Tree_Find s v = Ok None -> ¬ contains_equal less s v.
Proof.
  intros (t & Hrep) Hfind Hc. unfold Tree_Find in Hfind.
  rewrite (Find_repr _ _ v Hrep) in Hfind.
  apply (contains_equal_find less_trans _ _ v Hrep) in Hc. congruence.
Qed.

Lemma Find_Some_contains s v a :
  tree_inv less s -> Tree_Find s v = Ok (Some a) -> contains_equal less s v.
Proof.
  intros (t & Hrep) Hfind. unfold Tree_Find in Hfind.
  rewrite (Find_repr _ _ v Hrep) in Hfind.
  apply (contains_equal_find less_trans _ _ v Hrep). congruence.
Qed.

End FindDecides.

(** ** The node Delete takes out *)

Lemma Delete_run_cell s t v a :
  tree_repr less s t -> find_abs less t v = Some a ->
  ∃ s', Delete v s = Ok (true, s') ∧ heap s' !! a = heap s !! a.
Proof.
  intros Hrep Hf. pose proof (Find_repr _ _ v Hrep) as HF.
  destruct Hrep as (Hless & Hroot & Hs & Hnd & Hb & Hsz).
  pose proof (find_abs_in _ _ _ Hf) as Hin.
  destruct s as [h T]. cbn [heap tree] in *.
  destruct (removeNode_at h T t None a Hs Hnd Hin)
    as (h' & Hrun & _ & _ & _ & Hsame); [done|done|].
  eexists. split.
  - unfold Delete.
    rewrite (bind_run get_tree _ (mkState h T) T (mkState h T)) by done.
    rewrite (bind_run (lift _) _ (mkState h T) (Some a) (mkState h T)).
    2:{ unfold lift. cbn [heap]. by rewrite HF, Hf. }
    by rewrite (bind_run _ _ _ _ _ Hrun).
  - done.
Qed.

Section DeleteUnlinks.

Hypothesis less_trans :
  ∀ x1 x2 x3, less x1 x2 = true -> less x2 x3 = true -> less x1 x3 = true.

(** X18. [Delete v] unlinks the node [Find v] returns and leaves the node
    itself as it was: the node is no longer in the tree, but its cell keeps
    its value and its parent and child pointers as they were. *)
Theorem Delete_leaves_removed_node s v a :
  tree_inv less s -> Tree_Find s v = Ok (Some a) ->
  ∃ s', Delete v s = Ok (true, s') ∧
        heap s' !! a = heap s !! a ∧
        is_Some (heap s !! a) ∧
        reach (heap s) (t_root (tree s)) a ∧
        ¬ reach (heap s') (t_root (tree s')) a.
Proof.
  intros (t & Hrep) Hfind.
  pose proof Hrep as (Hless & Hroot & Hs & Hnd & Hb & Hsz).
  unfold Tree_Find in Hfind. rewrite (Find_repr _ _ v Hrep) in Hfind.
  injection Hfind as Hf.
  destruct (Delete_run_cell _ _ _ _ Hrep Hf) as (s' & Hrun & Hsame).
  destruct (Delete_found less_trans _ _ _ _ Hrep Hf)
    as (s1 & Hrun1 & Hrep' & _).
  rewrite Hrun in Hrun1. injection Hrun1 as <-.
  pose proof Hrep' as (Hless' & Hroot' & Hs' & Hnd' & Hb' & Hsz').
  pose proof (find_abs_in _ _ _ Hf) as Hin.
  destruct (shape_lookup _ _ _ _ Hs Hin) as (n & Hn & _).
  exists s'. split_and!; [done|done|by exists n| |].
  - rewrite Hroot. by eapply locs_reach.
  - rewrite Hroot'. intros Hr. apply (reach_locs _ _ _ _ Hs') in Hr.
    destruct (remove_at_split a t Hnd Hin)
      as (k1 & k2 & w1 & y & w2 & E1 & E2 & _).
    rewrite E1 in Hnd. rewrite E2 in Hr.
    apply NoDup_app in Hnd as (_ & Hdisj & Hnd2).
    apply NoDup_cons in Hnd2 as (Hnin & _).
    apply elem_of_app in Hr as [Hr|Hr]; [|done].
    apply (Hdisj a Hr). apply elem_head.
Qed.

End DeleteUnlinks.

(** ** The tree as a set of values *)

Lemma contains_equal_vals s t v :
  tree_repr less s t ->
  (contains_equal less s v ↔ ∃ x, x ∈ vals t ∧ equal less v x).
Proof.
  intros (Hless & Hroot & Hs & Hnd & Hb & Hsz). split.
  - intros (a & n & Hr & Hn & Heq). rewrite Hroot in Hr.
    apply (reach_locs _ _ _ _ Hs) in Hr.
    exists (n_val n). split; [by eapply shape_val_in|done].
  - intros (x & Hx & Heq).
    destruct (val_in_shape _ _ _ _ Hs Hx) as (a & n & Ha & Hn & <-).
    exists a, n. rewrite Hroot. split_and!; [by eapply locs_reach|done|done].
Qed.

Section Membership.

Hypothesis less_cotrans :
  ∀ x1 x2 x3, less x1 x2 = true -> less x1 x3 = true ∨ less x3 x2 = true.

Lemma equal_trans (x1 x2 x3 : Value) :
  equal less x1 x2 -> equal less x2 x3 -> equal less x1 x3.
Proof.
  intros (H12 & H21) (H23 & H32). split.
  - destruct (less x1 x3) eqn:E; [|done].
    destruct (less_cotrans _ _ x2 E); congruence.
  - destruct (less x3 x1) eqn:E; [|done].
    destruct (less_cotrans _ _ x2 E); congruence.
Qed.

Lemma equal_comm (x1 x2 : Value) : equal less x1 x2 -> equal less x2 x1.
Proof. by intros (? & ?). Qed.

(** X19. After [Insert v] a well-formed tree holds an equal of [y] exactly
    when it held one before or [y] is equal to [v]. *)
Theorem Insert_membership s v q s' y :
  tree_inv less s -> Insert v s = Ok (q, s') ->
  (contains_equal less s' y ↔ contains_equal less s y ∨ equal less y v).
Proof.
  intros (t & Hrep) Hrun.
  pose proof Hrep as (Hless & Hroot & Hs & Hnd & Hb & Hsz).
  destruct (find_abs less t v) as [a|] eqn:Hf.
  - rewrite (Insert_found _ _ _ _ Hrep Hf) in Hrun. injection Hrun as <- <-.
    split; [by left|]. intros [?|Heq]; [done|].
    destruct (find_abs_equal _ _ _ _ _ Hs Hf) as (n & Hn & Hvn).
    exists a, n. split_and!; [|done|by eapply equal_trans].
    rewrite Hroot. eapply locs_reach; [done|]. by eapply find_abs_in.
  - destruct (Insert_repr _ _ v Hrep) as (q1 & s1 & Hrun1 & Hrep1).
    rewrite Hrun in Hrun1. injection Hrun1 as <- <-.
    rewrite (contains_equal_vals _ _ y Hrep), (contains_equal_vals _ _ y Hrep1).
    split.
    + intros (x & Hx & Heq). rewrite (vals_ins_perm _ _ _ Hf) in Hx.
      apply elem_of_cons in Hx as [->|Hx]; [by right|]. left. by exists x.
    + intros [(x & Hx & Heq)|Heq].
      * exists x. split; [|done]. rewrite (vals_ins_perm _ _ _ Hf). in_list.
      * exists v. split; [|done]. rewrite (vals_ins_perm _ _ _ Hf).
        apply elem_head.
Qed.

(** X21. After [Init vs] or [RandInit vs] a well-formed tree holds an
    equal of [y] exactly when it held one before or [y] is equal to an
    element of [vs]. *)
Theorem Init_membership (vs : list Value) s s' y :
  (∀ x1, less x1 x1 = false) ->
  tree_inv less s ->
  (Init vs s = Ok (tt, s') ∨
   ∃ rnd : nat -> nat,
     (∀ i, (rnd i <= i)%nat) ∧ RandInit rnd vs s = Ok (tt, s')) ->
  (contains_equal less s' y ↔
   contains_equal less s y ∨ ∃ x, x ∈ vs ∧ equal less y x).
Proof.
  intros Hirr (t & Hrep) Hrun.
  assert (Hrun' : ∃ vs', vs' ≡ₚ vs ∧ Init vs' s = Ok (tt, s')).
  { destruct Hrun as [Hrun|(rnd & Hrnd & Hrun)]; [by exists vs|].
    exists (shuffled rnd vs). split; [by apply shuffled_perm|].
    by rewrite <- RandInit_Init. }
  destruct Hrun' as (vs' & Hperm & Hrun').
  destruct (Init_repr vs' _ _ Hrep) as (s1 & t1 & Hrun1 & Hrep1 & Ha & Hm & Hc).
  rewrite Hrun' in Hrun1. injection Hrun1 as <-.
  rewrite (contains_equal_vals _ _ y Hrep), (contains_equal_vals _ _ y Hrep1).
  split.
  - intros (x & Hx & Heq). destruct (Ha x Hx) as [Hx'|Hx'].
    + left. by exists x.
    + right. exists x. split; [by rewrite <- Hperm|done].
  - intros [(x & Hx & Heq)|(x & Hx & Heq)].
    + exists x. split; [by apply Hm|done].
    + rewrite <- Hperm in Hx. destruct (Hc Hirr x Hx) as (x' & Hx' & Heq').
      exists x'. split; [done|by eapply equal_trans].
Qed.

Hypothesis less_trans :
  ∀ x1 x2 x3, less x1 x2 = true -> less x2 x3 = true -> less x1 x3 = true.

(** X20. After [Delete v] a well-formed tree holds an equal of [y] exactly
    when it held one before and [y] is not equal to [v]; when [Delete]
    returns false, the state is the one before. *)
Theorem Delete_membership s v (found : bool) s' y :
  tree_inv less s -> Delete v s = Ok (found, s') ->
  (contains_equal less s' y ↔ contains_equal less s y ∧ ¬ equal less y v) ∧
  (found = false -> s' = s) ∧
  Tree_Contains s' v = Ok false.
Proof.
  intros (t & Hrep) Hrun.
  pose proof Hrep as (Hless & Hroot & Hs & Hnd & Hb & Hsz).
  destruct (find_abs less t v) as [a|] eqn:Hf.
  - destruct (Delete_found less_trans _ _ _ _ Hrep Hf)
      as (s1 & Hrun1 & Hrep1 & _).
    rewrite Hrun in Hrun1. injection Hrun1 as -> <-.
    pose proof (find_abs_in _ _ _ Hf) as Hin.
    destruct (remove_at_split a t Hnd Hin)
      as (k1 & k2 & w1 & x & w2 & _ & _ & E3 & E4 & Hval).
    destruct (find_abs_val _ _ _ Hnd Hf) as (x' & Hval' & Hvx).
    assert (x' = x) as -> by congruence.
    pose proof (bst_sorted less_trans _ Hb) as Hsort. rewrite E3 in Hsort.
    apply StronglySorted_app in Hsort as (Hcross & _ & Hs2).
    apply StronglySorted_cons in Hs2 as (Hall & _).
    rewrite Forall_forall in Hall.
    assert (Hne : ∀ x0, x0 ∈ w1 ++ w2 -> ¬ equal less x0 x).
    { intros x0 Hx0 (H1 & H2). apply elem_of_app in Hx0 as [Hx0|Hx0].
      - specialize (Hcross x0 x Hx0 ltac:(apply elem_head)).
        unfold lessR in Hcross. congruence.
      - specialize (Hall x0 Hx0). unfold lessR in Hall. congruence. }
    split_and!; [|done|].
    + rewrite (contains_equal_vals _ _ y Hrep),
        (contains_equal_vals _ _ y Hrep1), E3, E4.
      split.
      * intros (x0 & Hx0 & Heq). split.
        -- exists x0. split; [|done].
           apply elem_of_app in Hx0 as [?|?]; in_list.
        -- intros Hyv. apply (Hne x0 Hx0).
           apply equal_trans with y; [by apply equal_comm|].
           by apply equal_trans with v.
      * intros ((x0 & Hx0 & Heq) & Hyv). exists x0. split; [|done].
        apply elem_of_app in Hx0 as [Hx0|Hx0]; [in_list|].
        apply elem_of_cons in Hx0 as [->|Hx0]; [|in_list].
        exfalso. apply Hyv. apply equal_trans with x; [done|].
        by apply equal_comm.
    + unfold Tree_Contains. rewrite (Find_repr _ _ v Hrep1).
      rewrite (find_abs_removed less_trans); [by unfold_result|done..].
  - rewrite (Delete_missing _ _ _ Hrep Hf) in Hrun. injection Hrun as <- <-.
    split_and!; [|done|].
    + split; [|by intros (? & _)]. intros Hc. split; [done|]. intros Hyv.
      rewrite (contains_equal_vals _ _ y Hrep) in Hc.
      destruct Hc as (x0 & Hx0 & Heq).
      apply (find_abs_none less_trans t v x0 Hb Hf Hx0).
      apply equal_trans with y; [by apply equal_comm|done].
    + unfold Tree_Contains. rewrite (Find_repr _ _ v Hrep), Hf.
      by unfold_result.
Qed.

End Membership.

(** ** The root *)

Lemma ins_root z v l a x r :
  ∃ l' r', ins less z v (Br l a x r) = Br l' a x r'.
Proof.
  cbn [ins]. destruct (less v x); [by eexists _, _|].
  destruct (less x v); by eexists _, _.
Qed.

Lemma Init_keeps_root vs :
  ∀ s l a x r, tree_repr less s (Br l a x r) ->
    ∃ s' l' r', Init vs s = Ok (tt, s') ∧ tree_repr less s' (Br l' a x r').
Proof.
  induction vs as [|v vs IH]; intros s l a x r Hrep.
  { by exists s, l, r. }
  destruct (Insert_repr _ _ v Hrep) as (q & s1 & Hrun & Hrep1).
  destruct (ins_root (fresh (dom (heap s))) v l a x r) as (l1 & r1 & E).
  rewrite E in Hrep1.
  destruct (IH _ _ _ _ _ Hrep1) as (s' & l' & r' & Hrun' & Hrep').
  exists s', l', r'. split; [|done].
  cbn [Init]. by rewrite (bind_run _ _ _ _ _ Hrun).
Qed.

(** X22. [Init] never replaces the root of a tree that has one: the root
    node and its value stay.  On an empty tree the first element of [vs]
    becomes the value of the root, and an empty [vs] leaves the tree
    empty. *)
Theorem Init_root (vs : list Value) s :
  tree_inv less s ->
  ∃ s', Init vs s = Ok (tt, s') ∧
    (∀ a n, Root s = Some a -> heap s !! a = Some n ->
       Root s' = Some a ∧
       ∃ n', heap s' !! a = Some n' ∧ n_val n' = n_val n ∧
             n_parent n' = None) ∧
    (Root s = None ->
     match vs with
     | [] => Root s' = None
     | v :: _ =>
         ∃ a n', Root s' = Some a ∧ heap s' !! a = Some n' ∧
                 n_val n' = v ∧ n_parent n' = None
     end).
Proof.
  intros (t & Hrep). pose proof Hrep as (Hless & Hroot & Hs & Hnd & Hb & Hsz).
  unfold Root. destruct t as [|l a x r].
  - destruct vs as [|v vs].
    + exists s. split_and!; [done| |done].
      intros a n Ha. rewrite Hroot in Ha. done.
    + destruct (Insert_repr _ _ v Hrep) as (q & s1 & Hrun & Hrep1).
      cbn [ins] in Hrep1.
      destruct (Init_keeps_root vs _ _ _ _ _ Hrep1)
        as (s' & l' & r' & Hrun' & Hrep').
      destruct Hrep' as (_ & Hroot' & (Hcell & _) & _).
      exists s'. split_and!.
      * cbn [Init]. by rewrite (bind_run _ _ _ _ _ Hrun).
      * intros a n Ha. rewrite Hroot in Ha. done.
      * intros _. by eexists _, _.
  - destruct (Init_keeps_root vs _ _ _ _ _ Hrep)
      as (s' & l' & r' & Hrun' & Hrep').
    destruct Hrep' as (_ & Hroot' & (Hcell' & _) & _).
    destruct Hs as (Hcell & _).
    exists s'. split_and!; [done| |].
    + intros a0 n Ha Hn. rewrite Hroot in Ha. injection Ha as <-.
      rewrite Hcell in Hn. injection Hn as <-.
      split; [done|]. by eexists.
    + intros Hnil. rewrite Hroot in Hnil. done.
Qed.

(** ** maxInt *)

(** X23. [maxInt] returns the greater of its two arguments. *)
Theorem maxInt_spec (a b : Z) :
  maxInt a b = Z.max a b ∧ a <= maxInt a b ∧ b <= maxInt a b ∧
  (maxInt a b = a ∨ maxInt a b = b).
Proof. unfold maxInt. destruct (Z.ltb_spec a b); lia. Qed.

End Proofs.

(** * The properties at the tree of integers *)

Lemma Zltb_trans (x y z : Z) :
  (x <? y) = true -> (y <? z) = true -> (x <? z) = true.
Proof. rewrite !Z.ltb_lt. lia. Qed.

Lemma Zltb_irrefl (x : Z) : (x <? x) = false.
Proof. apply Z.ltb_irrefl. Qed.

Lemma Zltb_cotrans (x y z : Z) :
  (x <? y) = true -> (x <? z) = true ∨ (z <? y) = true.
Proof. rewrite !Z.ltb_lt. lia. Qed.

Lemma ex_state_reachable : reachable Z.ltb ex_state.
Proof.
  apply (reachable_Init Z.ltb ex_empty ex_vs); [apply reachable_New|].
  vm_compute. reflexivity.
Qed.

Lemma reachable_invariants_witness :
  reachable Z.ltb ex_state ∧
  (bst_heap Z.ltb (heap ex_state) (t_root (tree ex_state)) ∧
   parent_heap (heap ex_state) (t_root (tree ex_state)) ∧
   size_heap ex_state).
Proof.
  split; [exact ex_state_reachable|].
  exact (reachable_invariants Z.ltb Zltb_trans ex_state ex_state_reachable).
Defined.

Lemma ex_state_inv : tree_inv Z.ltb ex_state.
Proof. exact (reachable_tree_inv Z.ltb Zltb_trans _ ex_state_reachable). Qed.

Lemma Insert_spec_witness :
  tree_inv Z.ltb ex_state ∧
  (¬ contains_equal Z.ltb ex_state 4 ->
   ∃ z path s',
     find_path (size (heap ex_state)) (heap ex_state)
       (t_root (tree ex_state)) 4 = Ok path ∧
     Insert 4 ex_state = Ok (Some z, s') ∧
     heap ex_state !! z = None ∧
     heap s' !! z = Some (mkNode 4 (last path) None None Z.ltb) ∧
     match last path with
     | None => t_root (tree ex_state) = None ∧ t_root (tree s') = Some z
     | Some pa =>
         t_root (tree s') = t_root (tree ex_state) ∧
         ∃ pn, heap ex_state !! pa = Some pn ∧
               heap s' !! pa =
               Some (if 4 <? n_val pn then set_left pn (Some z)
                     else set_right pn (Some z))
     end ∧
     (∀ b, b ≠ z -> Some b ≠ last path ->
           heap s' !! b = heap ex_state !! b) ∧
     t_size (tree s') = int_add (t_size (tree ex_state)) 1 ∧
     (t_size (tree ex_state) < int_max ->
      t_size (tree s') = t_size (tree ex_state) + 1) ∧
     t_lessFn (tree s') = t_lessFn (tree ex_state) ∧
     tree_inv Z.ltb s').
Proof.
  split; [exact ex_state_inv|].
  exact (proj2 (Insert_spec Z.ltb Zltb_trans ex_state 4 ex_state_inv)).
Defined.

Lemma Delete_spec_witness :
  tree_inv Z.ltb ex_state ∧
  ∃ (found : bool) s',
    Delete 5 ex_state = Ok (found, s') ∧
    (found = true ↔ contains_equal Z.ltb ex_state 5) ∧
    (found = false -> s' = ex_state) ∧
    (found = true ->
     t_size (tree s') = int_sub (t_size (tree ex_state)) 1 ∧
     (int_min < t_size (tree ex_state) ->
      t_size (tree s') = t_size (tree ex_state) - 1) ∧
     (∃ ls ls', nodes (heap ex_state) (t_root (tree ex_state)) = Ok ls ∧
                nodes (heap s') (t_root (tree s')) = Ok ls' ∧
                length ls = S (length ls')) ∧
     Delete 5 s' = Ok (false, s')).
Proof.
  split; [exact ex_state_inv|].
  exact (Delete_spec Z.ltb Zltb_trans Zltb_cotrans ex_state 5 ex_state_inv).
Defined.

(** The root of the example tree: 5, with children 2 and 8. *)
Lemma ex_root_cell :
  heap ex_state !! 1%positive =
  Some (mkNode 5 None (Some 2%positive) (Some 3%positive) Z.ltb).
Proof. vm_compute. reflexivity. Qed.

Lemma Delete_two_children_witness :
  tree_inv Z.ltb ex_state ∧
  reach (heap ex_state) (t_root (tree ex_state)) 1%positive ∧
  ∃ s' (w1 w2 : list Z),
    Delete 5 ex_state = Ok (true, s') ∧
    inorder (heap ex_state) (t_root (tree ex_state)) = Ok (w1 ++ 5 :: w2) ∧
    inorder (heap s') (t_root (tree s')) = Ok (w1 ++ w2) ∧
    (∀ b m, reach (heap ex_state) (Some 3%positive) b ->
            heap ex_state !! b = Some m -> n_val m ∈ w1 ++ w2) ∧
    tree_inv Z.ltb s'.
Proof.
  split; [exact ex_state_inv|].
  assert (Hr : reach (heap ex_state) (t_root (tree ex_state)) 1%positive)
    by (eapply reach_here; exact ex_root_cell).
  split; [exact Hr|].
  exact (Delete_two_children Z.ltb Zltb_trans Zltb_irrefl ex_state 1%positive
           _ ex_state_inv Hr ex_root_cell
           ltac:(discriminate) ltac:(discriminate)).
Defined.

Lemma Next_Prev_walk_witness :
  tree_inv Z.ltb ex_state ∧
  ∃ (ls : list loc) (ws : list Z),
    ascend ex_state = Ok ls ∧ descend ex_state = Ok (reverse ls) ∧
    NoDup ls ∧
    (∀ a, a ∈ ls ↔ reach (heap ex_state) (t_root (tree ex_state)) a) ∧
    vals_at (heap ex_state) ls = Ok ws ∧ StronglySorted (lessR Z.ltb) ws ∧
    vals_at (heap ex_state) (reverse ls) = Ok (reverse ws) ∧
    (∀ a, last ls = Some a -> Next (heap ex_state) (Some a) = Ok None) ∧
    (∀ a, head ls = Some a -> Prev (heap ex_state) (Some a) = Ok None).
Proof.
  split; [exact ex_state_inv|].
  exact (Next_Prev_walk Z.ltb Zltb_trans ex_state ex_state_inv).
Defined.

Lemma String_format_witness :
  tree_inv Z.ltb ex_state ∧
  Node_String pretty (heap ex_state) None = Ok "[]"%string ∧
  (∃ ws, inorder (heap ex_state) (t_root (tree ex_state)) = Ok ws ∧
         Tree_String pretty ex_state = Ok (bracketed pretty ws)) ∧
  (∀ a, reach (heap ex_state) (t_root (tree ex_state)) a ->
        ∃ ws, inorder (heap ex_state) (Some a) = Ok ws ∧
              Node_String pretty (heap ex_state) (Some a) =
              Ok (bracketed pretty ws)).
Proof.
  split; [exact ex_state_inv|].
  exact (String_format Z.ltb pretty ex_state ex_state_inv).
Defined.

Lemma String_total_witness :
  tree_inv Z.ltb ex_state ∧
  Node_String pretty (heap ex_state) None = Ok "[]"%string ∧
  (∀ a, reach (heap ex_state) (t_root (tree ex_state)) a ->
     ∃ (buf pre out : string) (x : Z),
       walk pretty (size (heap ex_state)) (heap ex_state) (Some a) "[" =
       Ok buf ∧
       buf = ("[" ++ pre ++ pretty x ++ " ")%string ∧
       0 <= Z.of_nat (String.length buf) - 1 ∧
       Truncate buf (Z.of_nat (String.length buf) - 1) = Ok out ∧
       Node_String pretty (heap ex_state) (Some a) = Ok (out ++ "]")%string).
Proof.
  split; [exact ex_state_inv|].
  exact (String_total Z.ltb pretty ex_state ex_state_inv).
Defined.

Example ex_state_String :
  Tree_String pretty ex_state = Ok "[1 2 5 6 7 8 9]"%string.
Proof. vm_compute. reflexivity. Qed.

Lemma ex_rnd_le (i : nat) : (ex_rnd i <= i)%nat.
Proof. unfold ex_rnd. apply Nat.Div0.div_le_upper_bound. lia. Qed.

Lemma RandInit_as_Init_witness :
  (∀ i, (ex_rnd i <= i)%nat) ∧
  ∃ (ord : list Z) s1 s2 (w1 w2 : list Z),
    ord ≡ₚ ex_vs ∧
    (∀ s, RandInit ex_rnd ex_vs s = Init ord s) ∧
    RandInit ex_rnd ex_vs (mkState ∅ (New Z.ltb)) = Ok (tt, s1) ∧
    Init ex_vs (mkState ∅ (New Z.ltb)) = Ok (tt, s2) ∧
    Len s1 = Len s2 ∧
    inorder (heap s1) (t_root (tree s1)) = Ok w1 ∧
    inorder (heap s2) (t_root (tree s2)) = Ok w2 ∧
    StronglySorted (lessR Z.ltb) w1 ∧ StronglySorted (lessR Z.ltb) w2 ∧
    Forall2 (equal Z.ltb) w1 w2 ∧
    ((∀ x1 x2, equal Z.ltb x1 x2 -> x1 = x2) -> w1 = w2).
Proof.
  split; [exact ex_rnd_le|].
  exact (RandInit_as_Init Z.ltb Zltb_irrefl Zltb_trans Zltb_cotrans
           ex_rnd ex_vs ∅ ex_rnd_le).
Defined.

(** Under [<] on the integers the comparator's equality is identity. *)
Lemma Zltb_equal_eq (x y : Z) : equal Z.ltb x y -> x = y.
Proof. intros (H1 & H2). apply Z.ltb_ge in H1, H2. lia. Qed.

Example ex_RandInit_String :
  Tree_String pretty (state_of (RandInit ex_rnd ex_vs ex_empty)) =
  Ok "[1 2 5 6 7 8 9]"%string.
Proof. vm_compute. reflexivity. Qed.

Lemma Height_spec_witness :
  tree_inv Z.ltb ex_state ∧
  StronglySorted (lessR Z.ltb) [1; 2; 3] ∧
  Z.of_nat (length [1; 2; 3]) <= int_max ∧
  (∃ hl hr, Height (heap ex_state) (Some 2%positive) = Ok hl ∧
            Height (heap ex_state) (Some 3%positive) = Ok hr ∧
            Height (heap ex_state) (Some 1%positive) =
            Ok (int_add 1 (maxInt hl hr))) ∧
  (∃ s', Init [1; 2; 3] (mkState ∅ (New Z.ltb)) = Ok (tt, s') ∧
         Tree_Height s' = Ok (Z.of_nat (length [1; 2; 3]))).
Proof.
  assert (Hs : StronglySorted (lessR Z.ltb) [1; 2; 3])
    by (repeat constructor).
  assert (Hle : Z.of_nat (length [1; 2; 3]) <= int_max) by (vm_compute; discriminate).
  assert (Hr : reach (heap ex_state) (t_root (tree ex_state)) 1%positive)
    by (eapply reach_here; exact ex_root_cell).
  split; [exact ex_state_inv|]. split; [exact Hs|]. split; [exact Hle|].
  destruct (Height_spec Z.ltb Zltb_irrefl Zltb_trans) as (_ & Hnode & _ & Hsorted).
  split.
  - exact (Hnode ex_state 1%positive _ ex_state_inv Hr ex_root_cell).
  - exact (Hsorted ∅ [1; 2; 3] Hs Hle).
Defined.

(** C8 as the claim has it fails on a sorted slice with a repeated
    element: [Insert] drops the repetition, and the tree is lower than the
    slice is long. *)
Lemma Height_sorted_counterexample :
  Sorted (fun x y : Z => (y <? x) = false) [1; 1] ∧
  ∃ s', Init [1; 1] ex_empty = Ok (tt, s') ∧
        Tree_Height s' = Ok 1 ∧
        Tree_Height s' ≠ Ok (Z.of_nat (length [1; 1])).
Proof.
  split; [repeat constructor|].
  eexists. split; [vm_compute; reflexivity|].
  split; [vm_compute; reflexivity|]. vm_compute. discriminate.
Qed.

Lemma Slice_inorder_witness :
  tree_inv Z.ltb ex_state ∧
  inorder (heap ex_state) (t_root (tree ex_state)) =
  Ok [1; 2; 5; 6; 7; 8; 9] ∧
  Z.of_nat (length [1; 2; 5; 6; 7; 8; 9]) <= int_max ∧
  Slice ex_state = Ok (Some <$> [1; 2; 5; 6; 7; 8; 9]) ∧
  Len ex_state = Z.of_nat (length [1; 2; 5; 6; 7; 8; 9]).
Proof.
  assert (Hin : inorder (heap ex_state) (t_root (tree ex_state)) =
                Ok [1; 2; 5; 6; 7; 8; 9]) by (vm_compute; reflexivity).
  assert (Hle : Z.of_nat (length [1; 2; 5; 6; 7; 8; 9]) <= int_max)
    by (vm_compute; discriminate).
  split; [exact ex_state_inv|]. split; [exact Hin|]. split; [exact Hle|].
  exact (Slice_inorder Z.ltb ex_state _ ex_state_inv Hin Hle).
Defined.

Lemma Find_spec_witness :
  tree_inv Z.ltb ex_state ∧
  ∃ p, Tree_Find ex_state 6 = Ok p ∧
       Tree_Contains ex_state 6 = Ok (bool_decide (p ≠ None)) ∧
       Contains (heap ex_state) (t_root (tree ex_state)) 6 =
       Ok (bool_decide (p ≠ None)) ∧
       (p ≠ None ↔ contains_equal Z.ltb ex_state 6) ∧
       (∀ a, p = Some a ->
          reach (heap ex_state) (t_root (tree ex_state)) a ∧
          ∃ n, heap ex_state !! a = Some n ∧ equal Z.ltb 6 (n_val n)).
Proof.
  split; [exact ex_state_inv|].
  exact (Find_spec Z.ltb Zltb_trans ex_state 6 ex_state_inv).
Defined.

(** In the example tree the node after the root (5) is the node of 6. *)
Lemma ex_root_Next : Next (heap ex_state) (Some 1%positive) = Ok (Some 4%positive).
Proof. vm_compute. reflexivity. Qed.

Lemma ex_root_reach : reach (heap ex_state) (t_root (tree ex_state)) 1%positive.
Proof. eapply reach_here. exact ex_root_cell. Qed.

Lemma Next_Prev_inverse_witness :
  tree_inv Z.ltb ex_state ∧
  reach (heap ex_state) (t_root (tree ex_state)) 1%positive ∧
  Next (heap ex_state) (Some 1%positive) = Ok (Some 4%positive) ∧
  Prev (heap ex_state) (Some 4%positive) = Ok (Some 1%positive) ∧
  reach (heap ex_state) (t_root (tree ex_state)) 4%positive.
Proof.
  split; [exact ex_state_inv|]. split; [exact ex_root_reach|].
  split; [exact ex_root_Next|].
  exact (proj1 (Next_Prev_inverse Z.ltb ex_state 1%positive 4%positive
                  ex_state_inv ex_root_reach) ex_root_Next).
Defined.

Lemma ex_root_not_nil : t_root (tree ex_state) ≠ None.
Proof. vm_compute. discriminate. Qed.

Lemma Min_Max_extremal_witness :
  tree_inv Z.ltb ex_state ∧ t_root (tree ex_state) ≠ None ∧
  ∃ a b na nb,
    Tree_Min ex_state = Ok (Some a) ∧ Tree_Max ex_state = Ok (Some b) ∧
    reach (heap ex_state) (t_root (tree ex_state)) a ∧
    reach (heap ex_state) (t_root (tree ex_state)) b ∧
    heap ex_state !! a = Some na ∧ heap ex_state !! b = Some nb ∧
    n_left na = None ∧ n_right nb = None ∧
    ∀ c nc, reach (heap ex_state) (t_root (tree ex_state)) c ->
      heap ex_state !! c = Some nc ->
      (c ≠ a -> (n_val na <? n_val nc) = true) ∧
      (c ≠ b -> (n_val nc <? n_val nb) = true).
Proof.
  split; [exact ex_state_inv|]. split; [exact ex_root_not_nil|].
  exact (Min_Max_extremal Z.ltb Zltb_trans ex_state ex_state_inv
           ex_root_not_nil).
Defined.

Lemma Insert_inorder_witness :
  tree_inv Z.ltb ex_state ∧
  ∃ q s' (w1 w2 : list Z),
    Insert 4 ex_state = Ok (q, s') ∧
    inorder (heap ex_state) (t_root (tree ex_state)) = Ok (w1 ++ w2) ∧
    (contains_equal Z.ltb ex_state 4 ->
     inorder (heap s') (t_root (tree s')) = Ok (w1 ++ w2)) ∧
    (¬ contains_equal Z.ltb ex_state 4 ->
     inorder (heap s') (t_root (tree s')) = Ok (w1 ++ 4 :: w2) ∧
     Forall (fun y => (y <? 4) = true) w1 ∧
     Forall (fun y => (4 <? y) = true) w2).
Proof.
  split; [exact ex_state_inv|].
  exact (Insert_inorder Z.ltb Zltb_trans ex_state 4 ex_state_inv).
Defined.

Lemma ex_contains_5 : contains_equal Z.ltb ex_state 5.
Proof.
  apply (Find_Some_contains Z.ltb Zltb_trans ex_state 5 1%positive);
    [exact ex_state_inv|]. vm_compute. reflexivity.
Qed.

Lemma ex_not_contains_4 : ¬ contains_equal Z.ltb ex_state 4.
Proof.
  apply (Find_None_not_contains Z.ltb Zltb_trans ex_state 4);
    [exact ex_state_inv|]. vm_compute. reflexivity.
Qed.

Lemma Delete_inorder_witness :
  tree_inv Z.ltb ex_state ∧ contains_equal Z.ltb ex_state 5 ∧
  ∃ s' a n (k1 k2 : list loc) (w1 w2 : list Z),
    Delete 5 ex_state = Ok (true, s') ∧
    Tree_Find ex_state 5 = Ok (Some a) ∧
    heap ex_state !! a = Some n ∧ equal Z.ltb 5 (n_val n) ∧
    nodes (heap ex_state) (t_root (tree ex_state)) = Ok (k1 ++ a :: k2) ∧
    nodes (heap s') (t_root (tree s')) = Ok (k1 ++ k2) ∧
    inorder (heap ex_state) (t_root (tree ex_state)) =
    Ok (w1 ++ n_val n :: w2) ∧
    inorder (heap s') (t_root (tree s')) = Ok (w1 ++ w2) ∧
    tree_inv Z.ltb s'.
Proof.
  split; [exact ex_state_inv|]. split; [exact ex_contains_5|].
  exact (Delete_inorder Z.ltb Zltb_trans ex_state 5 ex_state_inv
           ex_contains_5).
Defined.

Lemma ex_Insert_4 :
  Insert 4 ex_state = Ok (Some 8%positive, state_of (Insert 4 ex_state)).
Proof. vm_compute. reflexivity. Qed.

Lemma Insert_then_Find_witness :
  tree_inv Z.ltb ex_state ∧
  Insert 4 ex_state = Ok (Some 8%positive, state_of (Insert 4 ex_state)) ∧
  Some 8%positive ≠ None ∧
  Tree_Find (state_of (Insert 4 ex_state)) 4 = Ok (Some 8%positive) ∧
  Tree_Contains (state_of (Insert 4 ex_state)) 4 = Ok true ∧
  Insert 4 (state_of (Insert 4 ex_state)) =
  Ok (Some 8%positive, state_of (Insert 4 ex_state)).
Proof.
  split; [exact ex_state_inv|]. split; [exact ex_Insert_4|].
  exact (Insert_then_Find Z.ltb Zltb_irrefl Zltb_trans ex_state 4 _ _
           ex_state_inv ex_Insert_4).
Defined.

Lemma Insert_Delete_round_trip_witness :
  tree_inv Z.ltb ex_state ∧ ¬ contains_equal Z.ltb ex_state 4 ∧
  ∃ z s1 s2,
    Insert 4 ex_state = Ok (Some z, s1) ∧
    Delete 4 s1 = Ok (true, s2) ∧
    heap ex_state !! z = None ∧
    tree s2 = tree ex_state ∧
    (∀ b, b ≠ z -> heap s2 !! b = heap ex_state !! b) ∧
    inorder (heap s2) (t_root (tree s2)) =
    inorder (heap ex_state) (t_root (tree ex_state)).
Proof.
  split; [exact ex_state_inv|]. split; [exact ex_not_contains_4|].
  exact (Insert_Delete_round_trip Z.ltb Zltb_irrefl Zltb_trans ex_state 4
           ex_state_inv ex_not_contains_4).
Defined.

Lemma ex_inorder :
  inorder (heap ex_state) (t_root (tree ex_state)) = Ok [1; 2; 5; 6; 7; 8; 9].
Proof. vm_compute. reflexivity. Qed.

Lemma ex_nodes :
  nodes (heap ex_state) (t_root (tree ex_state)) =
  Ok [7; 2; 1; 4; 6; 3; 5]%positive.
Proof. vm_compute. reflexivity. Qed.

Lemma ex_count_le : Z.of_nat (length [1; 2; 5; 6; 7; 8; 9]) <= int_max.
Proof. vm_compute. discriminate. Qed.

Lemma ex_nodes_le :
  Z.of_nat (length [7; 2; 1; 4; 6; 3; 5]%positive) <= int_max.
Proof. vm_compute. discriminate. Qed.

Lemma Slice_Init_round_trip_witness :
  tree_inv Z.ltb ex_state ∧
  inorder (heap ex_state) (t_root (tree ex_state)) =
  Ok [1; 2; 5; 6; 7; 8; 9] ∧
  Z.of_nat (length [1; 2; 5; 6; 7; 8; 9]) <= int_max ∧
  ∃ s', Slice ex_state = Ok (Some <$> [1; 2; 5; 6; 7; 8; 9]) ∧
        Init [1; 2; 5; 6; 7; 8; 9] (mkState ∅ (New Z.ltb)) = Ok (tt, s') ∧
        Slice s' = Ok (Some <$> [1; 2; 5; 6; 7; 8; 9]) ∧
        inorder (heap s') (t_root (tree s')) = Ok [1; 2; 5; 6; 7; 8; 9] ∧
        Len s' = Len ex_state ∧
        Tree_Height s' = Ok (Len ex_state) ∧
        (∀ a n, reach (heap s') (t_root (tree s')) a ->
                heap s' !! a = Some n -> n_left n = None).
Proof.
  split; [exact ex_state_inv|]. split; [exact ex_inorder|].
  split; [exact ex_count_le|].
  exact (Slice_Init_round_trip Z.ltb Zltb_irrefl Zltb_trans ex_state _ ∅
           ex_state_inv ex_inorder ex_count_le).
Defined.

Lemma Init_covers_witness :
  tree_inv Z.ltb ex_state ∧
  ∃ s' (w0 ws : list Z),
    Init [4; 5; 3; 4] ex_state = Ok (tt, s') ∧ tree_inv Z.ltb s' ∧
    inorder (heap ex_state) (t_root (tree ex_state)) = Ok w0 ∧
    inorder (heap s') (t_root (tree s')) = Ok ws ∧
    StronglySorted (lessR Z.ltb) ws ∧
    (∀ y, y ∈ ws -> y ∈ w0 ∨ y ∈ [4; 5; 3; 4]) ∧
    (∀ y, y ∈ w0 -> y ∈ ws) ∧
    (∀ x, x ∈ [4; 5; 3; 4] -> ∃ y, y ∈ ws ∧ equal Z.ltb x y) ∧
    Len s' = int_wrap (Z.of_nat (length ws)).
Proof.
  split; [exact ex_state_inv|].
  exact (Init_covers Z.ltb Zltb_irrefl Zltb_trans [4; 5; 3; 4] ex_state
           ex_state_inv).
Defined.

Lemma ex_perm : [4; 3; 10] ≡ₚ [3; 10; 4].
Proof. apply (Permutation_cons_app [3; 10] [] 4). reflexivity. Qed.

Lemma Init_permutation_witness :
  tree_inv Z.ltb ex_state ∧ [4; 3; 10] ≡ₚ [3; 10; 4] ∧
  ∃ s1 s2 (w1 w2 : list Z),
    Init [4; 3; 10] ex_state = Ok (tt, s1) ∧
    Init [3; 10; 4] ex_state = Ok (tt, s2) ∧
    inorder (heap s1) (t_root (tree s1)) = Ok w1 ∧
    inorder (heap s2) (t_root (tree s2)) = Ok w2 ∧
    Forall2 (equal Z.ltb) w1 w2 ∧
    Len s1 = Len s2 ∧
    ((∀ x1 x2, equal Z.ltb x1 x2 -> x1 = x2) -> w1 = w2).
Proof.
  split; [exact ex_state_inv|]. split; [exact ex_perm|].
  exact (Init_permutation Z.ltb Zltb_irrefl Zltb_trans Zltb_cotrans
           [4; 3; 10] [3; 10; 4] ex_state ex_state_inv ex_perm).
Defined.

Lemma Height_bounds_witness :
  tree_inv Z.ltb ex_state ∧
  nodes (heap ex_state) (t_root (tree ex_state)) =
  Ok [7; 2; 1; 4; 6; 3; 5]%positive ∧
  Z.of_nat (length [7; 2; 1; 4; 6; 3; 5]%positive) <= int_max ∧
  ∃ k, Tree_Height ex_state = Ok k ∧
       0 <= k <= Z.of_nat (length [7; 2; 1; 4; 6; 3; 5]%positive) ∧
       Z.of_nat (length [7; 2; 1; 4; 6; 3; 5]%positive) < 2 ^ k ∧
       Len ex_state = Z.of_nat (length [7; 2; 1; 4; 6; 3; 5]%positive).
Proof.
  split; [exact ex_state_inv|]. split; [exact ex_nodes|].
  split; [exact ex_nodes_le|].
  exact (Height_bounds Z.ltb ex_state _ ex_state_inv ex_nodes ex_nodes_le).
Defined.

(** The node of 1, a leaf below the node of 2. *)
Lemma ex_leaf_cell :
  heap ex_state !! 7%positive =
  Some (mkNode 1 (Some 2%positive) None None Z.ltb).
Proof. vm_compute. reflexivity. Qed.

Lemma ex_leaf_parent (pa : loc) :
  n_parent (mkNode 1 (Some 2%positive) None None Z.ltb) = Some pa ->
  pa ≠ 7%positive ∧ is_Some (heap ex_state !! pa).
Proof.
  intros [= <-]. split; [discriminate|]. vm_compute. eauto.
Qed.

Lemma ex_nil_cell (va : loc) :
  None = Some va ->
  is_Some (heap ex_state !! va) ∧
  Some va ≠ n_parent (mkNode 1 (Some 2%positive) None None Z.ltb).
Proof. discriminate. Qed.

Lemma transplant_footprint_witness :
  heap ex_state !! 7%positive =
  Some (mkNode 1 (Some 2%positive) None None Z.ltb) ∧
  ∃ s', transplant (Some 7%positive) None ex_state = Ok (tt, s') ∧
    t_root (tree s') = t_root (tree ex_state) ∧
    t_size (tree s') = t_size (tree ex_state) ∧
    t_lessFn (tree s') = t_lessFn (tree ex_state) ∧
    (∀ b, Some b ≠ Some 2%positive -> Some b ≠ None ->
          heap s' !! b = heap ex_state !! b) ∧
    (None ≠ Some 7%positive ->
     heap s' !! 7%positive =
     Some (mkNode 1 (Some 2%positive) None None Z.ltb)) ∧
    (∀ pa pn, Some 2%positive = Some pa -> heap ex_state !! pa = Some pn ->
       heap s' !! pa = Some (redirect pn (Some 7%positive) None)) ∧
    (∀ va vn, None = Some va -> heap ex_state !! va = Some vn ->
       heap s' !! va = Some (set_parent vn (Some 2%positive))).
Proof.
  split; [exact ex_leaf_cell|].
  exact (transplant_footprint ex_state 7%positive _ None ex_leaf_cell
           ex_leaf_parent ex_nil_cell).
Defined.

Lemma ex_Delete_5 :
  Delete 5 ex_state = Ok (true, state_of (Delete 5 ex_state)).
Proof. vm_compute. reflexivity. Qed.

Lemma Delete_keeps_nodes_witness :
  tree_inv Z.ltb ex_state ∧
  Delete 5 ex_state = Ok (true, state_of (Delete 5 ex_state)) ∧
  ∀ b nb, reach (heap ex_state) (t_root (tree ex_state)) b ->
    heap ex_state !! b = Some nb ->
    Tree_Find ex_state 5 ≠ Ok (Some b) ->
    reach (heap (state_of (Delete 5 ex_state)))
      (t_root (tree (state_of (Delete 5 ex_state)))) b ∧
    ∃ nb', heap (state_of (Delete 5 ex_state)) !! b = Some nb' ∧
           n_val nb' = n_val nb ∧ n_lessFn nb' = n_lessFn nb.
Proof.
  split; [exact ex_state_inv|]. split; [exact ex_Delete_5|].
  exact (Delete_keeps_nodes Z.ltb Zltb_trans ex_state 5 _ ex_state_inv
           ex_Delete_5).
Defined.

Lemma reachable_no_fault_witness :
  reachable Z.ltb ex_state ∧
  (∀ v, ∃ q s', Insert v ex_state = Ok (q, s')) ∧
  (∀ v, ∃ (found : bool) s', Delete v ex_state = Ok (found, s')) ∧
  (∀ vs, ∃ s', Init vs ex_state = Ok (tt, s')) ∧
  (∀ (rnd : nat -> nat) vs,
     (∀ i, (rnd i <= i)%nat) -> ∃ s', RandInit rnd vs ex_state = Ok (tt, s')) ∧
  (∀ v, ∃ p (c : bool),
     Tree_Find ex_state v = Ok p ∧ Tree_Contains ex_state v = Ok c) ∧
  (∃ p p', Tree_Min ex_state = Ok p ∧ Tree_Max ex_state = Ok p') ∧
  (∃ k, Tree_Height ex_state = Ok k) ∧
  (∀ a, reach (heap ex_state) (t_root (tree ex_state)) a ->
     ∃ p p' x, Next (heap ex_state) (Some a) = Ok p ∧
               Prev (heap ex_state) (Some a) = Ok p' ∧
               Val (heap ex_state) (Some a) = Ok x).
Proof.
  split; [exact ex_state_reachable|].
  exact (reachable_no_fault Z.ltb Zltb_trans ex_state ex_state_reachable).
Defined.

(** The node of 8 is in the example tree; below it are 6, 7 and 9. *)
Lemma ex_reach_8 : reach (heap ex_state) (t_root (tree ex_state)) 3%positive.
Proof.
  eapply reach_right; [exact ex_root_cell|]. eapply reach_here.
  vm_compute. reflexivity.
Qed.

Lemma Node_subtree_queries_witness :
  tree_inv Z.ltb ex_state ∧
  reach (heap ex_state) (t_root (tree ex_state)) 3%positive ∧
  (∃ p, Find (heap ex_state) (Some 3%positive) 5 = Ok p ∧
        Contains (heap ex_state) (Some 3%positive) 5 =
        Ok (bool_decide (p ≠ None)) ∧
        (p ≠ None ↔
         ∃ b n, reach (heap ex_state) (Some 3%positive) b ∧
                heap ex_state !! b = Some n ∧ equal Z.ltb 5 (n_val n)) ∧
        (∀ b, p = Some b ->
           reach (heap ex_state) (Some 3%positive) b ∧
           ∃ n, heap ex_state !! b = Some n ∧ equal Z.ltb 5 (n_val n))) ∧
  (∃ mn mx nmn nmx,
     Min (heap ex_state) (Some 3%positive) = Ok (Some mn) ∧
     Max (heap ex_state) (Some 3%positive) = Ok (Some mx) ∧
     reach (heap ex_state) (Some 3%positive) mn ∧
     reach (heap ex_state) (Some 3%positive) mx ∧
     heap ex_state !! mn = Some nmn ∧ heap ex_state !! mx = Some nmx ∧
     n_left nmn = None ∧ n_right nmx = None ∧
     ∀ c nc, reach (heap ex_state) (Some 3%positive) c ->
       heap ex_state !! c = Some nc ->
       (c ≠ mn -> (n_val nmn <? n_val nc) = true) ∧
       (c ≠ mx -> (n_val nc <? n_val nmx) = true)) ∧
  (∀ b, reach (heap ex_state) (Some 3%positive) b ->
        reach (heap ex_state) (t_root (tree ex_state)) b).
Proof.
  split; [exact ex_state_inv|]. split; [exact ex_reach_8|].
  exact (Node_subtree_queries Z.ltb Zltb_trans ex_state 3%positive 5
           ex_state_inv ex_reach_8).
Defined.

Lemma Find_steps_witness :
  tree_inv Z.ltb ex_state ∧
  nodes (heap ex_state) (t_root (tree ex_state)) =
  Ok [7; 2; 1; 4; 6; 3; 5]%positive ∧
  Z.of_nat (length [7; 2; 1; 4; 6; 3; 5]%positive) <= int_max ∧
  ∃ (path : list loc) p k,
    find_path (size (heap ex_state)) (heap ex_state)
      (t_root (tree ex_state)) 7 = Ok path ∧
    Tree_Find ex_state 7 = Ok p ∧ Tree_Height ex_state = Ok k ∧
    Z.of_nat (length path) <= k ∧
    (∀ b, p = Some b -> last path = Some b).
Proof.
  split; [exact ex_state_inv|]. split; [exact ex_nodes|].
  split; [exact ex_nodes_le|].
  exact (Find_steps Z.ltb ex_state 7 _ ex_state_inv ex_nodes ex_nodes_le).
Defined.

Lemma ex_Find_5 : Tree_Find ex_state 5 = Ok (Some 1%positive).
Proof. vm_compute. reflexivity. Qed.

Lemma Delete_leaves_removed_node_witness :
  tree_inv Z.ltb ex_state ∧
  Tree_Find ex_state 5 = Ok (Some 1%positive) ∧
  ∃ s', Delete 5 ex_state = Ok (true, s') ∧
        heap s' !! 1%positive = heap ex_state !! 1%positive ∧
        is_Some (heap ex_state !! 1%positive) ∧
        reach (heap ex_state) (t_root (tree ex_state)) 1%positive ∧
        ¬ reach (heap s') (t_root (tree s')) 1%positive.
Proof.
  split; [exact ex_state_inv|]. split; [exact ex_Find_5|].
  exact (Delete_leaves_removed_node Z.ltb Zltb_trans ex_state 5 1%positive
           ex_state_inv ex_Find_5).
Defined.

Lemma Insert_membership_witness :
  tree_inv Z.ltb ex_state ∧
  Insert 4 ex_state = Ok (Some 8%positive, state_of (Insert 4 ex_state)) ∧
  (contains_equal Z.ltb (state_of (Insert 4 ex_state)) 4 ↔
   contains_equal Z.ltb ex_state 4 ∨ equal Z.ltb 4 4).
Proof.
  split; [exact ex_state_inv|]. split; [exact ex_Insert_4|].
  exact (Insert_membership Z.ltb Zltb_cotrans ex_state 4 _ _ 4
           ex_state_inv ex_Insert_4).
Defined.

Lemma Delete_membership_witness :
  tree_inv Z.ltb ex_state ∧
  Delete 5 ex_state = Ok (true, state_of (Delete 5 ex_state)) ∧
  (contains_equal Z.ltb (state_of (Delete 5 ex_state)) 6 ↔
   contains_equal Z.ltb ex_state 6 ∧ ¬ equal Z.ltb 6 5) ∧
  (true = false -> state_of (Delete 5 ex_state) = ex_state) ∧
  Tree_Contains (state_of (Delete 5 ex_state)) 5 = Ok false.
Proof.
  split; [exact ex_state_inv|]. split; [exact ex_Delete_5|].
  exact (Delete_membership Z.ltb Zltb_cotrans Zltb_trans ex_state 5 _ _ 6
           ex_state_inv ex_Delete_5).
Defined.

Lemma ex_Init_4_5 :
  Init [4; 5] ex_state = Ok (tt, state_of (Init [4; 5] ex_state)) ∨
  ∃ rnd : nat -> nat,
    (∀ i, (rnd i <= i)%nat) ∧
    RandInit rnd [4; 5] ex_state = Ok (tt, state_of (Init [4; 5] ex_state)).
Proof. left. vm_compute. reflexivity. Qed.

Lemma Init_membership_witness :
  (∀ x : Z, (x <? x) = false) ∧
  tree_inv Z.ltb ex_state ∧
  (Init [4; 5] ex_state = Ok (tt, state_of (Init [4; 5] ex_state)) ∨
   ∃ rnd : nat -> nat,
     (∀ i, (rnd i <= i)%nat) ∧
     RandInit rnd [4; 5] ex_state =
     Ok (tt, state_of (Init [4; 5] ex_state))) ∧
  (contains_equal Z.ltb (state_of (Init [4; 5] ex_state)) 4 ↔
   contains_equal Z.ltb ex_state 4 ∨ ∃ x, x ∈ [4; 5] ∧ equal Z.ltb 4 x).
Proof.
  split; [exact Zltb_irrefl|]. split; [exact ex_state_inv|].
  split; [exact ex_Init_4_5|].
  exact (Init_membership Z.ltb Zltb_cotrans [4; 5] ex_state _ 4
           Zltb_irrefl ex_state_inv ex_Init_4_5).
Defined.

Lemma ex_empty_inv : tree_inv Z.ltb ex_empty.
Proof. exists Leaf. apply New_repr. Qed.

Lemma Init_root_witness :
  tree_inv Z.ltb ex_empty ∧
  ∃ s', Init [5; 2; 8] ex_empty = Ok (tt, s') ∧
    (∀ a n, Root ex_empty = Some a -> heap ex_empty !! a = Some n ->
       Root s' = Some a ∧
       ∃ n', heap s' !! a = Some n' ∧ n_val n' = n_val n ∧
             n_parent n' = None) ∧
    (Root ex_empty = None ->
     ∃ a n', Root s' = Some a ∧ heap s' !! a = Some n' ∧
             n_val n' = 5 ∧ n_parent n' = None).
Proof.
  split; [exact ex_empty_inv|].
  exact (Init_root Z.ltb [5; 2; 8] ex_empty ex_empty_inv).
Defined.
